(** * vscode-lldb: process supervision, session helpers and configuration
      expansion

    A shallow embedding of the TypeScript sources

      - [src/extension/util.ts]     (expandVariables, expandVariablesInObject,
                                     expandDbgConfig, waitForPattern,
                                     AdapterProcess, startDebugAdapter,
                                     spawnDebugger, mergeValues, isEmpty,
                                     readRegistry, getProcessList)
      - [src/tests/adapter.test.ts] (DebugTestSession.launch / attach,
                                     compareVariables, waitForStopEvent,
                                     launchAndWaitForStop, readVariables,
                                     assertDictContains, findMarker,
                                     withTimeout, leftPad, log)
      - [src/extension/install.ts]  (download, installVsix, extractZip,
                                     ensureDirectory)

    Asynchronous code is modelled as a state record together with one
    handler per callback the source registers; the environment (child
    process, timers, debug adapter) is a list of events delivered in order.
    Exceptions are explicit results.

    Strings are sequences of code units below 256 ([ascii]); the maps the
    source uses as dictionaries are association lists in [Object.keys]
    order, because the order of iteration is observable in what the code
    throws first.  Lookups ([dict_get]) read the properties an object has
    of its own; the names for which an object inherits a member of
    [Object.prototype] are listed in [JS.prototype_name], and statements
    about a name that is missing are made for the other names. *)

From Stdlib Require Import ZArith QArith List String Ascii Bool Lia.
From Stdlib Require Import DecimalString.
Import ListNotations.

Set Warnings "-register-all".

Local Open Scope string_scope.
Local Open Scope Z_scope.

(* ================================================================== *)
(** * JavaScript preliminaries *)
(* ================================================================== *)

Module JS.

(** A plain object used as a dictionary: own properties in [Object.keys]
    order. *)
Definition Dict (A : Type) : Type := list (string * A).

(** [obj[key]]; [None] is [undefined]. *)
Fixpoint dict_get {A} (d : Dict A) (key : string) : option A :=
  match d with
  | [] => None
  | (k, v) :: rest => if String.eqb k key then Some v else dict_get rest key
  end.

(** [obj[key] = v]: an existing property keeps its position, a new one is
    added last. *)
Fixpoint dict_set {A} (d : Dict A) (key : string) (v : A) : Dict A :=
  match d with
  | [] => [(key, v)]
  | (k, w) :: rest =>
      if String.eqb k key then (k, v) :: rest
      else (k, w) :: dict_set rest key v
  end.

(** [Object.keys(obj)]. *)
Definition keys {A} (d : Dict A) : list string := map fst d.

(** Truthiness of a [string | null] and of a [number | null]. *)
Definition truthy_string (s : option string) : bool :=
  match s with
  | Some s => negb (String.eqb s "")
  | None => false
  end.

Definition truthy_int (n : option Z) : bool :=
  match n with
  | Some n => negb (n =? 0)
  | None => false
  end.

(** Rendering of an integer inside a template string. *)
Definition string_of_Z (z : Z) : string :=
  NilZero.string_of_int (Z.to_int z).

(** An [Error] object with the two extra fields [waitForPattern] attaches. *)
Record Error := mkError {
  message : string;
  code : option string;
  stdout : option (option string)
}.

(** A promise settles once: [resolve] and [reject] on a settled promise do
    nothing. *)
Inductive Promise (A : Type) : Type :=
| Pending
| Resolved (value : A)
| Rejected (reason : Error).
Arguments Pending {A}.
Arguments Resolved {A} value.
Arguments Rejected {A} reason.

Definition resolve {A} (p : Promise A) (value : A) : Promise A :=
  match p with
  | Pending => Resolved value
  | _ => p
  end.

Definition reject {A} (p : Promise A) (reason : Error) : Promise A :=
  match p with
  | Pending => Rejected reason
  | _ => p
  end.

Definition settled {A} (p : Promise A) : bool :=
  match p with
  | Pending => false
  | _ => true
  end.

(** ** Characters and numbers *)

Definition is_digit (c : ascii) : bool :=
  let n := nat_of_ascii c in ((48 <=? n) && (n <=? 57))%nat.

(** White space and line terminators (below 256): the class [\s] of
    regular expressions and the characters the numeric conversions skip. *)
Definition is_space (c : ascii) : bool :=
  let n := nat_of_ascii c in
  ((9 <=? n) && (n <=? 13) || (n =? 32) || (n =? 160))%nat.

(** With the [m] flag, [^] also matches after a line terminator. *)
Definition is_line_terminator (c : ascii) : bool :=
  let n := nat_of_ascii c in ((n =? 10) || (n =? 13))%nat.

Fixpoint strip_prefix (p s : string) : option string :=
  match p, s with
  | EmptyString, _ => Some s
  | String a p', String b s' =>
      if Ascii.eqb a b then strip_prefix p' s' else None
  | String _ _, EmptyString => None
  end.

(** The longest run of digits at the head of [s], and what follows. *)
Fixpoint span_digits (s : string) : string * string :=
  match s with
  | String c s' =>
      if is_digit c
      then let (ds, r) := span_digits s' in (String c ds, r)
      else (EmptyString, s)
  | EmptyString => (EmptyString, EmptyString)
  end.

(** A Number value: the finite ones are the rationals a binary64 holds
    (the two zeros are not told apart; [==] does not either). *)
Inductive Number :=
| NaN
| Infinity (negative : bool)
| Finite (q : Q).

(** [a == b] on numbers. *)
Definition number_eq (a b : Number) : bool :=
  match a, b with
  | Finite p, Finite q => Qeq_bool p q
  | Infinity s, Infinity t => Bool.eqb s t
  | _, _ => false
  end.

(** The integer nearest to [n / d], ties to even ([0 <= n], [0 < d]). *)
Definition round_half_even (n d : Z) : Z :=
  let q := n / d in
  match 2 * (n mod d) ?= d with
  | Lt => q
  | Gt => q + 1
  | Eq => if Z.even q then q else q + 1
  end.

(** The Number for the exact value [n / d] ([0 <= n], [0 < d]) with the
    given sign: round to nearest, ties to even, 53 bits, exponents from
    -1022 (subnormals below), infinity from [2 ^ 1024]. *)
Definition binary64 (negative : bool) (n d : Z) : Number :=
  if n =? 0 then Finite 0 else
  let e0 := Z.log2 n - Z.log2 d in
  let e := if n * 2 ^ Z.max 0 (- e0) <? d * 2 ^ Z.max 0 e0
           then e0 - 1 else e0 in
  let sh := Z.max e (-1022) - 52 in
  let m := if 0 <=? sh then round_half_even n (d * 2 ^ sh)
           else round_half_even (n * 2 ^ (- sh)) d in
  let sign := if negative then -1 else 1 in
  if 0 <=? sh then
    if 2 ^ 1024 <=? m * 2 ^ sh then Infinity negative
    else Finite (inject_Z (sign * m * 2 ^ sh))
  else Finite (Qmake (sign * m) (Z.to_pos (2 ^ (- sh)))).

Definition digit_value (c : ascii) : Z :=
  let n := Z.of_nat (nat_of_ascii c) in
  if is_digit c then n - 48
  else if (97 <=? n) && (n <=? 122) then n - 87
  else if (65 <=? n) && (n <=? 90) then n - 55
  else 36.

Fixpoint digits_value (radix acc : Z) (ds : string) : Z :=
  match ds with
  | String c ds' => digits_value radix (radix * acc + digit_value c) ds'
  | EmptyString => acc
  end.

Fixpoint trim_start (s : string) : string :=
  match s with
  | String c s' => if is_space c then trim_start s' else s
  | EmptyString => s
  end.

Fixpoint trim_end (s : string) : string :=
  match s with
  | String c s' =>
      match trim_end s' with
      | EmptyString => if is_space c then EmptyString else String c EmptyString
      | t => String c t
      end
  | EmptyString => EmptyString
  end.

Definition sign_of (s : string) : bool * string :=
  match s with
  | String "-" r => (true, r)
  | String "+" r => (false, r)
  | _ => (false, s)
  end.

(** ExponentPart when it is complete; otherwise nothing is consumed. *)
Definition exponent_part (s : string) : Z * string :=
  match s with
  | String c r =>
      if (Ascii.eqb c "e" || Ascii.eqb c "E")%bool then
        let (neg, r1) := sign_of r in
        match span_digits r1 with
        | (EmptyString, _) => (0, s)
        | (ds, r2) => ((if neg then -1 else 1) * digits_value 10 0 ds, r2)
        end
      else (0, s)
  | EmptyString => (0, s)
  end.

Definition decimal (negative : bool) (ip fp : string) (ex : Z) : Number :=
  let n := digits_value 10 0 (ip ++ fp) in
  let e := ex - Z.of_nat (String.length fp) in
  if 0 <=? e then binary64 negative (n * 10 ^ e) 1
  else binary64 negative n (10 ^ (- e)).

(** The longest StrDecimalLiteral at the head of [s]: its value and the
    text after it. *)
Definition str_decimal_literal (s : string) : option (Number * string) :=
  let (neg, r) := sign_of s in
  match strip_prefix "Infinity" r with
  | Some r' => Some (Infinity neg, r')
  | None =>
      let (ip, r1) := span_digits r in
      let (fp, r2) :=
        match r1 with
        | String "." r1' =>
            let (fp, r2) := span_digits r1' in
            match ip, fp with
            | EmptyString, EmptyString => (EmptyString, r1)
            | _, _ => (fp, r2)
            end
        | _ => (EmptyString, r1)
        end in
      match ip, fp with
      | EmptyString, EmptyString => None
      | _, _ => let (ex, r3) := exponent_part r2 in
                Some (decimal neg ip fp ex, r3)
      end
  end.

(** [parseFloat(s)]. *)
Definition parseFloat (s : string) : Number :=
  match str_decimal_literal (trim_start s) with
  | Some (v, _) => v
  | None => NaN
  end.

Fixpoint all_digits_below (radix : Z) (s : string) : bool :=
  match s with
  | String c s' => (digit_value c <? radix) && all_digits_below radix s'
  | EmptyString => true
  end.

(** [0x], [0o] and [0b] literals. *)
Definition non_decimal_literal (s : string) : option Number :=
  match s with
  | String "0" (String c ds) =>
      let radix :=
        if (Ascii.eqb c "x" || Ascii.eqb c "X")%bool then 16
        else if (Ascii.eqb c "o" || Ascii.eqb c "O")%bool then 8
        else if (Ascii.eqb c "b" || Ascii.eqb c "B")%bool then 2
        else 0 in
      if (0 <? radix) && negb (String.eqb ds "") && all_digits_below radix ds
      then Some (binary64 false (digits_value radix 0 ds) 1)
      else None
  | _ => None
  end.

(** [Number(s)], the conversion [==] applies to a string compared with a
    number. *)
Definition toNumber (s : string) : Number :=
  let t := trim_end (trim_start s) in
  if String.eqb t "" then Finite 0 else
  match non_decimal_literal t with
  | Some v => v
  | None =>
      match str_decimal_literal t with
      | Some (v, EmptyString) => v
      | _ => NaN
      end
  end.

(** The names of the members of [Object.prototype].  An object that has
    no property of its own by one of these names inherits the member, and
    [obj[key]] gives it; the lookups of this development ([dict_get]) read
    the properties an object has of its own. *)
Definition prototype_name (key : string) : bool :=
  existsb (String.eqb key)
    ["constructor"; "hasOwnProperty"; "isPrototypeOf";
     "propertyIsEnumerable"; "toLocaleString"; "toString"; "valueOf";
     "__proto__"; "__defineGetter__"; "__defineSetter__";
     "__lookupGetter__"; "__lookupSetter__"].

End JS.

(* ================================================================== *)
(** * [AdapterProcess] (src/extension/util.ts) *)
(* ================================================================== *)

Module Adapter.
Import JS.

(** The object: [process] is the handle, whose observable part is the
    number of [kill()] calls it has received. *)
Record AdapterProcess := mkAdapterProcess {
  isAlive : bool;
  port : option Z;
  process_kills : nat
}.

(** The object together with the global [output] channel its exit listener
    appends to. *)
Record World := mkWorld {
  adapter : AdapterProcess;
  output : list string
}.

(** [new AdapterProcess(process)]. *)
Definition constructor (output : list string) : World :=
  {| adapter := {| isAlive := true; port := None; process_kills := 0 |};
     output := output |}.

(** The ['exit'] listener installed by the constructor. *)
Definition on_exit (code : option Z) (signal : option string) (w : World)
  : World :=
  let a := adapter w in
  let a' := {| isAlive := false; port := port a;
               process_kills := process_kills a |} in
  let out1 :=
    if truthy_string signal
    then List.app (output w)
           ["Adapter terminated by " ++
            match signal with Some s => s | None => "" end ++ " signal."]
    else output w in
  let out2 :=
    if truthy_int code
    then List.app out1
           ["Adapter exit code: " ++
            string_of_Z match code with Some c => c | None => 0 end]
    else out1 in
  {| adapter := a'; output := out2 |}.

(** [terminate()]. *)
Definition terminate (w : World) : World :=
  let a := adapter w in
  if isAlive a
  then {| adapter := {| isAlive := isAlive a; port := port a;
                        process_kills := S (process_kills a) |};
          output := output w |}
  else w.

Inductive Event :=
| Exit (code : option Z) (signal : option string)
| Terminate.

Definition step (w : World) (e : Event) : World :=
  match e with
  | Exit code signal => on_exit code signal w
  | Terminate => terminate w
  end.

Definition run (es : list Event) (w : World) : World :=
  fold_left step es w.

Definition is_exit (e : Event) : bool :=
  match e with
  | Exit _ _ => true
  | Terminate => false
  end.

(** Number of times [isAlive] changes value along a run. *)
Fixpoint transitions (es : list Event) (w : World) : nat :=
  match es with
  | [] => 0
  | e :: rest =>
      let w' := step w e in
      ((if Bool.eqb (isAlive (adapter w)) (isAlive (adapter w'))
        then 0 else 1) + transitions rest w')%nat
  end.

(** What [terminate] does to the process handle, as a function of
    [isAlive]. *)
Definition kills_sent_by_terminate (w : World) : nat :=
  (process_kills (adapter (terminate w)) - process_kills (adapter w))%nat.

End Adapter.

(* ================================================================== *)
(** * [waitForPattern] (src/extension/util.ts) *)
(* ================================================================== *)

Module WaitForPattern.
Import JS.

Section Handlers.

(** [RegExpExecArray] and [pattern.exec]; the patterns passed in have no
    [g] or [y] flag, so [exec] is a function of the text alone. *)
Variable Match : Type.
Variable pattern : string -> option Match.

(** The closure variables of the promise executor, the promise itself,
    whether the timer set by [setTimeout] is still scheduled, and the
    number of [process.kill()] calls. *)
Record State := mkState {
  promisePending : bool;
  processOutput : option string;
  timer : bool;
  promise : Promise Match;
  kills : nat
}.

Definition init : State :=
  {| promisePending := true; processOutput := Some "";
     timer := true; promise := Pending; kills := 0 |}.

(** [processOutput += chunkStr]. *)
Definition append_output (o : option string) (chunkStr : string)
  : string :=
  match o with
  | Some s => s ++ chunkStr
  | None => "null" ++ chunkStr
  end.

(** [channel.on('data', ...)]. *)
Definition on_data (chunkStr : string) (st : State) : State :=
  if promisePending st then
    let out := append_output (processOutput st) chunkStr in
    match pattern out with
    | Some m =>
        {| promisePending := false; processOutput := None;
           timer := false; promise := resolve (promise st) m;
           kills := kills st |}
    | None =>
        {| promisePending := promisePending st;
           processOutput := Some out;
           timer := timer st; promise := promise st;
           kills := kills st |}
    end
  else st.

(** [process.on('error', ...)]. *)
Definition on_error (err : Error) (st : State) : State :=
  {| promisePending := false; processOutput := processOutput st;
     timer := timer st; promise := reject (promise st) err;
     kills := kills st |}.

Definition timeout_error (out : option string) : Error :=
  {| message := "The debugger did not start within the allotted time.";
     code := Some "Timeout"; stdout := Some out |}.

Definition handshake_error (out : option string) : Error :=
  {| message :=
       "The debugger exited without completing startup handshake.";
     code := Some "Handshake"; stdout := Some out |}.

(** The [setTimeout] callback. *)
Definition on_timeout (st : State) : State :=
  if promisePending st then
    {| promisePending := false; processOutput := processOutput st;
       timer := timer st;
       promise := reject (promise st) (timeout_error (processOutput st));
       kills := S (kills st) |}
  else st.

(** [process.on('exit', ...)]. *)
Definition on_exit (code : option Z) (signal : option string)
  (st : State) : State :=
  if promisePending st then
    {| promisePending := false; processOutput := processOutput st;
       timer := timer st;
       promise := reject (promise st)
                         (handshake_error (processOutput st));
       kills := kills st |}
  else st.

Inductive Event :=
| Data (chunkStr : string)
| ProcError (err : Error)
| TimerDue
| ProcExit (code : option Z) (signal : option string).

(** The event loop runs the timer callback only while the timer is
    scheduled, and at most once. *)
Definition step (st : State) (e : Event) : State :=
  match e with
  | Data chunkStr => on_data chunkStr st
  | ProcError err => on_error err st
  | TimerDue =>
      if timer st
      then on_timeout {| promisePending := promisePending st;
                         processOutput := processOutput st;
                         timer := false; promise := promise st;
                         kills := kills st |}
      else st
  | ProcExit code signal => on_exit code signal st
  end.

Definition run (es : list Event) (st : State) : State :=
  fold_left step es st.

(** The variables of the source (everything but the timer's own
    scheduling state). *)
Definition same_vars (a b : State) : Prop :=
  promisePending a = promisePending b /\
  processOutput a = processOutput b /\
  promise a = promise b /\
  kills a = kills b.

(** The concatenation of a sequence of chunks, and the text accumulated
    after the first [k] of them. *)
Definition text_of (chunks : list string) : string :=
  fold_right String.append "" chunks.

Definition accumulated (chunks : list string) (k : nat) : string :=
  text_of (firstn k chunks).

(** The three outcomes: what an event does to a promise that is still
    pending ([Pending] for a chunk that completes no match). *)
Definition outcome_of (st : State) (e : Event) : Promise Match :=
  match e with
  | Data chunkStr =>
      match pattern (append_output (processOutput st) chunkStr) with
      | Some m => Resolved m
      | None => Pending
      end
  | ProcError err => Rejected err
  | TimerDue => Rejected (timeout_error (processOutput st))
  | ProcExit _ _ => Rejected (handshake_error (processOutput st))
  end.

(** Number of steps of a run at which the promise goes from pending to
    settled. *)
Fixpoint settlements (es : list Event) (st : State) : nat :=
  match es with
  | [] => 0
  | e :: rest =>
      let st' := step st e in
      ((if settled (promise st) then 0
        else if settled (promise st') then 1 else 0)
       + settlements rest st')%nat
  end.

(** What holds of every state the handlers can reach. *)
Record reachable_inv (st : State) : Prop := {
  inv_pending : promisePending st = negb (settled (promise st));
  inv_timer : promise st = Pending -> timer st = true
}.

End Handlers.

Arguments promisePending {Match} _.
Arguments processOutput {Match} _.
Arguments timer {Match} _.
Arguments promise {Match} _.
Arguments kills {Match} _.
Arguments init {Match}.

(** The pattern [startDebugAdapter] and the test session wait for:
    [new RegExp('^Listening on port (\\d+)\\s', 'm')]. *)
Module Handshake.
Import JS.

(** A match starting at the head of [s]: the array [[match, group 1]].
    [\d+] is greedy and [\s] matches no digit, so only the longest run
    of digits can be followed by the white space. *)
Definition match_here (s : string) : option (list string) :=
  match strip_prefix "Listening on port " s with
  | Some r =>
      match span_digits r with
      | (EmptyString, _) => None
      | (ds, String c _) =>
          if is_space c
          then Some ["Listening on port " ++ ds ++ String c ""; ds]
          else None
      | (_, EmptyString) => None
      end
  | None => None
  end.

Fixpoint exec_from (line_start : bool) (s : string)
  : option (list string) :=
  match s with
  | EmptyString => None
  | String c s' =>
      match (if line_start then match_here s else None) with
      | Some m => Some m
      | None => exec_from (is_line_terminator c) s'
      end
  end.

(** [regex.exec(text)]. *)
Definition exec (text : string) : option (list string) :=
  exec_from true text.

End Handshake.

(** Values for the examples: an error of [spawn], and the line of the
    adapter read in three pieces after a first line. *)
Definition spawn_error : Error :=
  {| message := "spawn codelldb ENOENT"; code := Some "ENOENT";
     stdout := None |}.

Definition handshake_chunks : list string :=
  [String.append "Starting" (String "010" "Listening on "); "port 47";
   String "1" (String "1" (String "010" ""))].

End WaitForPattern.

(* ================================================================== *)
(** * [DebugTestSession.waitForStopEvent] (src/tests/adapter.test.ts) *)
(* ================================================================== *)

Module StopEvent.
Import JS.

(** The body of a 'stopped' event. *)
Record StoppedEvent := mkStoppedEvent {
  reason : string;
  threadId : option Z
}.

(** Whether [handler] is among the session's 'stopped' listeners, the
    promise returned to the caller, and the test log. *)
Record State := mkState {
  listening : bool;
  promise : Promise StoppedEvent;
  log : list string
}.

(** After [session.addListener('stopped', handler)]. *)
Definition init : State :=
  {| listening := true; promise := Pending; log := [] |}.

Definition ignored_message : string :=
  "Ignored " ++ String "034" "initial" ++ String "034" " event".

(** [handler(event)]. *)
Definition handler (event : StoppedEvent) (st : State) : State :=
  if negb (String.eqb (reason event) "initial") then
    {| listening := false;
       promise := resolve (promise st) event;
       log := log st |}
  else
    {| listening := listening st;
       promise := promise st;
       log := List.app (log st) [ignored_message] |}.

(** The session emits a 'stopped' event: the handler runs if it is still
    registered. *)
Definition emit (st : State) (event : StoppedEvent) : State :=
  if listening st then handler event st else st.

Definition run (events : list StoppedEvent) (st : State) : State :=
  fold_left emit events st.

(** A stop the user can see. *)
Definition user_visible (event : StoppedEvent) : bool :=
  negb (String.eqb (reason event) "initial").

End StopEvent.

(* ================================================================== *)
(** * [DebugTestSession.launch] and [attach] (src/tests/adapter.test.ts) *)
(* ================================================================== *)

Module Launch.

Inductive Command := initialize | launch | attach | configurationDone.

Definition command_eqb (a b : Command) : bool :=
  match a, b with
  | initialize, initialize | launch, launch | attach, attach
  | configurationDone, configurationDone => true
  | _, _ => false
  end.

(** What the adapter sends back: the response to a request (failed or
    not) or an event. *)
Inductive Message :=
| Response (command : Command) (success : bool)
| Event (event : string).

(** Where the [async] function is suspended. *)
Inductive Pc :=
| AwaitInitializeResponse
| AwaitInitialized
| Returned
| Threw.

(** [launch] and [attach] differ in the request they send only. *)
Inductive Kind := Launch | Attach.

Definition request_of (k : Kind) : Command :=
  match k with
  | Launch => launch
  | Attach => attach
  end.

(** [waitForInit] is whether the promise of [waitForEvent('initialized')]
    is resolved; [requestResp] is the promise [launchResp] / [attachResp]
    ([None] while pending, else whether the response was a success);
    [sent] lists the requests written to the adapter, oldest first. *)
Record Session := mkSession {
  pc : Pc;
  waitForInit : bool;
  requestResp : option bool;
  sent : list Command
}.

(** The call runs up to its first [await]: the waiter is registered and
    [initialize] is sent. *)
Definition start : Session :=
  {| pc := AwaitInitializeResponse; waitForInit := false;
     requestResp := None; sent := [initialize] |}.

(** The function resumes after [await waitForInit]. *)
Definition after_initialized (st : Session) : Session :=
  {| pc := Returned; waitForInit := waitForInit st;
     requestResp := requestResp st;
     sent := sent st ++ [configurationDone] |}.

(** The function resumes after [await this.initializeRequest()]: it sends
    the request and reaches [await waitForInit]. *)
Definition after_initialize_response (k : Kind) (st : Session) : Session :=
  let st' := {| pc := AwaitInitialized; waitForInit := waitForInit st;
                requestResp := requestResp st;
                sent := sent st ++ [request_of k] |} in
  if waitForInit st then after_initialized st' else st'.

(** One message from the adapter is dispatched and the continuations it
    wakes run to their next [await]. *)
Definition dispatch (k : Kind) (st : Session) (m : Message) : Session :=
  match m with
  | Response initialize success =>
      match pc st with
      | AwaitInitializeResponse =>
          if success then after_initialize_response k st
          else {| pc := Threw; waitForInit := waitForInit st;
                  requestResp := requestResp st; sent := sent st |}
      | _ => st
      end
  | Response c success =>
      if command_eqb c (request_of k)
         && existsb (command_eqb c) (sent st)
      then match requestResp st with
           | None => {| pc := pc st; waitForInit := waitForInit st;
                        requestResp := Some success; sent := sent st |}
           | Some _ => st
           end
      else st
  | Event event =>
      if String.eqb event "initialized" then
        let st' := {| pc := pc st; waitForInit := true;
                      requestResp := requestResp st; sent := sent st |} in
        match pc st with
        | AwaitInitialized => after_initialized st'
        | _ => st'
        end
      else st
  end.

Definition run (k : Kind) (ms : list Message) (st : Session) : Session :=
  fold_left (dispatch k) ms st.

Definition is_initialize_response (m : Message) : bool :=
  match m with
  | Response initialize _ => true
  | _ => false
  end.

Definition is_initialized_event (m : Message) : bool :=
  match m with
  | Event event => String.eqb event "initialized"
  | _ => false
  end.

(** Whether the first response to [initialize] in [ms] is a success. *)
Definition initialize_succeeded (ms : list Message) : bool :=
  match find is_initialize_response ms with
  | Some (Response _ success) => success
  | _ => false
  end.

End Launch.

(* ================================================================== *)
(** * [DebugTestSession.compareVariables] (src/tests/adapter.test.ts) *)
(* ================================================================== *)

Module CompareVariables.
Import JS.

(** A variable of a 'variables' response ([dp.Variable]). *)
Record VariableNode := mkVariable {
  name : string;
  value : string;
  variablesReference : Z
}.

(** The expected shape: [null] (or [undefined]), a boolean, a number, a
    string, or an object with its properties in [Object.keys] order. *)
Inductive Expected :=
| ENull
| EBool (b : bool)
| ENum (n : Number)
| EStr (s : string)
| EObj (props : list (string * Expected)).

(** Induction on an expected shape, with the hypothesis on every property
    of an object. *)
Section ExpectedInduction.
Variable P : Expected -> Prop.
Hypothesis P_null : P ENull.
Hypothesis P_bool : forall b, P (EBool b).
Hypothesis P_num : forall n, P (ENum n).
Hypothesis P_str : forall s, P (EStr s).
Hypothesis P_obj :
  forall props, Forall (fun kv => P (snd kv)) props -> P (EObj props).

End ExpectedInduction.

(** The exceptions the function lets escape: the [AssertionError] of each
    [assert] call, with the data its message is built from, the
    [TypeError] of [Object.keys(null)], and a rejected request. *)
Inductive Failure :=
| ExpectedNonZero
| DidNotFind (keyPath : string)
| StringMismatch (keyPath expected actual : string)
| NumberMismatch (keyPath : string) (expected actual : Number)
| SummaryMismatch (keyPath : string) (summary : Expected) (actual : string)
| Unreachable
| KeysOfNull
| RequestFailed (varRef : Z).

Inductive Outcome :=
| Passed
| Threw (failure : Failure).

(** [actual == expected] for a string [actual], as [assert.equal] tests
    it. *)
Definition loose_eq_string (actual : string) (expected : Expected) : bool :=
  match expected with
  | ENull => false
  | EBool b => number_eq (toNumber actual) (Finite (if b then 1 else 0))
  | ENum n => number_eq (toNumber actual) n
  | EStr s => String.eqb actual s
  | EObj _ => String.eqb actual "[object Object]"
  end.

(** [prefix.length > 0 ? prefix + '.' + key : key]. *)
Definition key_path (prefix key : string) : string :=
  if String.eqb prefix "" then key else prefix ++ "." ++ key.

(** The dictionary [vars] built from the response. *)
Definition vars_of (variables : list VariableNode) : Dict VariableNode :=
  fold_left (fun vars v => dict_set vars (name v) v) variables [].

(** [Object.keys] of a string and the property each key reads: the
    indices and the characters. *)
Fixpoint string_props (i : Z) (s : string) : list (string * string) :=
  match s with
  | String c s' =>
      (string_of_Z i, String c EmptyString) :: string_props (i + 1) s'
  | EmptyString => []
  end.

Section WithAdapter.

(** The adapter's answer to a 'variables' request, [None] when the request
    is rejected. *)
Variable variablesRequest : Z -> option (list VariableNode).

(** The loop over the keys when [expected] is a string: every property is
    a string. *)
Fixpoint compare_chars (vars : Dict VariableNode) (prefix : string)
  (props : list (string * string)) : Outcome :=
  match props with
  | [] => Passed
  | (key, expectedValue) :: rest =>
      let keyPath := key_path prefix key in
      match dict_get vars key with
      | None => Threw (DidNotFind keyPath)
      | Some variable =>
          if String.eqb (value variable) expectedValue
          then compare_chars vars prefix rest
          else Threw (StringMismatch keyPath expectedValue (value variable))
      end
  end.

(** [compareVariables(varRef, expected, prefix)]: the outcome, and the
    'variables' requests issued, added to [requests].  [Object.keys] gives
    the properties of an object, the indices of a string, nothing for a
    number or a boolean, and throws for [null]. *)
Fixpoint compareVariables (varRef : Z) (expected : Expected)
  (prefix : string) (requests : list Z) {struct expected}
  : Outcome * list Z :=
  if varRef =? 0 then (Threw ExpectedNonZero, requests) else
  let requests := (requests ++ [varRef])%list in
  match variablesRequest varRef with
  | None => (Threw (RequestFailed varRef), requests)
  | Some variables =>
      let vars := vars_of variables in
      match expected with
      | ENull => (Threw KeysOfNull, requests)
      | EBool _ | ENum _ => (Passed, requests)
      | EStr s => (compare_chars vars prefix (string_props 0 s), requests)
      | EObj props =>
          (fix each (props : list (string * Expected)) (requests : list Z)
             {struct props} : Outcome * list Z :=
             match props with
             | [] => (Passed, requests)
             | (key, expectedValue) :: rest =>
                 if String.eqb key "$" then each rest requests else
                 let keyPath := key_path prefix key in
                 match dict_get vars key with
                 | None => (Threw (DidNotFind keyPath), requests)
                 | Some variable =>
                     match expectedValue with
                     | ENull => each rest requests
                     | EStr s =>
                         if String.eqb (value variable) s
                         then each rest requests
                         else (Threw (StringMismatch keyPath s
                                        (value variable)), requests)
                     | ENum n =>
                         let numValue := parseFloat (value variable) in
                         if number_eq numValue n
                         then each rest requests
                         else (Threw (NumberMismatch keyPath n numValue),
                               requests)
                     | EObj sub =>
                         let summary_ok :=
                           match dict_get sub "$" with
                           | None | Some ENull => true
                           | Some summary =>
                               loose_eq_string (value variable) summary
                           end in
                         if summary_ok then
                           match compareVariables
                                   (variablesReference variable)
                                   expectedValue keyPath requests with
                           | (Passed, requests') => each rest requests'
                           | thrown => thrown
                           end
                         else
                           (Threw (SummaryMismatch keyPath
                                     match dict_get sub "$" with
                                     | Some summary => summary
                                     | None => ENull
                                     end (value variable)), requests)
                     | EBool _ => (Threw Unreachable, requests)
                     end
                 end
             end) props requests
      end
  end.



End WithAdapter.

(** The key path an exception names. *)
Definition failure_path (f : Failure) : option string :=
  match f with
  | DidNotFind keyPath
  | StringMismatch keyPath _ _
  | NumberMismatch keyPath _ _
  | SummaryMismatch keyPath _ _ => Some keyPath
  | _ => None
  end.


(** The adapter of the examples: reference 7 holds [a = "1"] and
    [b = "y"], neither of them expandable. *)
Definition example_adapter (varRef : Z) : option (list VariableNode) :=
  if varRef =? 7
  then Some [mkVariable "a" "1" 0; mkVariable "b" "y" 0]
  else None.




End CompareVariables.

(* ================================================================== *)
(** * [expandVariables], [expandVariablesInObject], [expandDbgConfig]
      (src/extension/util.ts) *)
(* ================================================================== *)

Module Expand.
Import JS.

(** A configuration value.  A number is kept as the text [toString()]
    gives for it, the only thing the code does with one. *)
Inductive Value :=
| VNull
| VUndefined
| VBool (b : bool)
| VNum (rendering : string)
| VStr (s : string)
| VArr (items : list Value)
| VObj (props : list (string * Value)).

(** Induction on a value, with the hypothesis on every element of an
    array and every property of an object. *)
Section ValueInduction.
Variable P : Value -> Prop.
Hypothesis P_null : P VNull.
Hypothesis P_undefined : P VUndefined.
Hypothesis P_bool : forall b, P (VBool b).
Hypothesis P_num : forall r, P (VNum r).
Hypothesis P_str : forall s, P (VStr s).
Hypothesis P_arr : forall items, Forall P items -> P (VArr items).
Hypothesis P_obj :
  forall props, Forall (fun kv => P (snd kv)) props -> P (VObj props).

Fixpoint Value_nested_ind (v : Value) : P v :=
  match v with
  | VNull => P_null
  | VUndefined => P_undefined
  | VBool b => P_bool b
  | VNum r => P_num r
  | VStr s => P_str s
  | VArr items =>
      P_arr items
        ((fix all (l : list Value) : Forall P l :=
            match l with
            | [] => Forall_nil _
            | x :: l' => Forall_cons x (Value_nested_ind x) (all l')
            end) items)
  | VObj props =>
      P_obj props
        ((fix all (l : list (string * Value))
            : Forall (fun kv => P (snd kv)) l :=
            match l with
            | [] => Forall_nil _
            | kv :: l' => Forall_cons kv (Value_nested_ind (snd kv)) (all l')
            end) props)
  end.
End ValueInduction.

(** [value.toString()]; an array joins its elements with commas, [null]
    and [undefined] elements giving the empty string. *)
Fixpoint toString (v : Value) : string :=
  match v with
  | VNull | VUndefined => ""
  | VBool b => if b then "true" else "false"
  | VNum rendering => rendering
  | VStr s => s
  | VArr items =>
      (fix join (l : list Value) : string :=
         match l with
         | [] => ""
         | x :: rest =>
             match rest with
             | [] => toString x
             | _ => toString x ++ "," ++ join rest
             end
         end) items
  | VObj _ => "[object Object]"
  end.

(** ** The matches of [expandVarRegex] in a string *)

(** A piece of the string: text no match covers, or a match with its two
    groups ([type] is [None] when the first group did not take part). *)
Inductive Segment :=
| Lit (text : string)
| Tok (all : string) (type : option string) (key : string).

(** The text before and after the first colon. *)
Fixpoint split_colon (s : string) : option (string * string) :=
  match s with
  | EmptyString => None
  | String c r =>
      if Ascii.eqb c ":" then Some (EmptyString, r)
      else match split_colon r with
           | Some (a, b) => Some (String c a, b)
           | None => None
           end
  end.

(** The match whose text between the braces is [body] (not empty, no
    closing brace): the first group is what precedes the first colon when
    that and what follows the colon are not empty; otherwise the whole
    body is the key. *)
Definition token_of (body : string) : Segment :=
  let all := "${" ++ body ++ "}" in
  match split_colon body with
  | Some (String c t, String d k) => Tok all (Some (String c t)) (String d k)
  | _ => Tok all None body
  end.

(** Where the scan stands: outside a match, after a dollar, or after
    [${] and the characters [acc], none of them a closing brace. *)
Inductive ScanState :=
| Outside
| Dollar
| Body (acc : string).

(** What the scan puts out, and where it stands, after one more
    character.  A match ends at the first closing brace after its [${];
    [${}] matches nothing. *)
Definition scan_step (st : ScanState) (c : ascii)
  : list Segment * ScanState :=
  match st with
  | Outside =>
      if Ascii.eqb c "$" then ([], Dollar)
      else ([Lit (String c EmptyString)], Outside)
  | Dollar =>
      if Ascii.eqb c "{" then ([], Body EmptyString)
      else if Ascii.eqb c "$" then ([Lit "$"], Dollar)
      else ([Lit "$"; Lit (String c EmptyString)], Outside)
  | Body acc =>
      if Ascii.eqb c "}" then
        match acc with
        | EmptyString => ([Lit "${}"], Outside)
        | _ => ([token_of acc], Outside)
        end
      else ([], Body (acc ++ String c EmptyString))
  end.

(** At the end of the string what is left over is plain text. *)
Definition flush (st : ScanState) : list Segment :=
  match st with
  | Outside => []
  | Dollar => [Lit "$"]
  | Body acc => [Lit ("${" ++ acc)]
  end.

(** The successive matches in [s], leftmost first, with the text between
    them. *)
Fixpoint scan (st : ScanState) (s : string) : list Segment :=
  match s with
  | EmptyString => flush st
  | String c s' =>
      (fst (scan_step st c) ++ scan (snd (scan_step st c)) s')%list
  end.

(** ** Exceptions and the [converged] flag *)

(** The result of a computation that may throw an [Error] (its message)
    and may clear the variable [converged] of [expandDbgConfig]. *)
Inductive Result (A : Type) : Type :=
| Ok (a : A) (converged : bool)
| Throw (message : string).
Arguments Ok {A} a converged.
Arguments Throw {A} message.

(** The callback passed as [expander]. *)
Definition Expander : Type :=
  option string -> string -> bool -> Result (option string).

(** [str.replace(expandVarRegex, ...)]: the callback runs on each match in
    turn; [null] keeps the match as it is. *)
Fixpoint replace_segments (segs : list Segment) (expander : Expander)
  (converged : bool) : Result string :=
  match segs with
  | [] => Ok "" converged
  | Lit text :: rest =>
      match replace_segments rest expander converged with
      | Ok r c => Ok (text ++ r) c
      | Throw e => Throw e
      end
  | Tok all type key :: rest =>
      match expander type key converged with
      | Throw e => Throw e
      | Ok replacement c =>
          match replace_segments rest expander c with
          | Ok r c' =>
              Ok (match replacement with
                  | Some text => text
                  | None => all
                  end ++ r) c'
          | Throw e => Throw e
          end
      end
  end.

Definition expandVariables (str : string) (expander : Expander)
  (converged : bool) : Result string :=
  replace_segments (scan Outside str) expander converged.

Fixpoint expandVariablesInObject (obj : Value) (expander : Expander)
  (converged : bool) {struct obj} : Result Value :=
  match obj with
  | VStr s =>
      match expandVariables s expander converged with
      | Ok r c => Ok (VStr r) c
      | Throw e => Throw e
      end
  | VNull | VUndefined | VBool _ | VNum _ => Ok obj converged
  | VArr items =>
      match
        (fix each (l : list Value) (converged : bool)
           : Result (list Value) :=
           match l with
           | [] => Ok [] converged
           | v :: rest =>
               match expandVariablesInObject v expander converged with
               | Throw e => Throw e
               | Ok v' c =>
                   match each rest c with
                   | Ok rest' c' => Ok (v' :: rest') c'
                   | Throw e => Throw e
                   end
               end
           end) items converged
      with
      | Ok items' c => Ok (VArr items') c
      | Throw e => Throw e
      end
  | VObj props =>
      match
        (fix each (l : list (string * Value)) (converged : bool)
           : Result (list (string * Value)) :=
           match l with
           | [] => Ok [] converged
           | (prop, v) :: rest =>
               match expandVariablesInObject v expander converged with
               | Throw e => Throw e
               | Ok v' c =>
                   match each rest c with
                   | Ok rest' c' => Ok ((prop, v') :: rest') c'
                   | Throw e => Throw e
                   end
               end
           end) props converged
      with
      | Ok props' c => Ok (VObj props') c
      | Throw e => Throw e
      end
  end.

(** ** [expandDbgConfig] *)

Definition circular_message (key : string) : string :=
  "Circular dependency detected during expansion of dbgconfig:" ++ key.

Definition undefined_message (key : string) : string :=
  "dbgconfig:" ++ key ++ " is not defined".

(** The closure [expander] of the fixed-point loop, with the values of
    [dbgconfig] and [expanding] at the time it runs. *)
Definition loop_expander (dbgconfig : Dict Value) (expanding : string)
  : Expander :=
  fun type key converged =>
    match type with
    | Some t =>
        if String.eqb t "dbgconfig" then
          if String.eqb key expanding then Throw (circular_message key)
          else
            match dict_get dbgconfig key with
            | None | Some VNull | Some VUndefined =>
                Throw (undefined_message key)
            | Some value => Ok (Some (toString value)) false
            end
        else Ok None converged
    | None => Ok None converged
    end.

(** The callback of the last expansion, over the launch configuration.
    Here and in the loop [dbgconfig[key]] is read among the properties the
    document has of its own. *)
Definition final_expander (dbgconfig : Dict Value) : Expander :=
  fun type key converged =>
    match type with
    | Some t =>
        if String.eqb t "dbgconfig" then
          match dict_get dbgconfig key with
          | None | Some VNull | Some VUndefined =>
              Throw (undefined_message key)
          | Some value => Ok (Some (toString value)) converged
          end
        else Ok None converged
    | None => Ok None converged
    end.

(** The body of the [do] loop from the [for] on: one pass over the
    properties [props]. *)
Fixpoint expand_props (props : list string) (dbgconfig : Dict Value)
  (converged : bool) : Result (Dict Value) :=
  match props with
  | [] => Ok dbgconfig converged
  | prop :: rest =>
      let current := match dict_get dbgconfig prop with
                     | Some v => v
                     | None => VUndefined
                     end in
      match expandVariablesInObject current (loop_expander dbgconfig prop)
                                    converged with
      | Throw e => Throw e
      | Ok v c => expand_props rest (dict_set dbgconfig prop v) c
      end
  end.

(** One iteration of the [do] loop: [converged = true], then the pass. *)
Definition pass (dbgconfig : Dict Value) : Result (Dict Value) :=
  expand_props (keys dbgconfig) dbgconfig true.

Inductive LoopResult :=
| Converged (dbgconfig : Dict Value)
| Thrown (message : string)
| OutOfFuel.

(** The [do ... while (!converged)] loop, for at most [fuel] passes. *)
Fixpoint fixed_point (fuel : nat) (dbgconfig : Dict Value) : LoopResult :=
  match fuel with
  | O => OutOfFuel
  | S fuel' =>
      match pass dbgconfig with
      | Throw e => Thrown e
      | Ok d true => Converged d
      | Ok d false => fixed_point fuel' d
      end
  end.

Inductive Outcome :=
| Returned (debugConfig : Value)
| Threw (message : string)
| NoFuel.

Definition expandDbgConfig (fuel : nat) (debugConfig : Value)
  (dbgconfigConfig : Dict Value) : Outcome :=
  match fixed_point fuel dbgconfigConfig with
  | Converged dbgconfig =>
      match expandVariablesInObject debugConfig (final_expander dbgconfig)
                                    true with
      | Ok v _ => Returned v
      | Throw e => Threw e
      end
  | Thrown e => Threw e
  | OutOfFuel => NoFuel
  end.

(** ** Reference tokens *)

(** The text a piece stands for. *)
Definition segment_text (seg : Segment) : string :=
  match seg with
  | Lit text => text
  | Tok all _ _ => all
  end.

Definition segments_text (segs : list Segment) : string :=
  fold_right (fun seg r => segment_text seg ++ r) "" segs.

(** The characters a scan has consumed without settling what they are. *)
Definition pending (st : ScanState) : string :=
  match st with
  | Outside => ""
  | Dollar => "$"
  | Body acc => "${" ++ acc
  end.

Definition is_token (seg : Segment) : bool :=
  match seg with
  | Tok _ _ _ => true
  | Lit _ => false
  end.

(** The string contains a [${...}] reference token. *)
Definition has_token (s : string) : bool :=
  existsb is_token (scan Outside s).

(** No string in the value contains a reference token. *)
Fixpoint resolved (v : Value) : bool :=
  match v with
  | VStr s => negb (has_token s)
  | VNull | VUndefined | VBool _ | VNum _ => true
  | VArr items =>
      (fix all (l : list Value) : bool :=
         match l with
         | [] => true
         | x :: rest => resolved x && all rest
         end) items
  | VObj props =>
      (fix all (l : list (string * Value)) : bool :=
         match l with
         | [] => true
         | (_, x) :: rest => resolved x && all rest
         end) props
  end.

Definition resolved_document (d : Dict Value) : bool :=
  forallb (fun kv => resolved (snd kv)) d.

(** ** References between the properties of a document *)

(** The name a piece refers to, when it is a [${dbgconfig:name}] token. *)
Definition dbgconfig_key (seg : Segment) : option string :=
  match seg with
  | Tok _ (Some t) key => if String.eqb t "dbgconfig" then Some key else None
  | _ => None
  end.

Fixpoint segment_refs (segs : list Segment) : list string :=
  match segs with
  | [] => []
  | seg :: rest =>
      match dbgconfig_key seg with
      | Some key => key :: segment_refs rest
      | None => segment_refs rest
      end
  end.

(** The names a string refers to, in order. *)
Definition refs (s : string) : list string :=
  segment_refs (scan Outside s).

(** The names the strings of a value refer to. *)
Fixpoint value_refs (v : Value) : list string :=
  match v with
  | VStr s => refs s
  | VNull | VUndefined | VBool _ | VNum _ => []
  | VArr items =>
      (fix all (l : list Value) : list string :=
         match l with
         | [] => []
         | x :: rest => value_refs x ++ all rest
         end)%list items
  | VObj props =>
      (fix all (l : list (string * Value)) : list string :=
         match l with
         | [] => []
         | (_, x) :: rest => value_refs x ++ all rest
         end)%list props
  end.

(** Property [a] of the document refers to [b]. *)
Definition references (d : Dict Value) (a b : string) : Prop :=
  exists v, dict_get d a = Some v /\ In b (value_refs v).

(** A chain of [n] references from [a] to [b]. *)
Inductive chain (d : Dict Value) : string -> nat -> string -> Prop :=
| chain_nil : forall a, chain d a 0 a
| chain_cons : forall a b c n,
    references d a b -> chain d b n c -> chain d a (S n) c.


(** ** Documents of plain strings *)

Fixpoint has_char (x : ascii) (s : string) : bool :=
  match s with
  | EmptyString => false
  | String c s' => Ascii.eqb c x || has_char x s'
  end.

Definition lit_clean (seg : Segment) : bool :=
  match seg with
  | Lit text => negb (has_char "$" text)
  | Tok _ _ _ => true
  end.

(** Every dollar of the string that is not inside a token opens one: no
    lone [$], no [${}], no [${] left open. *)
Definition clean (s : string) : bool :=
  forallb lit_clean (scan Outside s).

(** Where the scan stands after [s], and what it has put out by then. *)
Fixpoint scan_state (st : ScanState) (s : string) : ScanState :=
  match s with
  | EmptyString => st
  | String c s' => scan_state (snd (scan_step st c)) s'
  end.

Fixpoint scan_emit (st : ScanState) (s : string) : list Segment :=
  match s with
  | EmptyString => []
  | String c s' =>
      (fst (scan_step st c) ++ scan_emit (snd (scan_step st c)) s')%list
  end.

(** A piece that scans as itself wherever its text stands after a piece:
    so do the single characters other than a dollar and the tokens. *)
Definition rescans (seg : Segment) : Prop :=
  forall rest,
    scan Outside (segment_text seg ++ rest) = seg :: scan Outside rest.

(** The characters kept after [${] hold no closing brace. *)
Definition body_ok (st : ScanState) : Prop :=
  match st with
  | Body acc => has_char "}" acc = false
  | _ => True
  end.

(** Every property is a string, and a clean one. *)
Definition plain_document (d : Dict Value) : bool :=
  forallb (fun kv => match snd kv with
                     | VStr s => clean s
                     | _ => false
                     end) d.

Definition defined (d : Dict Value) (key : string) : bool :=
  match dict_get d key with
  | Some _ => true
  | None => false
  end.

(** Every name referred to is a property of the document. *)
Definition closed_document (d : Dict Value) : bool :=
  forallb (fun kv => forallb (defined d) (value_refs (snd kv))) d.

(** The text of the property [key]. *)
Definition text_at (d : Dict Value) (key : string) : string :=
  match dict_get d key with
  | Some v => toString v
  | None => ""
  end.

(** What the loop's callback puts in the place of a piece. *)
Definition expand_segment (d : Dict Value) (seg : Segment) : string :=
  match dbgconfig_key seg with
  | Some key => text_at d key
  | None => segment_text seg
  end.

Definition expand_text (d : Dict Value) (segs : list Segment) : string :=
  fold_right (fun seg r => expand_segment d seg ++ r) "" segs.

(** The text the loop makes of the string [s], and the document after
    the assignment [dbgconfig[P] = ...] of that text. *)
Definition expanded_string (d : Dict Value) (s : string) : string :=
  expand_text d (scan Outside s).

Definition assign_expanded (d : Dict Value) (P s : string) : Dict Value :=
  dict_set d P (VStr (expanded_string d s)).

(** The pieces of the text the loop's callback returns for a string. *)
Definition expand_scan (d : Dict Value) (segs : list Segment)
  : list Segment :=
  flat_map (fun seg => match dbgconfig_key seg with
                       | Some key => scan Outside (text_at d key)
                       | None => [seg]
                       end) segs.

(** What the theorem about cycles asks of a document: every property is a
    clean string, and every name a property refers to is a property. *)
Definition plain (d : Dict Value) : Prop :=
  forall key v,
    dict_get d key = Some v ->
    exists s, v = VStr s /\ clean s = true /\
              forall r, In r (refs s) -> defined d r = true.



(** Two more cycles between [a] and [b]: one beside a [${] left open, one
    beside a name that is not defined. *)
Definition open_brace_document : Dict Value :=
  [("a", VStr "${dbgconfig:c}${dbgconfig:b}"); ("b", VStr "${dbgconfig:a}");
   ("c", VStr "${x")].

Definition undefined_name_document : Dict Value :=
  [("a", VStr "${dbgconfig:zz}${dbgconfig:b}"); ("b", VStr "${dbgconfig:a}")].

End Expand.

(* ================================================================== *)
(** * More of [expandVariables] and [expandVariablesInObject]
      (src/extension/util.ts) *)
(* ================================================================== *)

Module ExpandMore.
Import JS Expand.

(** An expander that returns [null] for every match. *)
Definition decline : Expander :=
  fun _ _ converged => Ok None converged.

(** Two values of the same kind: strings whatever their text, equal
    scalars, arrays of equal length and objects with the same property
    names in the same order, element by element. *)
Fixpoint same_shape (v w : Value) {struct v} : bool :=
  match v, w with
  | VStr _, VStr _ => true
  | VNull, VNull | VUndefined, VUndefined => true
  | VBool a, VBool b => Bool.eqb a b
  | VNum a, VNum b => String.eqb a b
  | VArr items, VArr items' =>
      (fix all (l l' : list Value) : bool :=
         match l, l' with
         | [], [] => true
         | x :: rest, y :: rest' => same_shape x y && all rest rest'
         | _, _ => false
         end) items items'
  | VObj props, VObj props' =>
      (fix all (l l' : list (string * Value)) : bool :=
         match l, l' with
         | [], [] => true
         | (k, x) :: rest, (k', y) :: rest' =>
             String.eqb k k' && same_shape x y && all rest rest'
         | _, _ => false
         end) props props'
  | _, _ => false
  end.

(** ** Documents without a reference cycle *)

(** Every reference goes from a property to one of lower rank. *)
Definition ranked (rank : string -> nat) (d : Dict Value) : bool :=
  forallb (fun kv =>
             forallb (fun b => (rank b <? rank (fst kv))%nat)
                     (value_refs (snd kv))) d.

Definition max_rank (rank : string -> nat) (d : Dict Value) : nat :=
  fold_right (fun kv m => Nat.max (rank (fst kv)) m) 0%nat d.

(** No chain of references is longer than [M]. *)
Definition bounded (d : Dict Value) (M : nat) : Prop :=
  forall a n b, chain d a n b -> (n <= M)%nat.

(** ** The last expansion *)

(** [dbgconfig[key]] is there, and neither [null] nor [undefined]. *)
Definition usable (d : Dict Value) (key : string) : bool :=
  match dict_get d key with
  | None | Some VNull | Some VUndefined => false
  | Some _ => true
  end.

(** The first name referred to that [dbgconfig] has no value for. *)
Definition first_unusable (d : Dict Value) (v : Value) : option string :=
  find (fun key => negb (usable d key)) (value_refs v).

(** No string of the document refers to a property. *)
Definition reference_free (d : Dict Value) : bool :=
  forallb (fun kv => match value_refs (snd kv) with
                     | [] => true
                     | _ => false
                     end) d.

(** ** Launch configurations of clean strings *)

(** Every string of the value is clean. *)
Fixpoint clean_value (v : Value) : bool :=
  match v with
  | VStr s => clean s
  | VNull | VUndefined | VBool _ | VNum _ => true
  | VArr items =>
      (fix all (l : list Value) : bool :=
         match l with
         | [] => true
         | x :: rest => clean_value x && all rest
         end) items
  | VObj props =>
      (fix all (l : list (string * Value)) : bool :=
         match l with
         | [] => true
         | (_, x) :: rest => clean_value x && all rest
         end) props
  end.

(** Every name the value refers to is a property of the document. *)
Definition all_defined (d : Dict Value) (v : Value) : bool :=
  forallb (defined d) (value_refs v).

End ExpandMore.

(* ================================================================== *)
(** * Objects and strings of the other functions *)
(* ================================================================== *)

Module Props.
Import JS.

Fixpoint all_digits (s : string) : bool :=
  match s with
  | EmptyString => true
  | String c s' => is_digit c && all_digits s'
  end.

(** The array index a property name stands for: a decimal numeral without
    leading zero, below [2 ^ 32 - 1]. *)
Definition array_index (key : string) : option Z :=
  match key with
  | EmptyString => None
  | String c rest =>
      if all_digits key
         && (negb (Ascii.eqb c "0") || String.eqb rest "")
         && (digits_value 10 0 key <? 2 ^ 32 - 1)
      then Some (digits_value 10 0 key)
      else None
  end.

(** A new property named by the array index [i] goes before the first
    property that is no array index or a greater one. *)
Fixpoint insert_index {A} (d : Dict A) (key : string) (i : Z) (v : A)
  : Dict A :=
  match d with
  | [] => [(key, v)]
  | (k, w) :: rest =>
      match array_index k with
      | Some j =>
          if i <? j then (key, v) :: (k, w) :: rest
          else (k, w) :: insert_index rest key i v
      | None => (key, v) :: (k, w) :: rest
      end
  end.

(** [obj[key] = v] on an ordinary object, with the order [Object.keys] and
    [for ... in] then list the properties in: array indices first, in
    ascending order, then the other names in the order they were added. *)
Definition prop_set {A} (d : Dict A) (key : string) (v : A) : Dict A :=
  match dict_get d key with
  | Some _ => dict_set d key v
  | None =>
      match array_index key with
      | Some i => insert_index d key i v
      | None => (d ++ [(key, v)])%list
      end
  end.

(** [Object.assign(target, source)] for a source that is an object. *)
Definition assign_props {A} (target source : Dict A) : Dict A :=
  fold_left (fun t kv => prop_set t (fst kv) (snd kv)) source target.

End Props.

Module Text.

Fixpoint starts_with (s prefix : string) : bool :=
  match prefix, s with
  | EmptyString, _ => true
  | String a p', String b s' => Ascii.eqb a b && starts_with s' p'
  | String _ _, EmptyString => false
  end.

(** [s.includes(sub)], and [s.indexOf(sub) >= 0]. *)
Fixpoint includes (s sub : string) : bool :=
  starts_with s sub ||
  match s with
  | String _ s' => includes s' sub
  | EmptyString => false
  end.

(** [p.repeat(n)]. *)
Fixpoint repeat (p : string) (n : nat) : string :=
  match n with
  | O => EmptyString
  | S n' => p ++ repeat p n'
  end.

End Text.

(* ================================================================== *)
(** * [spawnDebugger] (src/extension/util.ts) *)
(* ================================================================== *)

Module Spawn.
Import JS Expand Props Text.

Definition unknown_type_message (type : option string) : string :=
  "Unknown variable type " ++
  match type with
  | Some t => t
  | None => "undefined"
  end.

(** The callback of [spawnDebugger]: [process.env[key]] for the type
    [env], an exception for any other.  [process.env[key]] is read among
    the variables that are set; for a [key] that is not set and names a
    member of [Object.prototype] ([prototype_name]) the code finds that
    member instead, which this reading does not show. *)
Definition env_expander (process_env : Dict string) : Expander :=
  fun type key converged =>
    match type with
    | Some t =>
        if String.eqb t "env" then Ok (dict_get process_env key) converged
        else Throw (unknown_type_message type)
    | None => Throw (unknown_type_message type)
    end.

(** The [for ... in] loop over [adapterEnv]. *)
Fixpoint expand_env (process_env : Dict string)
  (adapterEnv : list (string * string)) (env : Dict string)
  : Result (Dict string) :=
  match adapterEnv with
  | [] => Ok env true
  | (key, value) :: rest =>
      match expandVariables value (env_expander process_env) true with
      | Throw e => Throw e
      | Ok r _ => expand_env process_env rest (prop_set env key r)
      end
  end.

(** The call of [cp.spawn] the function ends with, or the exception it
    throws before. *)
Inductive Spawned :=
| Spawn (adapterPath : string) (args : list string) (env : Dict string)
        (cwd : option string)
| SpawnThrew (message : string).

(** ['/usr/bin:' + process.env['PATH']]. *)
Definition darwin_path (process_env : Dict string) : string :=
  "/usr/bin:" ++
  match dict_get process_env "PATH" with
  | Some p => p
  | None => "undefined"
  end.

(** [spawnDebugger(args, adapterPath, adapterEnv)], given
    [process.platform], [process.env] and [workspace.rootPath]. *)
Definition spawnDebugger (platform : string) (process_env : Dict string)
  (rootPath : option string) (args : list string) (adapterPath : string)
  (adapterEnv : Dict string) : Spawned :=
  match expand_env process_env adapterEnv (assign_props [] process_env) with
  | Throw e => SpawnThrew e
  | Ok env _ =>
      let env' := if includes platform "darwin"
                  then prop_set env "PATH" (darwin_path process_env)
                  else env in
      Spawn adapterPath args env' rootPath
  end.

(** [process.env[key]] is [undefined]: the variable is not set, and the
    name is not one [process.env] inherits a member for. *)
Definition env_undefined (process_env : Dict string) (key : string) : bool :=
  match dict_get process_env key with
  | Some _ => false
  | None => negb (prototype_name key)
  end.

(** Every token of the string is a [${env:NAME}] for which
    [process.env[NAME]] is [undefined]. *)
Definition only_unset_variables (process_env : Dict string) (s : string)
  : bool :=
  forallb (fun seg =>
             match seg with
             | Lit _ => true
             | Tok _ (Some t) key =>
                 String.eqb t "env" && env_undefined process_env key
             | Tok _ None _ => false
             end) (scan Outside s).

(** The type of a token that is not [env]. *)
Definition foreign_type (seg : Segment) : option (option string) :=
  match seg with
  | Lit _ => None
  | Tok _ (Some t) _ => if String.eqb t "env" then None else Some (Some t)
  | Tok _ None _ => Some None
  end.

(** The type of the first token of the string that is not [env]. *)
Fixpoint first_foreign (segs : list Segment) : option (option string) :=
  match segs with
  | [] => None
  | seg :: rest =>
      match foreign_type seg with
      | Some t => Some t
      | None => first_foreign rest
      end
  end.


End Spawn.

(* ================================================================== *)
(** * [findMarker], [leftPad], [log] and [withTimeout]
      (src/tests/adapter.test.ts) *)
(* ================================================================== *)

Module Helpers.
Import JS Text.

Definition newline : ascii := "010".

(** [data.split('\n')]. *)
Fixpoint split_lines (data : string) : list string :=
  match data with
  | EmptyString => [EmptyString]
  | String c rest =>
      if Ascii.eqb c newline then EmptyString :: split_lines rest
      else match split_lines rest with
           | line :: lines => String c line :: lines
           | [] => [String c EmptyString]
           end
  end.

(** The string holds a newline. *)
Definition has_newline (s : string) : bool := Expand.has_char newline s.

(** [s.indexOf(sub)]. *)
Fixpoint index_of (s sub : string) : Z :=
  if starts_with s sub then 0
  else match s with
       | String _ s' =>
           let pos := index_of s' sub in
           if pos <? 0 then -1 else pos + 1
       | EmptyString => -1
       end.

Inductive Found :=
| Line (number : Z)
| MarkerNotFound.

(** The [for] loop of [findMarker], from index [i] on. *)
Fixpoint search (lines : list string) (marker : string) (i : Z) : Found :=
  match lines with
  | [] => MarkerNotFound
  | line :: rest =>
      let pos := index_of line marker in
      if 0 <=? pos then Line (i + 1) else search rest marker (i + 1)
  end.

(** [findMarker(file, marker)], given the text [data] of the file. *)
Definition findMarker (data marker : string) : Found :=
  search (split_lines data) marker 0.

(** [leftPad(s, p, n)], for an integer [n]. *)
Definition leftPad (s p : string) (n : Z) : string :=
  if Z.of_nat (String.length s) <? n
  then repeat p (Z.to_nat (n - Z.of_nat (String.length s))) ++ s
  else s.

(** The line [log(message)] writes at the time [hours:minutes:seconds]. *)
Definition log_line (hours minutes seconds : Z) (message : string)
  : string :=
  let hh := leftPad (string_of_Z hours) "0" 2 in
  let mm := leftPad (string_of_Z minutes) "0" 2 in
  let ss := leftPad (string_of_Z seconds) "0" 2 in
  "[" ++ hh ++ ":" ++ mm ++ ":" ++ ss ++ "] " ++ message.

(** ** [withTimeout] *)

Section WithTimeout.

Variable T : Type.

(** Whether the timer is still scheduled, whether the callback given to
    [promise.then] can still run, the promise returned, and the messages
    passed to [log]. *)
Record State := mkState {
  timer : bool;
  inner_pending : bool;
  promise : Promise T;
  logged : list string
}.

Definition init : State :=
  {| timer := true; inner_pending := true; promise := Pending;
     logged := [] |}.

Definition timed_out : Error :=
  {| message := "Timed out"; code := Some "Timeout"; stdout := None |}.

(** The [setTimeout] callback. *)
Definition on_timeout (st : State) : State :=
  {| timer := false; inner_pending := inner_pending st;
     promise := reject (promise st) timed_out;
     logged := (logged st ++ ["withTimeout: timed out"])%list |}.

(** The callback given to [promise.then]. *)
Definition on_fulfilled (result : T) (st : State) : State :=
  {| timer := false; inner_pending := false;
     promise := resolve (promise st) result;
     logged := logged st |}.

Inductive Event :=
| Fulfilled (result : T)
| InnerRejected (reason : Error)
| TimerDue.

(** The inner promise settles once; no callback is registered for its
    rejection.  The timer callback runs while the timer is scheduled. *)
Definition step (st : State) (e : Event) : State :=
  match e with
  | Fulfilled result =>
      if inner_pending st then on_fulfilled result st else st
  | InnerRejected _ =>
      {| timer := timer st; inner_pending := false;
         promise := promise st; logged := logged st |}
  | TimerDue => if timer st then on_timeout st else st
  end.

Definition run (es : list Event) (st : State) : State :=
  fold_left step es st.

(** What holds of every state the callbacks can reach. *)
Definition timeout_inv (st : State) : Prop :=
  (timer st = true <-> promise st = Pending) /\
  (forall r, promise st = Rejected r -> r = timed_out) /\
  logged st = match promise st with
              | Rejected _ => ["withTimeout: timed out"]
              | _ => []
              end.

End WithTimeout.

Arguments timer {T} _.
Arguments inner_pending {T} _.
Arguments promise {T} _.
Arguments logged {T} _.
Arguments init {T}.
Arguments Fulfilled {T} result.
Arguments InnerRejected {T} reason.
Arguments TimerDue {T}.
Arguments step {T} st e.
Arguments run {T} es st.
Arguments timeout_inv {T} st.

End Helpers.

(* ================================================================== *)
(** * [readVariables], [assertDictContains] and [launchAndWaitForStop]
      (src/tests/adapter.test.ts) *)
(* ================================================================== *)

Module DictContains.
Import JS CompareVariables.

(** [readVariables(variablesReference)], given the adapter's answer to
    the 'variables' request: the dictionary from names to values, [None]
    when the request is rejected. *)
Definition readVariables (variablesRequest : Z -> option (list VariableNode))
  (variablesReference : Z) : option (Dict string) :=
  match variablesRequest variablesReference with
  | None => None
  | Some variables =>
      Some (fold_left (fun vars v => dict_set vars (name v) (value v))
                      variables [])
  end.

(** [dict[key] == expected[key]] as [assert.equal] tests it; a key [dict]
    does not have reads as [undefined], which is equal to [null] only. *)
Definition loose_eq (actual : option string) (expected : Expected) : bool :=
  match actual with
  | Some a => loose_eq_string a expected
  | None =>
      match expected with
      | ENull => true
      | _ => false
      end
  end.

Inductive Containment :=
| Contained
| Differs (key : string).

(** [assertDictContains(dict, expected)]: the key of the assertion that
    fails, if one does. *)
Fixpoint assertDictContains (dict : Dict string)
  (expected : list (string * Expected)) : Containment :=
  match expected with
  | [] => Contained
  | (key, expectedValue) :: rest =>
      if loose_eq (dict_get dict key) expectedValue
      then assertDictContains dict rest
      else Differs key
  end.

(** An expectation [compareVariables] checks by value alone: a string
    under a key other than [$]. *)
Definition flat_strings (expected : list (string * Expected)) : bool :=
  forallb (fun kv => negb (String.eqb (fst kv) "$") &&
                     match snd kv with
                     | EStr _ => true
                     | _ => false
                     end) expected.

End DictContains.

Module LaunchAndWait.
Import JS.

(** What the session receives: a message for the protocol client, or a
    'stopped' event given to its listeners. *)
Inductive Incoming :=
| FromAdapter (m : Launch.Message)
| Stopped (event : StopEvent.StoppedEvent).

(** Where [launchAndWaitForStop] is suspended or has ended. *)
Inductive Pc :=
| AwaitLaunch
| AwaitStop
| Done (stoppedEvent : StopEvent.StoppedEvent)
| Failed.

(** The call of [launch] in progress, the listener of [waitForStopEvent]
    with the test log, and the function itself. *)
Record Session := mkSession {
  launching : Launch.Session;
  stop : StopEvent.State;
  pc : Pc
}.

(** [log(message)] on the test log. *)
Definition log (message : string) (st : StopEvent.State) : StopEvent.State :=
  {| StopEvent.listening := StopEvent.listening st;
     StopEvent.promise := StopEvent.promise st;
     StopEvent.log := (StopEvent.log st ++ [message])%list |}.

(** The promise [launch] returns follows [launchResp] once the function
    has returned it, and is rejected when [initializeRequest] fails:
    [Some true] is resolved, [Some false] rejected. *)
Definition launch_promise (s : Launch.Session) : option bool :=
  match Launch.pc s with
  | Launch.Returned => Launch.requestResp s
  | Launch.Threw => Some false
  | _ => None
  end.

(** The function up to its first [await]: the listener is added, then
    [launch] is called. *)
Definition start : Session :=
  {| launching := Launch.start;
     stop := log "launchAndWaitForStop: launching" StopEvent.init;
     pc := AwaitLaunch |}.

(** The function goes on as far as the promises it awaits allow. *)
Definition resume (s : Session) : Session :=
  match pc s with
  | AwaitLaunch =>
      match launch_promise (launching s) with
      | Some true =>
          let stop' := log "launchAndWaitForStop: waiting to stop" (stop s) in
          {| launching := launching s; stop := stop';
             pc := match StopEvent.promise stop' with
                   | Resolved event => Done event
                   | _ => AwaitStop
                   end |}
      | Some false =>
          {| launching := launching s; stop := stop s; pc := Failed |}
      | None => s
      end
  | AwaitStop =>
      match StopEvent.promise (stop s) with
      | Resolved event =>
          {| launching := launching s; stop := stop s; pc := Done event |}
      | _ => s
      end
  | _ => s
  end.

Definition step (s : Session) (i : Incoming) : Session :=
  match i with
  | FromAdapter m =>
      resume {| launching := Launch.dispatch Launch.Launch (launching s) m;
                stop := stop s; pc := pc s |}
  | Stopped event =>
      resume {| launching := launching s;
                stop := StopEvent.emit (stop s) event; pc := pc s |}
  end.

Definition run (inputs : list Incoming) (s : Session) : Session :=
  fold_left step inputs s.

(** The two kinds of input, each in the order received. *)
Fixpoint adapter_messages (inputs : list Incoming) : list Launch.Message :=
  match inputs with
  | [] => []
  | FromAdapter m :: rest => m :: adapter_messages rest
  | Stopped _ :: rest => adapter_messages rest
  end.

Fixpoint stopped_events (inputs : list Incoming)
  : list StopEvent.StoppedEvent :=
  match inputs with
  | [] => []
  | FromAdapter _ :: rest => stopped_events rest
  | Stopped event :: rest => event :: stopped_events rest
  end.

(** Where the function stands, given what [launch] and the listener have
    come to. *)
Definition standing (launched : option bool)
  (stopped : Promise StopEvent.StoppedEvent) : Pc :=
  match launched with
  | Some true =>
      match stopped with
      | Resolved event => Done event
      | _ => AwaitStop
      end
  | Some false => Failed
  | None => AwaitLaunch
  end.

(** The function stands where the two promises say. *)
Definition in_step (s : Session) : Prop :=
  pc s = standing (launch_promise (launching s))
                  (StopEvent.promise (stop s)).

End LaunchAndWait.

(* ================================================================== *)
(** * [download], [installVsix] and [extractZip]
      (src/extension/install.ts) *)
(* ================================================================== *)

Module Install.
Import JS Text.

Definition MaxRedirects : nat := 10.

(** What the code reads of a response. *)
Record IncomingMessage := mkResponse {
  statusCode : Z;
  location : option string;
  content_type : option string
}.

(** [statusCode >= 300 && statusCode < 400 && headers.location]. *)
Definition is_redirect (response : IncomingMessage) : bool :=
  (300 <=? statusCode response) && (statusCode response <? 400)
  && truthy_string (location response).

Definition location_of (response : IncomingMessage) : string :=
  match location response with
  | Some l => l
  | None => "undefined"
  end.

(** How the [for] loop ends: with the last response received ([None] if
    there was no request at all), or waiting for a response that does not
    come. *)
Inductive Fetched :=
| Answered (response : option IncomingMessage)
| NoAnswer.

(** The [for] loop with [n] iterations to go: the URLs requested, in
    order, and how the loop ends.  [answers] are the responses of the
    server to the successive requests. *)
Fixpoint follow (n : nat) (srcUrl : string) (answers : list IncomingMessage)
  (response : option IncomingMessage) : list string * Fetched :=
  match n with
  | O => ([], Answered response)
  | S n' =>
      match answers with
      | [] => ([srcUrl], NoAnswer)
      | r :: rest =>
          if is_redirect r then
            let (urls, fetched) := follow n' (location_of r) rest (Some r) in
            (srcUrl :: urls, fetched)
          else ([srcUrl], Answered (Some r))
      end
  end.

(** What [download] does once the loop is over: it rejects the promise,
    or pipes the response into the file; when no response comes, or there
    is none to read the headers of, the promise is never settled.  The
    transfer that follows the piping (the progress reports and the end of
    the stream) is left out. *)
Inductive Download :=
| Hangs
| Rejects (message : string)
| Pipes (response : IncomingMessage).

Definition judge (response : IncomingMessage) : Download :=
  match content_type response with
  | Some t =>
      if String.eqb t "application/octet-stream" then Pipes response
      else Rejects "HTTP response does not contain an octet stream"
  | None => Rejects "HTTP response does not contain an octet stream"
  end.

Definition download (srcUrl : string) (answers : list IncomingMessage)
  : list string * Download :=
  let (urls, fetched) := follow MaxRedirects srcUrl answers None in
  (urls,
   match fetched with
   | Answered (Some response) => judge response
   | Answered None => Hangs
   | NoAnswer => Hangs
   end).

(** ** The callback of [installVsix] *)

(** [s.substr(start)]. *)
Fixpoint substr (s : string) (start : nat) : string :=
  match start, s with
  | O, _ => s
  | S n, String _ s' => substr s' n
  | S _, EmptyString => EmptyString
  end.

(** The callback given to [extractZip]; [join] is [path.join]. *)
Definition vsix_destination (join : string -> string -> string)
  (destDir fileName : string) : option string :=
  if starts_with fileName "extension/"
  then Some (join destDir (substr fileName 10))
  else None.

(** ** The mode given to [fs.chmod] in [extractZip] *)

(** The 32-bit signed integer a bitwise operator reads its operand as. *)
Definition to_int32 (x : Z) : Z :=
  let m := x mod 2 ^ 32 in
  if m <? 2 ^ 31 then m else m - 2 ^ 32.

(** [x >> k]. *)
Definition shift_right (x k : Z) : Z :=
  Z.shiftr (to_int32 x) (k mod 32).

(** [x & y]. *)
Definition bit_and (x y : Z) : Z :=
  Z.land (to_int32 x) (to_int32 y).

(** [(entry.externalFileAttributes >> 16) & 0o7777]. *)
Definition attrs (externalFileAttributes : Z) : Z :=
  bit_and (shift_right externalFileAttributes 16) 4095.

End Install.

(* ================================================================== *)
(** * [mergeValues], [isScalarValue] and [isEmpty]
      (src/extension/util.ts) *)
(* ================================================================== *)

Module Merge.
Import JS Expand Props.

Definition isScalarValue (value : Value) : bool :=
  match value with
  | VNull | VUndefined | VBool _ | VNum _ | VStr _ => true
  | VArr _ | VObj _ => false
  end.

(** A boolean has no keys. *)
Definition isEmpty (obj : Value) : bool :=
  match obj with
  | VNull | VUndefined => true
  | VNum _ => false
  | VStr s => (String.length s =? 0)%nat
  | VArr items => (List.length items =? 0)%nat
  | VObj props => (List.length (keys props) =? 0)%nat
  | VBool _ => true
  end.

(** The elements of an array or the characters of a string under their
    indices, from [i] on. *)
Fixpoint indexed {A} (i : Z) (l : list A) : Dict A :=
  match l with
  | [] => []
  | x :: rest => (string_of_Z i, x) :: indexed (i + 1) rest
  end.

(** The own enumerable properties [Object.assign] copies from a source. *)
Definition own_props (source : Value) : Dict Value :=
  match source with
  | VObj props => props
  | VArr items => indexed 0 items
  | VStr s =>
      indexed 0 (map (fun c => VStr (String c EmptyString))
                     (list_ascii_of_string s))
  | VNull | VUndefined | VBool _ | VNum _ => []
  end.

Definition mergeValues (value1 value2 : Value) : Value :=
  match value2 with
  | VUndefined => value1
  | _ =>
      if isScalarValue value1 then value2
      else
        match value1, value2 with
        | VArr a, VArr b => VArr (a ++ b)
        | _, _ =>
            VObj (assign_props (assign_props [] (own_props value1))
                               (own_props value2))
        end
  end.

Definition is_array (value : Value) : bool :=
  match value with
  | VArr _ => true
  | _ => false
  end.

End Merge.

(* ================================================================== *)
(** * The port [startDebugAdapter] returns (src/extension/util.ts) *)
(* ================================================================== *)

Module StartAdapter.
Import JS WaitForPattern.

(** The longest run of digits of the radix at the head of [s]. *)
Fixpoint span_radix (radix : Z) (s : string) : string * string :=
  match s with
  | String c s' =>
      if digit_value c <? radix
      then let (ds, r) := span_radix radix s' in (String c ds, r)
      else (EmptyString, s)
  | EmptyString => (EmptyString, EmptyString)
  end.

(** [parseInt(s)]: white space and a sign are skipped, [0x] announces
    hexadecimal digits, and what follows the digits is ignored. *)
Definition parseInt (s : string) : Number :=
  let (negative, r) := sign_of (trim_start s) in
  let (radix, body) :=
    match r with
    | String "0" (String c r') =>
        if (Ascii.eqb c "x" || Ascii.eqb c "X")%bool then (16, r')
        else (10, r)
    | _ => (10, r)
    end in
  match span_radix radix body with
  | (EmptyString, _) => NaN
  | (ds, _) => binary64 negative (digits_value radix 0 ds) 1
  end.

(** [parseInt(match[1])]. *)
Definition port_of (m : list string) : Number :=
  match nth_error m 1 with
  | Some group => parseInt group
  | None => NaN
  end.

(** The promise [startDebugAdapter] returns once the adapter is spawned,
    by the port of the [AdapterProcess] it resolves with: the function
    awaits [waitForPattern] on the adapter's output, whose rejection is
    its own. *)
Definition startDebugAdapter (es : list Event) : Promise Number :=
  match promise (run (list string) Handshake.exec es init) with
  | Resolved m => Resolved (port_of m)
  | Rejected err => Rejected err
  | Pending => Pending
  end.

(** The chunks read from the adapter's output among the events. *)
Fixpoint data_chunks (es : list Event) : list string :=
  match es with
  | [] => []
  | Data chunkStr :: rest => chunkStr :: data_chunks rest
  | _ :: rest => data_chunks rest
  end.

(** What follows [pre] starts a line. *)
Definition line_start (pre : string) : Prop :=
  pre = "" \/
  exists p c, pre = p ++ String c "" /\ is_line_terminator c = true.

End StartAdapter.

(* ================================================================== *)
(** * [ensureDirectory] (src/extension/install.ts) *)
(* ================================================================== *)

Module Directories.
Import JS.

Section WithFileSystem.

(** [path.dirname], and the error of [fs.mkdir] on a directory, if it
    fails there; a [mkdir] that succeeds makes the directory exist. *)
Variable dirname : string -> string.
Variable mkdir_error : string -> option Error.

(** [fs.exists(dir)] when the directories [fs] exist. *)
Definition exists_dir (fs : list string) (dir : string) : bool :=
  existsb (String.eqb dir) fs.

(** How a call ends: it returns, it is rejected with the error of
    [mkdir], or it has not ended within the calls allowed.  [made] lists
    the directories created, in order. *)
Inductive Ensured :=
| Returns (fs made : list string)
| Rejects (err : Error) (fs made : list string)
| StillRunning.

(** [ensureDirectory(dir)], nested at most [depth] calls deep. *)
Fixpoint ensureDirectory (depth : nat) (fs made : list string)
  (dir : string) : Ensured :=
  match depth with
  | O => StillRunning
  | S depth' =>
      if exists_dir fs dir then Returns fs made
      else
        match ensureDirectory depth' fs made (dirname dir) with
        | Returns fs' made' =>
            match mkdir_error dir with
            | Some err => Rejects err fs' made'
            | None => Returns (dir :: fs') (made' ++ [dir])
            end
        | other => other
        end
  end.

(** The directory [n] levels above [dir]. *)
Fixpoint ancestor (n : nat) (dir : string) : string :=
  match n with
  | O => dir
  | S n' => dirname (ancestor n' dir)
  end.

(** [dir] and the [n - 1] directories above it, the highest first. *)
Fixpoint chain_down (n : nat) (dir : string) : list string :=
  match n with
  | O => []
  | S n' => (chain_down n' (dirname dir) ++ [dir])%list
  end.

End WithFileSystem.

(** A [dirname] for the examples, on three paths: the root is above
    itself. *)
Definition parent (dir : string) : string :=
  match dir with
  | "/a/b" => "/a"
  | "/a" => "/"
  | _ => dir
  end.

End Directories.

(* ================================================================== *)
(** * [readRegistry] (src/extension/util.ts) *)
(* ================================================================== *)

Module Registry.
Import JS.

(** The arguments given to [reg.exe]; [value] is [None] for [null] or
    [undefined]. *)
Definition reg_args (path : string) (value : option string) : list string :=
  (["query"; path] ++
   match value with
   | Some v => ["/v"; v]
   | None => ["/ve"]
   end)%list.

(** What a greedy run of [.] matches at the head of [s]: the characters
    before the first line terminator. *)
Fixpoint take_line (s : string) : string :=
  match s with
  | String c r =>
      if is_line_terminator c then EmptyString else String c (take_line r)
  | EmptyString => EmptyString
  end.

(** A match at the head of [s] of the pattern of [readRegistry], which
    is [REG_SZ], then [\s+], then a group holding a greedy run of [.]:
    the value is the group.  [\s+] takes all the white space there is,
    the group the rest of the line. *)
Definition match_here (s : string) : option string :=
  match strip_prefix "REG_SZ" s with
  | Some (String c r) =>
      if is_space c then Some (take_line (trim_start r)) else None
  | _ => None
  end.

(** The pattern matches at the head of [s]. *)
Definition matches_here (s : string) : bool :=
  match match_here s with
  | Some _ => true
  | None => false
  end.

(** [m[1]] for the result [m] of [exec] on [s]: the leftmost match. *)
Fixpoint exec (s : string) : option string :=
  match match_here s with
  | Some group => Some group
  | None =>
      match s with
      | String _ r => exec r
      | EmptyString => None
      end
  end.

(** The variable [stdout] and the promise. *)
Record State := mkState {
  stdout : string;
  promise : Promise string
}.

Definition init : State := {| stdout := ""; promise := Pending |}.

Inductive Event :=
| SpawnError (err : Error)
| Data (chunkStr : string)
| Exit (code : option Z).

Definition failed (message : string) : Error :=
  {| message := message; code := None; JS.stdout := None |}.

(** [`Registry read failed: ${code}`]. *)
Definition exit_message (code : option Z) : string :=
  "Registry read failed: " ++
  match code with
  | Some c => string_of_Z c
  | None => "null"
  end.

(** The ['exit'] listener; [code] is [None] for [null], which is not
    [== 0]. *)
Definition on_exit (code : option Z) (st : State) : State :=
  let zero := match code with
              | Some c => c =? 0
              | None => false
              end in
  if negb zero then
    {| stdout := stdout st;
       promise := reject (promise st) (failed (exit_message code)) |}
  else
    match exec (stdout st) with
    | Some group =>
        {| stdout := stdout st; promise := resolve (promise st) group |}
    | None =>
        {| stdout := stdout st;
           promise := reject (promise st) (failed "Registry read failed") |}
    end.

Definition step (st : State) (e : Event) : State :=
  match e with
  | SpawnError err =>
      {| stdout := stdout st; promise := reject (promise st) err |}
  | Data chunkStr =>
      {| stdout := stdout st ++ chunkStr; promise := promise st |}
  | Exit code => on_exit code st
  end.

Definition run (es : list Event) (st : State) : State :=
  fold_left step es st.

(** Every character is white space. *)
Fixpoint all_space (s : string) : bool :=
  match s with
  | String c r => is_space c && all_space r
  | EmptyString => true
  end.

(** No character ends a line. *)
Fixpoint one_line (s : string) : bool :=
  match s with
  | String c r => negb (is_line_terminator c) && one_line r
  | EmptyString => true
  end.

(** The string is empty or starts with a line terminator. *)
Definition line_ends (s : string) : bool :=
  match s with
  | String c _ => is_line_terminator c
  | EmptyString => true
  end.

(** The string starts with a character that is no white space. *)
Definition starts_black (s : string) : bool :=
  match s with
  | String c _ => negb (is_space c)
  | EmptyString => false
  end.

End Registry.

(* ================================================================== *)
(** * [getProcessList] (src/extension/util.ts) *)
(* ================================================================== *)

Module ProcessList.
Import JS Helpers StartAdapter.

Definition quote : ascii := "034".

(** The command line given to [cp.exec]; [username] is
    [process.env['USERNAME']]. *)
Definition command (is_windows currentUserOnly : bool)
  (username : option string) : string :=
  if negb is_windows then
    if currentUserOnly then "ps x" else "ps ax"
  else
    if currentUserOnly then
      "tasklist /V /FO CSV /FI " ++ String quote "USERNAME eq " ++
      match username with
      | Some u => u
      | None => "undefined"
      end ++ String quote ""
    else "tasklist /V /FO CSV".

(** An entry of the list. *)
Record Item := mkItem {
  label : string;
  description : option string;
  pid : Number
}.

Section WithExpression.

(** [re.exec] for the expression of the platform, the indices [idx], and
    the conversion of a number to a string in a template. *)
Variable exec : string -> option (list string).
Variable idx : nat * nat * nat.
Variable number_to_string : Number -> string.

(** [groups[i]] inside a template or given to [parseInt]: a group that
    is not there reads 'undefined'. *)
Definition group_text (groups : list string) (i : nat) : string :=
  match nth_error groups i with
  | Some g => g
  | None => "undefined"
  end.

Definition item_of (groups : list string) : Item :=
  let '(i0, i1, i2) := idx in
  let pid := parseInt (group_text groups i0) in
  {| label := number_to_string pid ++ ": " ++ group_text groups i1;
     description := nth_error groups i2;
     pid := pid |}.

(** The [for] loop over the lines from index 1 on: an item for a line
    that matches is put in front of the others. *)
Fixpoint each_line (lines : list string) (items : list Item) : list Item :=
  match lines with
  | [] => items
  | line :: rest =>
      match exec line with
      | Some groups => each_line rest (item_of groups :: items)
      | None => each_line rest items
      end
  end.

(** [getProcessList], given what the command wrote. *)
Definition getProcessList (stdout : string) : list Item :=
  each_line (tl (split_lines stdout)) [].

(** The item of a line, if the line matches. *)
Definition item_of_line (line : string) : list Item :=
  match exec line with
  | Some groups => [item_of groups]
  | None => []
  end.

End WithExpression.

(** ** The expression for [tasklist] *)

(** The characters up to the next quote, and what follows that quote. *)
Fixpoint until_quote (s : string) : option (string * string) :=
  match s with
  | EmptyString => None
  | String c r =>
      if Ascii.eqb c quote then Some (EmptyString, r)
      else match until_quote r with
           | Some (field, rest) => Some (String c field, rest)
           | None => None
           end
  end.

(** A quoted field at the head of [s]. *)
Definition quoted (s : string) : option (string * string) :=
  match s with
  | String c r => if Ascii.eqb c quote then until_quote r else None
  | EmptyString => None
  end.

Definition comma (s : string) : option string :=
  match s with
  | String "," r => Some r
  | _ => None
  end.

(** [n] quoted fields, each followed by a comma. *)
Fixpoint skip_fields (n : nat) (s : string) : option string :=
  match n with
  | O => Some s
  | S n' =>
      match quoted s with
      | Some (_, r) =>
          match comma r with
          | Some r' => skip_fields n' r'
          | None => None
          end
      | None => None
      end
  end.

(** [exec] for the expression used on Windows: two quoted fields, six
    that are skipped, and a ninth, with commas between them, from the
    start of the line.  A quoted field ends at the first quote after the
    one that opens it. *)
Definition tasklist_exec (line : string) : option (list string) :=
  match quoted line with
  | Some (g1, r1) =>
      match comma r1 with
      | Some r2 =>
          match quoted r2 with
          | Some (g2, r3) =>
              match comma r3 with
              | Some r4 =>
                  match skip_fields 6 r4 with
                  | Some r5 =>
                      match quoted r5 with
                      | Some (g3, r6) =>
                          Some [String.substring 0
                                  (String.length line - String.length r6)
                                  line;
                                g1; g2; g3]
                      | None => None
                      end
                  | None => None
                  end
              | None => None
              end
          | None => None
          end
      | None => None
      end
  | None => None
  end.

Definition tasklist_idx : nat * nat * nat := (2%nat, 1%nat, 3%nat).

(** A field between quotes. *)
Definition in_quotes (field : string) : string :=
  String quote (field ++ String quote "").

(** A line of [tasklist /FO CSV]: the fields in quotes, with commas
    between them. *)
Fixpoint csv_line (fields : list string) : string :=
  match fields with
  | [] => ""
  | [field] => in_quotes field
  | field :: rest => in_quotes field ++ "," ++ csv_line rest
  end.

(** No field holds a quote. *)
Definition quote_free (fields : list string) : bool :=
  forallb (fun field => negb (Expand.has_char quote field)) fields.

End ProcessList.

(* ================================================================== *)
(** * Theorems *)
(* ================================================================== *)

Section StringFacts.

Lemma append_assoc (a b c : string) : (a ++ b) ++ c = a ++ (b ++ c).
Proof. induction a as [|x a IH]; simpl; [reflexivity | now rewrite IH]. Qed.

Lemma append_nil_r (a : string) : a ++ "" = a.
Proof. induction a as [|x a IH]; simpl; [reflexivity | now rewrite IH]. Qed.

End StringFacts.

Section AdapterProcessFacts.
Import Adapter.

Lemma terminate_isAlive (w : World) :
  isAlive (adapter (terminate w)) = isAlive (adapter w).
Proof. unfold terminate. destruct (isAlive (adapter w)) eqn:E; simpl; auto. Qed.

Lemma step_isAlive (w : World) (e : Event) :
  isAlive (adapter (step w e)) = isAlive (adapter w) && negb (is_exit e).
Proof.
  destruct e as [c s|]; simpl.
  - now rewrite andb_false_r.
  - now rewrite terminate_isAlive, andb_true_r.
Qed.

Lemma run_isAlive (es : list Event) (w : World) :
  isAlive (adapter (run es w)) =
  isAlive (adapter w) && negb (existsb is_exit es).
Proof.
  revert w. induction es as [|e es IH]; intros w; simpl.
  - now rewrite andb_true_r.
  - unfold run in IH. rewrite IH, step_isAlive, negb_orb.
    now rewrite andb_assoc.
Qed.

Lemma run_app (es es' : list Event) (w : World) :
  run (es ++ es') w = run es' (run es w).
Proof. unfold run. apply fold_left_app. Qed.

Lemma transitions_dead (es : list Event) (w : World) :
  isAlive (adapter w) = false -> transitions es w = 0%nat.
Proof.
  revert w. induction es as [|e es IH]; intros w Hw; simpl; auto.
  assert (Hs : isAlive (adapter (step w e)) = false)
    by (rewrite step_isAlive, Hw; reflexivity).
  rewrite Hs, Hw, IH; auto.
Qed.

Lemma transitions_alive (es : list Event) (w : World) :
  isAlive (adapter w) = true ->
  transitions es w = if existsb is_exit es then 1%nat else 0%nat.
Proof.
  revert w. induction es as [|e es IH]; intros w Hw; simpl; auto.
  pose proof (step_isAlive w e) as Hs. rewrite Hw in Hs. simpl in Hs.
  rewrite Hw, Hs. destruct (is_exit e); simpl.
  - rewrite transitions_dead; auto.
  - rewrite IH; auto.
Qed.

(** C8.  An [AdapterProcess] is alive when constructed; after any sequence
    of exit notifications and [terminate] calls it is alive exactly when
    no exit has been notified yet, whatever follows a first exit leaves it
    dead, and [isAlive] changes value once if the process exits and never
    otherwise.  [terminate] calls [process.kill()] once when [isAlive] is
    true and is the identity on the whole state when it is false. *)
Theorem adapter_process_lifecycle :
  forall (out : list string) (es es' : list Event)
         (code : option Z) (signal : option string),
    let w0 := constructor out in
    let w := run es w0 in
    let dead := run (es ++ Exit code signal :: es') w0 in
    isAlive (adapter w0) = true /\
    isAlive (adapter w) = negb (existsb is_exit es) /\
    isAlive (adapter (run (es ++ es') w0)) =
      isAlive (adapter w) && negb (existsb is_exit es') /\
    transitions es w0 = (if existsb is_exit es then 1%nat else 0%nat) /\
    isAlive (adapter (terminate w)) = isAlive (adapter w) /\
    kills_sent_by_terminate w =
      (if isAlive (adapter w) then 1%nat else 0%nat) /\
    isAlive (adapter dead) = false /\
    terminate dead = dead.
Proof.
  intros out es es' code signal w0 w dead. subst w dead.
  assert (Hdead : isAlive (adapter (run (es ++ Exit code signal :: es') w0))
                  = false).
  { rewrite run_isAlive, existsb_app. cbn. now rewrite orb_true_r. }
  repeat split.
  - apply run_isAlive.
  - rewrite run_app. apply run_isAlive.
  - apply transitions_alive. reflexivity.
  - apply terminate_isAlive.
  - unfold kills_sent_by_terminate, terminate.
    destruct (isAlive (adapter (run es w0)));
      cbn [adapter process_kills]; lia.
  - exact Hdead.
  - unfold terminate. now rewrite Hdead.
Qed.

End AdapterProcessFacts.

Section WaitForPatternFacts.
Import JS WaitForPattern.

Variable Match : Type.
Variable pattern : string -> option Match.

Abbreviation State := (State Match).
Abbreviation step := (step Match pattern).
Abbreviation run := (run Match pattern).

Lemma init_inv : reachable_inv Match init.
Proof. split; reflexivity. Qed.

Lemma step_inv (st : State) (e : Event) :
  reachable_inv Match st -> reachable_inv Match (step st e).
Proof.
  intros [Hp Ht]. destruct st as [pp po tm pr k]; simpl in *.
  destruct e as [c|err| |cd sg]; simpl.
  - unfold on_data; simpl. destruct pp; [|split; auto].
    destruct pr; simpl in Hp; try discriminate.
    destruct (pattern (append_output po c));
      split; simpl; auto; discriminate.
  - unfold on_error; simpl. destruct pr; split; simpl; auto; discriminate.
  - destruct tm; [|split; auto].
    unfold on_timeout; simpl. destruct pp; simpl.
    + destruct pr; simpl in Hp; try discriminate.
      split; simpl; auto; discriminate.
    + destruct pr; simpl in Hp; try discriminate;
        split; simpl; auto; discriminate.
  - unfold on_exit; simpl. destruct pp; [|split; auto].
    destruct pr; simpl in Hp; try discriminate.
    split; simpl; auto; discriminate.
Qed.

Lemma run_inv (es : list Event) (st : State) :
  reachable_inv Match st -> reachable_inv Match (run es st).
Proof.
  revert st. induction es as [|e es IH]; intros st H; simpl; auto.
  apply IH, step_inv, H.
Qed.

Lemma wfp_run_app (es es' : list Event) (st : State) :
  run (es ++ es') st = run es' (run es st).
Proof. unfold WaitForPattern.run. apply fold_left_app. Qed.

(** On a pending promise each event has its outcome. *)
Lemma step_pending (st : State) (e : Event) :
  reachable_inv Match st -> promise st = Pending ->
  promise (step st e) = outcome_of Match pattern st e.
Proof.
  intros [Hp Ht] Hpr. specialize (Ht Hpr).
  destruct st as [pp po tm pr k]; simpl in *. subst pr tm.
  simpl in Hp. subst pp.
  destruct e as [c|err| |cd sg]; simpl; auto.
  unfold on_data; simpl.
  destruct (pattern (append_output po c)); reflexivity.
Qed.

(** On a settled promise every handler leaves the variables as they
    are. *)
Lemma step_settled (st : State) (e : Event) :
  reachable_inv Match st -> settled (promise st) = true ->
  same_vars Match (step st e) st.
Proof.
  intros [Hp Ht] Hs. rewrite Hs in Hp. simpl in Hp.
  destruct st as [pp po tm pr k]; simpl in *. subst pp.
  destruct e as [c|err| |cd sg]; simpl; try (repeat split; reflexivity).
  - unfold on_error, same_vars; simpl.
    destruct pr; simpl in *; try discriminate; repeat split.
  - destruct tm; repeat split.
Qed.

Lemma run_settled (es : list Event) (st : State) :
  reachable_inv Match st -> settled (promise st) = true ->
  same_vars Match (run es st) st.
Proof.
  revert st. induction es as [|e es IH]; intros st Hi Hs; simpl.
  - repeat split.
  - pose proof (step_settled st e Hi Hs) as (A & B & C & D).
    assert (Hs' : settled (promise (step st e)) = true) by now rewrite C.
    destruct (IH (step st e) (step_inv st e Hi) Hs') as (A' & B' & C' & D').
    repeat split; congruence.
Qed.

Lemma settlements_settled (es : list Event) (st : State) :
  reachable_inv Match st -> settled (promise st) = true ->
  settlements Match pattern es st = 0%nat.
Proof.
  revert st. induction es as [|e es IH]; intros st Hi Hs; simpl; auto.
  rewrite Hs. simpl. apply IH; [apply step_inv, Hi|].
  destruct (step_settled st e Hi Hs) as (_ & _ & C & _). now rewrite C.
Qed.

Lemma settlements_count (es : list Event) (st : State) :
  reachable_inv Match st -> promise st = Pending ->
  settlements Match pattern es st =
  if settled (promise (run es st)) then 1%nat else 0%nat.
Proof.
  revert st. induction es as [|e es IH]; intros st Hi Hp.
  - cbn. now rewrite Hp.
  - cbn [settlements]. rewrite Hp at 1. cbn [settled].
    change (run (e :: es) st) with (run es (step st e)).
    destruct (settled (promise (step st e))) eqn:Hs.
    + rewrite settlements_settled; auto using step_inv.
      destruct (run_settled es (step st e) (step_inv st e Hi) Hs)
        as (_ & _ & C & _).
      now rewrite C, Hs.
    + apply IH; [apply step_inv, Hi|].
      destruct (promise (step st e)); simpl in Hs; congruence.
Qed.

(** Chunks that complete no match only grow the buffer. *)
Lemma run_data_no_match (chunks : list string) :
  forall (st : State) (out : string),
    promisePending st = true ->
    processOutput st = Some out ->
    (forall k, (1 <= k <= List.length chunks)%nat ->
               pattern (out ++ accumulated chunks k) = None) ->
    run (map Data chunks) st =
    {| promisePending := true;
       processOutput := Some (out ++ text_of chunks);
       timer := timer st; promise := promise st; kills := kills st |}.
Proof.
  induction chunks as [|c cs IH]; intros st out Hp Ho Hk.
  - destruct st; simpl in *. subst. now rewrite append_nil_r.
  - change (run (map Data (c :: cs)) st)
      with (run (map Data cs) (on_data Match pattern c st)).
    assert (Hc : pattern (out ++ c) = None).
    { specialize (Hk 1%nat). cbn in Hk. rewrite append_nil_r in Hk.
      apply Hk. lia. }
    unfold on_data. rewrite Hp, Ho. cbn [append_output]. rewrite Hc.
    rewrite (IH _ (out ++ c)); cbn; auto.
    + now rewrite append_assoc.
    + intros k Hle. rewrite append_assoc.
      apply (Hk (S k)). cbn. lia.
Qed.

(** Once the promise is settled, further chunks change nothing at all. *)
Lemma run_data_settled (chunks : list string) (st : State) :
  promisePending st = false -> run (map Data chunks) st = st.
Proof.
  intros Hp. induction chunks as [|c cs IH]; [reflexivity|].
  change (run (map Data (c :: cs)) st)
    with (run (map Data cs) (on_data Match pattern c st)).
  unfold on_data. now rewrite Hp.
Qed.

(** Chunks of which some prefix completes a match: the promise is
    resolved at the first such prefix. *)
Lemma run_data_match (chunks : list string) :
  forall (st : State) (out : string) (m : Match),
    promisePending st = true ->
    processOutput st = Some out ->
    promise st = Pending ->
    chunks <> [] ->
    pattern (out ++ text_of chunks) = Some m ->
    exists (k : nat) (m' : Match),
      (1 <= k <= List.length chunks)%nat /\
      (forall j, (1 <= j < k)%nat ->
                 pattern (out ++ accumulated chunks j) = None) /\
      pattern (out ++ accumulated chunks k) = Some m' /\
      run (map Data chunks) st =
      {| promisePending := false; processOutput := None; timer := false;
         promise := Resolved m'; kills := kills st |}.
Proof.
  induction chunks as [|c cs IH]; intros st out m Hp Ho Hpr Hne Hm;
    [congruence|].
  change (run (map Data (c :: cs)) st)
    with (run (map Data cs) (on_data Match pattern c st)).
  unfold on_data. rewrite Hp, Ho. cbn [append_output].
  destruct (pattern (out ++ c)) as [m1|] eqn:Hc.
  - exists 1%nat, m1. rewrite run_data_settled by reflexivity.
    rewrite Hpr. cbn. rewrite append_nil_r.
    repeat split; auto; lia.
  - destruct cs as [|c' cs'].
    + cbn in Hm. rewrite append_nil_r in Hm. congruence.
    + edestruct (IH {| promisePending := true;
                       processOutput := Some (out ++ c);
                       timer := timer st; promise := promise st;
                       kills := kills st |} (out ++ c) m)
        as (k & m' & Hk & Hj & Hpk & Hrun); auto; try discriminate.
      * now rewrite append_assoc.
      * exists (S k), m'. repeat split; try (cbn in *; lia).
        -- intros j Hlt. destruct j as [|j]; [lia|].
           destruct j as [|j].
           ++ cbn. now rewrite append_nil_r.
           ++ specialize (Hj (S j)).
              cbn [accumulated firstn text_of fold_right] in *.
              rewrite <- append_assoc. apply Hj. lia.
        -- cbn [accumulated firstn text_of fold_right] in *.
           now rewrite <- append_assoc.
        -- exact Hrun.
Qed.

(** C3.  Take any run in which the promise is still pending (only chunks
    that completed no match have arrived) and let the next event be one of
    the three outcomes: a chunk completing a match, the timer, or the
    process exiting or failing to spawn.  That event settles the promise
    with its own outcome, whatever events follow (the 'error' handler
    included) leave the promise and every variable of the closure as they
    are, and over the whole run the promise is settled once. *)
Theorem waitForPattern_first_outcome_wins :
  forall (es : list Event) (e : Event) (es' : list Event),
    promise (run es init) = Pending ->
    outcome_of Match pattern (run es init) e <> Pending ->
    promise (run (es ++ [e]) init) = outcome_of Match pattern (run es init) e /\
    same_vars Match (run (es ++ e :: es') init) (run (es ++ [e]) init) /\
    settlements Match pattern (es ++ e :: es') init = 1%nat.
Proof.
  intros es e es' Hp Ho.
  pose proof (run_inv es init init_inv) as Hi.
  assert (H1 : promise (run (es ++ [e]) init)
               = outcome_of Match pattern (run es init) e).
  { rewrite wfp_run_app. apply step_pending; assumption. }
  assert (Hs : settled (promise (run (es ++ [e]) init)) = true).
  { rewrite H1. destruct (outcome_of Match pattern (run es init) e);
      [congruence | reflexivity | reflexivity]. }
  assert (H2 : same_vars Match (run (es ++ e :: es') init)
                               (run (es ++ [e]) init)).
  { replace (es ++ e :: es')%list with ((es ++ [e]) ++ es')%list
      by (now rewrite <- app_assoc).
    rewrite (wfp_run_app (es ++ [e]) es').
    apply run_settled; [apply run_inv, init_inv | exact Hs]. }
  repeat split; try apply H2; try exact H1.
  rewrite settlements_count by (try apply init_inv; reflexivity).
  destruct H2 as (_ & _ & C & _). now rewrite C, Hs.
Qed.

(** C5.  If the concatenation of the chunks a process writes matches the
    pattern, then with no other event in between the promise is resolved
    with the result of [pattern.exec] on the text accumulated up to the
    first chunk at which the accumulated text matches, wherever the chunk
    boundaries fall; at that point the buffer is dropped, the timer is
    cleared, and later chunks leave the state untouched. *)
Theorem waitForPattern_resolves_on_first_match :
  forall (chunks more : list string) (m : Match),
    chunks <> [] ->
    pattern (text_of chunks) = Some m ->
    exists (k : nat) (m' : Match),
      (1 <= k <= List.length chunks)%nat /\
      (forall j, (1 <= j < k)%nat -> pattern (accumulated chunks j) = None) /\
      pattern (accumulated chunks k) = Some m' /\
      run (map Data chunks) init =
      {| promisePending := false; processOutput := None; timer := false;
         promise := Resolved m'; kills := 0 |} /\
      run (map Data (chunks ++ more)) init = run (map Data chunks) init.
Proof.
  intros chunks more m Hne Hm.
  destruct (run_data_match chunks init "" m) as (k & m' & Hk & Hj & Hpk & Hrun);
    auto.
  exists k, m'. repeat split; try lia; auto.
  rewrite map_app, wfp_run_app, Hrun.
  now apply run_data_settled.
Qed.

(** C6.  If no prefix of the chunks received matches the pattern, then the
    timer firing rejects the promise with the error whose [code] is
    'Timeout' and calls [process.kill()] once, and the process exiting
    instead rejects the promise with the handshake error without killing
    anything; either error carries in [stdout] all the output received. *)
Theorem waitForPattern_timeout_and_premature_exit :
  forall (chunks : list string) (code : option Z) (signal : option string),
    (forall k, (1 <= k <= List.length chunks)%nat ->
               pattern (accumulated chunks k) = None) ->
    let timed_out := run (map Data chunks ++ [TimerDue]) init in
    let exited := run (map Data chunks ++ [ProcExit code signal]) init in
    promise timed_out = Rejected (timeout_error (Some (text_of chunks))) /\
    JS.code (timeout_error (Some (text_of chunks))) = Some "Timeout" /\
    stdout (timeout_error (Some (text_of chunks)))
      = Some (Some (text_of chunks)) /\
    kills timed_out = 1%nat /\
    promise exited = Rejected (handshake_error (Some (text_of chunks))) /\
    JS.code (handshake_error (Some (text_of chunks))) = Some "Handshake" /\
    stdout (handshake_error (Some (text_of chunks)))
      = Some (Some (text_of chunks)) /\
    kills exited = 0%nat.
Proof.
  intros chunks code signal Hk timed_out exited. subst timed_out exited.
  rewrite !wfp_run_app.
  rewrite (run_data_no_match chunks init "") by (auto; reflexivity).
  cbn. repeat split; reflexivity.
Qed.

End WaitForPatternFacts.

Section WaitForPatternExamples.
Import JS WaitForPattern.

(** The handshake line split over three reads, then every other event. *)
Lemma waitForPattern_first_outcome_wins_witness :
  let es := [Data "Starting"; Data (String "010" "Listening on port 47")] in
  let e := Data (String "1" (String "1" (String "010" ""))) in
  let es' := [ProcError spawn_error; TimerDue; ProcExit (Some 1) None;
              Data (String "010" "Listening on port 9 ")] in
  let final := run (list string) Handshake.exec (es ++ e :: es') init in
  promise final
    = Resolved [String.append "Listening on port 4711" (String "010" "");
                "4711"] /\
  kills final = 0%nat /\
  settlements (list string) Handshake.exec (es ++ e :: es') init = 1%nat.
Proof.
  intros es e es' final.
  destruct (waitForPattern_first_outcome_wins (list string) Handshake.exec
              es e es') as (H1 & (_ & _ & Hp & Hk) & Hs).
  - reflexivity.
  - vm_compute. discriminate.
  - split; [|split].
    + subst final. rewrite Hp. vm_compute. reflexivity.
    + subst final. rewrite Hk. vm_compute. reflexivity.
    + exact Hs.
Defined.

Lemma waitForPattern_resolves_on_first_match_witness :
  let more := [String "010" "Listening on port 9 "] in
  let final :=
    run (list string) Handshake.exec (map Data (handshake_chunks ++ more))
        init in
  promise final
    = Resolved [String.append "Listening on port 4711" (String "010" "");
                "4711"] /\
  processOutput final = None /\
  promisePending final = false.
Proof.
  intros more final.
  destruct (waitForPattern_resolves_on_first_match
              (list string) Handshake.exec handshake_chunks more
              [String.append "Listening on port 4711" (String "010" "");
               "4711"])
    as (k & m' & _ & _ & _ & Hrun & Hmore).
  - discriminate.
  - vm_compute. reflexivity.
  - subst final. rewrite Hmore, Hrun.
    vm_compute in Hrun. injection Hrun as <-.
    split; [|split]; reflexivity.
Defined.

(** Output without the handshake line, then the timer or the exit. *)
Lemma waitForPattern_timeout_and_premature_exit_witness :
  let chunks := [String.append "Starting" (String "010" ""); "Listening on"] in
  let out := String.append "Starting" (String "010" "Listening on") in
  let timed_out :=
    run (list string) Handshake.exec (map Data chunks ++ [TimerDue]) init in
  let exited :=
    run (list string) Handshake.exec
        (map Data chunks ++ [ProcExit (Some 1) None]) init in
  promise timed_out = Rejected (timeout_error (Some out)) /\
  kills timed_out = 1%nat /\
  promise exited = Rejected (handshake_error (Some out)) /\
  kills exited = 0%nat.
Proof.
  intros chunks out timed_out exited.
  destruct (waitForPattern_timeout_and_premature_exit
              (list string) Handshake.exec chunks (Some 1) None)
    as (H1 & _ & _ & H2 & H3 & _ & _ & H4).
  - intros k Hk.
    destruct k as [|[|[|k]]]; cbn in Hk; try lia; vm_compute; reflexivity.
  - subst timed_out exited. rewrite H1, H2, H3, H4.
    split; [|split; [|split]]; reflexivity.
Defined.

End WaitForPatternExamples.

Section StopEventFacts.
Import JS StopEvent.

Lemma stop_run_not_listening (events : list StoppedEvent) (st : State) :
  listening st = false -> run events st = st.
Proof.
  intros H. induction events as [|e es IH]; [reflexivity|].
  cbn [run fold_left]. unfold emit at 2. rewrite H. exact IH.
Qed.

Lemma stop_run_listening (events : list StoppedEvent) :
  forall st : State,
    listening st = true -> promise st = Pending ->
    promise (run events st) =
      match find user_visible events with
      | Some e => Resolved e
      | None => Pending
      end /\
    listening (run events st) =
      match find user_visible events with
      | Some _ => false
      | None => true
      end.
Proof.
  induction events as [|e es IH]; intros st Hl Hp; [now split|].
  cbn [run fold_left find]. unfold emit at 2 4. rewrite Hl.
  unfold handler, user_visible.
  destruct (negb (reason e =? "initial")%string) eqn:He.
  - fold (run es {| listening := false;
                    promise := resolve (promise st) e; log := log st |}).
    rewrite stop_run_not_listening by reflexivity.
    rewrite Hp. now split.
  - apply IH; assumption.
Qed.

(** C7.  Over any sequence of 'stopped' events the promise of
    [waitForStopEvent] is resolved with the first event whose reason is not
    "initial", and stays pending while there is none; an event it is
    resolved with never has the reason "initial"; the handler is removed
    when the promise is resolved. *)
Theorem waitForStopEvent_skips_initial :
  forall events : list StoppedEvent,
    promise (run events init) =
      match find user_visible events with
      | Some e => Resolved e
      | None => Pending
      end /\
    (forall e, promise (run events init) = Resolved e ->
               reason e <> "initial") /\
    listening (run events init) =
      match find user_visible events with
      | Some _ => false
      | None => true
      end.
Proof.
  intros events.
  destruct (stop_run_listening events init eq_refl eq_refl) as [Hp Hl].
  split; [exact Hp | split; [|exact Hl]].
  intros e He. rewrite Hp in He.
  destruct (find user_visible events) as [e'|] eqn:Hf; [|discriminate].
  injection He as ->. apply find_some in Hf. destruct Hf as [_ Hv].
  unfold user_visible in Hv. apply negb_true_iff in Hv.
  now apply String.eqb_neq.
Qed.

End StopEventFacts.

Section LaunchFacts.
Import Launch.

Variable k : Kind.

(** A response to anything but [initialize] resumes nothing. *)
Lemma dispatch_other_response (c : Command) (ok : bool) (st : Session) :
  c <> initialize ->
  pc (dispatch k st (Response c ok)) = pc st /\
  waitForInit (dispatch k st (Response c ok)) = waitForInit st /\
  sent (dispatch k st (Response c ok)) = sent st.
Proof.
  intros Hc. destruct c; try congruence; cbn [dispatch];
    destruct (_ && _); try destruct (requestResp st); auto.
Qed.

Lemma launch_run_done (ms : list Message) (st : Session) :
  pc st = Returned \/ pc st = Threw ->
  sent (run k ms st) = sent st.
Proof.
  revert st. induction ms as [|m ms IH]; intros st Hpc; [reflexivity|].
  cbn [run fold_left]. fold (run k ms (dispatch k st m)).
  assert (H : pc (dispatch k st m) = pc st /\
              sent (dispatch k st m) = sent st).
  { destruct m as [c ok|ev].
    - destruct (command_eqb c initialize) eqn:Hc;
        [destruct c; try discriminate
        |assert (Hne : c <> initialize) by (intros ->; discriminate);
         destruct (dispatch_other_response c ok st Hne) as (A & _ & B);
         now split].
      cbn [dispatch]. destruct Hpc as [E | E]; rewrite E; cbn; now split.
    - cbn [dispatch]. destruct (ev =? "initialized")%string; [|now split].
      destruct Hpc as [E | E]; rewrite E; cbn; now split. }
  destruct H as [H1 H2]. rewrite IH, H2; [reflexivity | now rewrite H1].
Qed.

Lemma launch_run_await_initialized (ms : list Message) :
  forall st : Session,
    pc st = AwaitInitialized ->
    sent (run k ms st) =
    (sent st ++
     if existsb is_initialized_event ms then [configurationDone] else [])%list.
Proof.
  induction ms as [|m ms IH]; intros st Hpc.
  - cbn. now rewrite app_nil_r.
  - cbn [run fold_left existsb]. fold (run k ms (dispatch k st m)).
    destruct m as [c ok|ev]; cbn [is_initialized_event orb].
    + assert (H : pc (dispatch k st (Response c ok)) = AwaitInitialized /\
                  sent (dispatch k st (Response c ok)) = sent st).
      { destruct (command_eqb c initialize) eqn:Hc;
          [destruct c; try discriminate
          |assert (Hne : c <> initialize) by (intros ->; discriminate);
           destruct (dispatch_other_response c ok st Hne) as (A & _ & B);
           split; congruence].
        cbn [dispatch]. rewrite Hpc. now split. }
      destruct H as [H1 H2]. now rewrite IH, H2.
    + cbn [dispatch]. destruct (ev =? "initialized")%string; cbn [orb].
      * rewrite Hpc. now rewrite launch_run_done by (left; reflexivity).
      * now apply IH.
Qed.

Lemma initialize_succeeded_skip (m : Message) (ms : list Message) :
  is_initialize_response m = false ->
  initialize_succeeded (m :: ms) = initialize_succeeded ms.
Proof.
  intros H. unfold initialize_succeeded. cbn [find]. now rewrite H.
Qed.

Lemma launch_run_await_response (ms : list Message) :
  forall st : Session,
    pc st = AwaitInitializeResponse ->
    sent (run k ms st) =
    (sent st ++
     if initialize_succeeded ms
     then request_of k ::
          (if waitForInit st || existsb is_initialized_event ms
           then [configurationDone] else [])
     else [])%list.
Proof.
  induction ms as [|m ms IH]; intros st Hpc.
  - cbn. now rewrite app_nil_r.
  - cbn [run fold_left]. fold (run k ms (dispatch k st m)).
    destruct m as [c ok|ev].
    + destruct (command_eqb c initialize) eqn:Hc.
      * destruct c; try discriminate.
        unfold initialize_succeeded. cbn [find is_initialize_response].
        cbn [dispatch]. rewrite Hpc. cbn [existsb is_initialized_event orb].
        destruct ok.
        -- unfold after_initialize_response.
           destruct (waitForInit st) eqn:Hw.
           ++ rewrite launch_run_done by (left; reflexivity).
              cbn. now rewrite <- app_assoc.
           ++ rewrite launch_run_await_initialized by reflexivity.
              cbn. now rewrite <- app_assoc.
        -- rewrite launch_run_done by (right; reflexivity).
           cbn. now rewrite app_nil_r.
      * assert (Hne : c <> initialize) by (intros ->; discriminate).
        destruct (dispatch_other_response c ok st Hne) as (A & B & C).
        rewrite initialize_succeeded_skip
          by (destruct c; try reflexivity; congruence).
        cbn [existsb is_initialized_event orb].
        rewrite IH by congruence. now rewrite B, C.
    + rewrite initialize_succeeded_skip by reflexivity.
      cbn [dispatch existsb is_initialized_event].
      destruct (ev =? "initialized")%string; cbn [orb].
      * rewrite Hpc. rewrite IH by reflexivity. cbn [waitForInit sent orb].
        now rewrite orb_true_r.
      * now apply IH.
Qed.

(** C4 (as the code has it).  After any sequence of messages from the
    adapter the requests sent are, in this order: [initialize]; then
    [launch] (or [attach]) if and only if the first response to
    [initialize] has arrived and is a success; then [configurationDone] if
    and only if, besides, the 'initialized' event has arrived.  The
    response to [launch] / [attach] plays no part: [configurationDone] is
    sent while that response is still pending. *)
Theorem launch_sends_in_order :
  forall ms : list Message,
    sent (run k ms start) =
      initialize ::
      (if initialize_succeeded ms
       then request_of k ::
            (if existsb is_initialized_event ms
             then [configurationDone] else [])
       else []) /\
    sent (run k [Response initialize true; Event "initialized"] start)
      = [initialize; request_of k; configurationDone] /\
    requestResp (run k [Response initialize true; Event "initialized"] start)
      = None.
Proof.
  intros ms. split; [|split; reflexivity].
  rewrite launch_run_await_response by reflexivity.
  reflexivity.
Qed.

End LaunchFacts.

(** C4 as stated fails: after the response to [initialize] and the
    'initialized' event, [configurationDone] has been sent and the response
    to [launch] has not arrived. *)
Lemma configurationDone_before_launch_response :
  ~ (forall (k : Launch.Kind) (ms : list Launch.Message),
       In Launch.configurationDone (Launch.sent (Launch.run k ms Launch.start)) ->
       exists ok, Launch.requestResp (Launch.run k ms Launch.start) = Some ok).
Proof.
  intros H.
  destruct (H Launch.Launch
              [Launch.Response Launch.initialize true;
               Launch.Event "initialized"]) as [ok Hok].
  - cbn. auto.
  - discriminate Hok.
Qed.

Section CompareVariablesFacts.
Import JS CompareVariables.

Variable variablesRequest : Z -> option (list VariableNode).




(** C10.  Called with the reference 0, [compareVariables] throws the
    assertion 'Expected non-zero.' whatever the expected shape and the
    prefix, and issues no request.  The same assertion stops the descent
    into a variable the adapter gave the reference 0: the only request is
    the one for the parent. *)
Theorem compareVariables_rejects_zero :
  forall (expected : Expected) (prefix : string) (requests : list Z),
    compareVariables variablesRequest 0 expected prefix requests
    = (Threw ExpectedNonZero, requests) /\
    (forall (varRef : Z) (variables : list VariableNode) (key : string)
            (v : VariableNode) (sub : list (string * Expected)),
        (varRef =? 0) = false ->
        variablesRequest varRef = Some variables ->
        (key =? "$")%string = false ->
        dict_get (vars_of variables) key = Some v ->
        variablesReference v = 0 ->
        dict_get sub "$" = None ->
        compareVariables variablesRequest varRef (EObj [(key, EObj sub)])
                         prefix requests
        = (Threw ExpectedNonZero, (requests ++ [varRef])%list)).
Proof.
  intros expected prefix requests. split.
  - destruct expected; reflexivity.
  - intros varRef variables key v sub Hz Hreq Hkey Hget Hv Hsum.
    cbn [compareVariables]. rewrite Hz, Hreq, Hkey, Hget, Hsum, Hv.
    reflexivity.
Qed.



End CompareVariablesFacts.


Section ExpandFacts.
Import JS Expand.

Lemma token_of_text (body : string) :
  segment_text (token_of body) = "${" ++ body ++ "}".
Proof.
  unfold token_of.
  destruct (split_colon body) as [[[|c t] [|d k]]|]; reflexivity.
Qed.

Lemma segments_text_app (l1 l2 : list Segment) :
  segments_text (l1 ++ l2) = segments_text l1 ++ segments_text l2.
Proof.
  induction l1 as [|seg l1 IH]; cbn; [reflexivity|].
  fold (segments_text (l1 ++ l2)). fold (segments_text l1).
  now rewrite IH, append_assoc.
Qed.

Lemma scan_step_text (st : ScanState) (c : ascii) :
  segments_text (fst (scan_step st c)) ++ pending (snd (scan_step st c))
  = pending st ++ String c EmptyString.
Proof.
  destruct st as [| |acc]; cbn [scan_step].
  - destruct (Ascii.eqb_spec c "$") as [->|_]; reflexivity.
  - destruct (Ascii.eqb_spec c "{") as [->|_]; [reflexivity|].
    destruct (Ascii.eqb_spec c "$") as [->|_]; reflexivity.
  - destruct (Ascii.eqb_spec c "}") as [->|_].
    + destruct acc as [|a acc]; [reflexivity|].
      cbn [fst snd segments_text fold_right pending].
      rewrite token_of_text. cbn. now rewrite !append_nil_r.
    + cbn. reflexivity.
Qed.

(** The pieces of a scan, put together, are the text scanned. *)
Lemma scan_text (s : string) :
  forall st : ScanState, segments_text (scan st s) = pending st ++ s.
Proof.
  induction s as [|c s IH]; intros st.
  - destruct st; cbn; now rewrite ?append_nil_r.
  - cbn [scan]. rewrite segments_text_app, IH, <- append_assoc.
    rewrite scan_step_text. now rewrite append_assoc.
Qed.

(** Without a match the callback never runs. *)
Lemma replace_no_token (segs : list Segment) (expander : Expander)
  (converged : bool) :
  existsb is_token segs = false ->
  replace_segments segs expander converged
  = Ok (segments_text segs) converged.
Proof.
  induction segs as [|[text|all type key] rest IH]; cbn; intros H.
  - reflexivity.
  - now rewrite IH.
  - discriminate.
Qed.

Lemma expandVariables_no_token (s : string) (expander : Expander)
  (converged : bool) :
  has_token s = false -> expandVariables s expander converged = Ok s converged.
Proof.
  intros H. unfold expandVariables.
  rewrite replace_no_token by exact H.
  now rewrite scan_text.
Qed.

Lemma expandVariablesInObject_resolved (v : Value) :
  forall (expander : Expander) (converged : bool),
    resolved v = true ->
    expandVariablesInObject v expander converged = Ok v converged.
Proof.
  induction v as [| |b|r|s|items IH|props IH] using Value_nested_ind;
    intros expander converged H; try reflexivity.
  - cbn in *. rewrite expandVariables_no_token; [reflexivity|].
    now apply negb_true_iff.
  - cbn [expandVariablesInObject resolved] in *.
    induction IH as [|x rest Hx Hrest IHrest]; [reflexivity|].
    apply andb_true_iff in H. destruct H as [H1 H2].
    rewrite Hx by exact H1.
    specialize (IHrest H2).
    destruct ((fix each (l : list Value) (converged0 : bool) {struct l} :
                 Result (list Value) := _) rest converged)
      as [rest' c|e]; [|discriminate].
    now injection IHrest as -> ->.
  - cbn [expandVariablesInObject resolved] in *.
    induction IH as [|[k x] rest Hx Hrest IHrest]; [reflexivity|].
    apply andb_true_iff in H. destruct H as [H1 H2]. cbn [snd] in Hx.
    rewrite Hx by exact H1.
    specialize (IHrest H2).
    destruct ((fix each (l : list (string * Value)) (converged0 : bool)
                 {struct l} : Result (list (string * Value)) := _)
                rest converged)
      as [rest' c|e]; [|discriminate].
    now injection IHrest as -> ->.
Qed.

Lemma dict_set_same {A} (d : Dict A) (key : string) (v : A) :
  dict_get d key = Some v -> dict_set d key v = d.
Proof.
  induction d as [|[k w] rest IH]; cbn; [discriminate|].
  destruct (k =? key)%string.
  - now intros [= ->].
  - intros H. now rewrite IH.
Qed.

Lemma dict_get_resolved (d : Dict Value) (key : string) (v : Value) :
  resolved_document d = true -> dict_get d key = Some v -> resolved v = true.
Proof.
  induction d as [|[k w] rest IH]; cbn; [discriminate|].
  intros H. apply andb_true_iff in H. destruct H as [H1 H2].
  destruct (k =? key)%string; [now intros [= <-] | now apply IH].
Qed.

Lemma dict_get_key {A} (d : Dict A) (key : string) :
  In key (keys d) -> exists v, dict_get d key = Some v.
Proof.
  induction d as [|[k w] rest IH]; cbn; [contradiction|].
  intros [->|H].
  - rewrite String.eqb_refl. eauto.
  - destruct (k =? key)%string; eauto.
Qed.

(** A pass over a resolved document changes nothing and leaves
    [converged] as it is. *)
Lemma expand_props_resolved (props : list string) (d : Dict Value)
  (converged : bool) :
  resolved_document d = true ->
  (forall prop, In prop props -> In prop (keys d)) ->
  expand_props props d converged = Ok d converged.
Proof.
  intros Hd. induction props as [|prop rest IH]; intros Hin; [reflexivity|].
  cbn [expand_props].
  destruct (dict_get_key d prop (Hin prop (or_introl eq_refl))) as [v Hv].
  rewrite Hv.
  rewrite expandVariablesInObject_resolved
    by (eapply dict_get_resolved; eassumption).
  rewrite dict_set_same by exact Hv.
  apply IH. intros p Hp. apply Hin. now right.
Qed.

(** C9.  When no string of the dbgconfig document and none of the launch
    configuration contains a [${...}] token, the first pass of the loop
    returns the document as it is with [converged] still true, so the loop
    stops after that one pass, and [expandDbgConfig] returns the launch
    configuration unchanged.  Nothing is replaced: whatever the callback,
    it is not called. *)
Theorem expandDbgConfig_resolved_unchanged :
  forall (fuel : nat) (debugConfig : Value) (dbgconfigConfig : Dict Value),
    resolved debugConfig = true ->
    resolved_document dbgconfigConfig = true ->
    pass dbgconfigConfig = Ok dbgconfigConfig true /\
    fixed_point 1 dbgconfigConfig = Converged dbgconfigConfig /\
    fixed_point (S fuel) dbgconfigConfig = Converged dbgconfigConfig /\
    expandDbgConfig (S fuel) debugConfig dbgconfigConfig
    = Returned debugConfig /\
    (forall (expander : Expander) (converged : bool),
        expandVariablesInObject debugConfig expander converged
        = Ok debugConfig converged) /\
    (forall (expander : Expander) (converged : bool) (prop : string) v,
        dict_get dbgconfigConfig prop = Some v ->
        expandVariablesInObject v expander converged = Ok v converged).
Proof.
  intros fuel debugConfig d Hc Hd.
  assert (Hpass : pass d = Ok d true).
  { unfold pass. apply expand_props_resolved; auto. }
  assert (Hfix : forall n, fixed_point (S n) d = Converged d).
  { intros n. cbn [fixed_point]. now rewrite Hpass. }
  repeat split; auto.
  - unfold expandDbgConfig. rewrite Hfix.
    now rewrite expandVariablesInObject_resolved.
  - intros expander converged. now apply expandVariablesInObject_resolved.
  - intros expander converged prop v Hget.
    apply expandVariablesInObject_resolved.
    eapply dict_get_resolved; eauto.
Qed.

(** ** Scanning a concatenation *)

Lemma scan_app (s1 : string) :
  forall (st : ScanState) (s2 : string),
    scan st (s1 ++ s2)
    = (scan_emit st s1 ++ scan (scan_state st s1) s2)%list.
Proof.
  induction s1 as [|c s1 IH]; intros st s2; [reflexivity|].
  cbn [append scan scan_emit scan_state].
  now rewrite IH, app_assoc.
Qed.

Lemma scan_emit_flush (s : string) (st : ScanState) :
  scan st s = (scan_emit st s ++ flush (scan_state st s))%list.
Proof.
  rewrite <- (append_nil_r s) at 1. now rewrite scan_app.
Qed.

Lemma flush_clean (st : ScanState) :
  forallb lit_clean (flush st) = true -> st = Outside.
Proof. destruct st; cbn; [reflexivity | discriminate | discriminate]. Qed.

Lemma clean_state (s : string) :
  clean s = true -> scan_state Outside s = Outside.
Proof.
  unfold clean. rewrite scan_emit_flush, forallb_app.
  intros H. apply andb_true_iff in H. now apply flush_clean.
Qed.

(** After a clean string the scan starts afresh. *)
Lemma scan_clean_app (s1 s2 : string) :
  clean s1 = true ->
  scan Outside (s1 ++ s2) = (scan Outside s1 ++ scan Outside s2)%list.
Proof.
  intros H. rewrite scan_app, (scan_emit_flush s1).
  rewrite (clean_state s1 H). cbn. now rewrite app_nil_r.
Qed.

Lemma clean_app (s1 s2 : string) :
  clean s1 = true -> clean s2 = true -> clean (s1 ++ s2) = true.
Proof.
  intros H1 H2. unfold clean. rewrite scan_clean_app by exact H1.
  rewrite forallb_app. apply andb_true_iff. now split.
Qed.

(** ** Scanning a token again *)

Lemma scan_body (body : string) :
  forall (acc rest : string),
    has_char "}" body = false ->
    acc ++ body <> "" ->
    scan (Body acc) (body ++ String "}" rest)
    = token_of (acc ++ body) :: scan Outside rest.
Proof.
  induction body as [|c body IH]; intros acc rest Hb Hne.
  - rewrite append_nil_r in *. cbn.
    destruct acc; [congruence | reflexivity].
  - cbn in Hb. apply orb_false_iff in Hb. destruct Hb as [Hc Hb].
    cbn [append scan scan_step]. rewrite Hc. cbn [fst snd app].
    rewrite IH; auto.
    + now rewrite append_assoc.
    + rewrite append_assoc. cbn. destruct acc; discriminate.
Qed.

Lemma rescans_char (c : ascii) :
  Ascii.eqb c "$" = false -> rescans (Lit (String c EmptyString)).
Proof. intros H rest. cbn. now rewrite H. Qed.

Lemma rescans_token (body : string) :
  has_char "}" body = false -> body <> "" -> rescans (token_of body).
Proof.
  intros Hb Hne rest. rewrite token_of_text.
  replace (("${" ++ body ++ "}") ++ rest)
    with (String "$" (String "{" (body ++ String "}" rest)))
    by (cbn; now rewrite append_assoc).
  change (scan Outside (String "$" (String "{" (body ++ String "}" rest))))
    with (scan (Body "") (body ++ String "}" rest)).
  now rewrite scan_body.
Qed.

Lemma has_char_app (x : ascii) (a b : string) :
  has_char x (a ++ b) = has_char x a || has_char x b.
Proof.
  induction a as [|c a IH]; cbn; [reflexivity|].
  now rewrite IH, orb_assoc.
Qed.

Lemma scan_step_rescans (st : ScanState) (c : ascii) :
  body_ok st ->
  body_ok (snd (scan_step st c)) /\
  Forall (fun seg => lit_clean seg = true -> rescans seg)
         (fst (scan_step st c)).
Proof.
  intros Hst. destruct st as [| |acc]; cbn [scan_step].
  - destruct (Ascii.eqb c "$") eqn:E; cbn; split; auto.
    constructor; [|constructor]. intros _. now apply rescans_char.
  - destruct (Ascii.eqb c "{") eqn:E1; [cbn; split; auto|].
    destruct (Ascii.eqb c "$") eqn:E2; cbn; split; auto.
    + constructor; [|constructor]. cbn. discriminate.
    + constructor; [cbn; discriminate|].
      constructor; [|constructor]. intros _. now apply rescans_char.
  - cbn in Hst. destruct (Ascii.eqb c "}") eqn:E.
    + destruct acc as [|a acc]; cbn [fst snd]; split; cbn; auto.
      * constructor; [|constructor]. cbn. discriminate.
      * constructor; [|constructor]. intros _.
        apply rescans_token; [exact Hst | discriminate].
    + cbn. split; auto. rewrite has_char_app. cbn. now rewrite Hst, E.
Qed.

Lemma scan_rescans (s : string) :
  forall st : ScanState,
    body_ok st ->
    Forall (fun seg => lit_clean seg = true -> rescans seg) (scan st s).
Proof.
  induction s as [|c s IH]; intros st Hst.
  - destruct st; cbn; repeat constructor; cbn; discriminate.
  - cbn [scan]. destruct (scan_step_rescans st c Hst) as [H1 H2].
    apply Forall_app. split; [exact H2 | now apply IH].
Qed.

Lemma clean_rescans (s : string) :
  clean s = true -> Forall rescans (scan Outside s).
Proof.
  intros H. unfold clean in H. rewrite forallb_forall in H.
  pose proof (scan_rescans s Outside I) as HF.
  rewrite Forall_forall in *. intros seg Hin. auto.
Qed.

(** ** One string under the loop's callback *)

Lemma plain_text (d : Dict Value) (key : string) :
  plain d -> defined d key = true ->
  exists s, dict_get d key = Some (VStr s) /\ text_at d key = s /\
            clean s = true /\
            forall r, In r (refs s) -> defined d r = true.
Proof.
  intros Hd Hk. unfold defined in Hk. unfold text_at.
  destruct (dict_get d key) as [v|] eqn:E; [|discriminate].
  destruct (Hd key v E) as (s & -> & Hc & Hr). exists s. auto.
Qed.

Lemma dbgconfig_key_elim (seg : Segment) (key : string) :
  dbgconfig_key seg = Some key ->
  exists all t, seg = Tok all (Some t) key /\ (t =? "dbgconfig")%string = true.
Proof.
  destruct seg as [text|all [t|] k]; cbn; try discriminate.
  destruct (t =? "dbgconfig")%string eqn:E; [|discriminate].
  intros [= ->]. eauto.
Qed.

Lemma loop_expander_other (d : Dict Value) (P : string) (seg : Segment)
  (all : string) (type : option string) (key : string) (c : bool) :
  seg = Tok all type key -> dbgconfig_key seg = None ->
  loop_expander d P type key c = Ok None c.
Proof.
  intros -> H. unfold dbgconfig_key in H. unfold loop_expander.
  destruct type as [t|]; [|reflexivity].
  destruct (t =? "dbgconfig")%string; [discriminate | reflexivity].
Qed.


(** Without one, every reference is replaced by the text of its
    property, and [converged] is cleared if there was any. *)
Lemma replace_expand (d : Dict Value) (P : string) (segs : list Segment) :
  plain d ->
  (forall r, In r (segment_refs segs) -> defined d r = true) ->
  ~ In P (segment_refs segs) ->
  forall c, replace_segments segs (loop_expander d P) c
            = Ok (expand_text d segs)
                 (match segment_refs segs with [] => c | _ => false end).
Proof.
  intros Hd. induction segs as [|seg rest IH]; intros Hdef Hin c;
    [reflexivity|].
  cbn [segment_refs expand_text fold_right] in *.
  fold (expand_text d rest). unfold expand_segment.
  destruct (dbgconfig_key seg) as [key|] eqn:Hk.
  - destruct (dbgconfig_key_elim seg key Hk) as (all & t & -> & Ht).
    cbn [replace_segments loop_expander]. rewrite Ht.
    destruct (key =? P)%string eqn:E.
    + apply String.eqb_eq in E. subst. exfalso. apply Hin. now left.
    + destruct (plain_text d key Hd (Hdef key (or_introl eq_refl)))
        as (s & Hget & Htext & _).
      rewrite Hget, Htext. rewrite IH.
      * cbn [toString]. now destruct (segment_refs rest).
      * intros r Hr. apply Hdef. now right.
      * intros Hr. apply Hin. now right.
  - destruct seg as [text|all type key].
    + cbn [replace_segments segment_text]. now rewrite IH.
    + cbn [replace_segments segment_text].
      rewrite (loop_expander_other d P _ all type key c eq_refl Hk).
      now rewrite IH.
Qed.

(** The pieces of the text so obtained. *)
Lemma scan_expand_text (d : Dict Value) (segs : list Segment) :
  Forall rescans segs ->
  (forall r, In r (segment_refs segs) -> clean (text_at d r) = true) ->
  scan Outside (expand_text d segs) = expand_scan d segs.
Proof.
  induction 1 as [|seg rest Hseg Hrest IH]; intros Hc; [reflexivity|].
  cbn [expand_text fold_right expand_scan flat_map segment_refs] in *.
  fold (expand_text d rest). fold (expand_scan d rest).
  unfold expand_segment. destruct (dbgconfig_key seg) as [key|] eqn:Hk.
  - rewrite scan_clean_app by (apply Hc; now left).
    rewrite IH; [reflexivity|]. intros r Hr. apply Hc. now right.
  - rewrite Hseg. now rewrite IH.
Qed.

Lemma segment_refs_app (l1 l2 : list Segment) :
  segment_refs (l1 ++ l2) = (segment_refs l1 ++ segment_refs l2)%list.
Proof.
  induction l1 as [|seg l1 IH]; cbn; [reflexivity|].
  destruct (dbgconfig_key seg); cbn; now rewrite IH.
Qed.

Lemma refs_expand_scan (d : Dict Value) (segs : list Segment) :
  segment_refs (expand_scan d segs)
  = flat_map (fun key => refs (text_at d key)) (segment_refs segs).
Proof.
  induction segs as [|seg rest IH]; [reflexivity|].
  cbn [expand_scan flat_map segment_refs]. fold (expand_scan d rest).
  rewrite segment_refs_app, IH.
  destruct (dbgconfig_key seg) as [key|] eqn:Hk; cbn [flat_map].
  - reflexivity.
  - cbn [segment_refs]. now rewrite Hk.
Qed.

Lemma clean_expand_scan (d : Dict Value) (segs : list Segment) :
  forallb lit_clean segs = true ->
  (forall r, In r (segment_refs segs) -> clean (text_at d r) = true) ->
  forallb lit_clean (expand_scan d segs) = true.
Proof.
  induction segs as [|seg rest IH]; intros Hl Hc; [reflexivity|].
  cbn [forallb] in Hl. apply andb_true_iff in Hl. destruct Hl as [H1 H2].
  cbn [expand_scan flat_map segment_refs] in *. fold (expand_scan d rest).
  rewrite forallb_app. apply andb_true_iff.
  destruct (dbgconfig_key seg) as [key|] eqn:Hk.
  - split; [apply Hc; now left|].
    apply IH; [exact H2|]. intros r Hr. apply Hc. now right.
  - split; [cbn; now rewrite H1 | now apply IH].
Qed.

(** ** Dictionaries *)

Lemma dict_get_set {A} (d : Dict A) (P : string) (v : A) (k : string) :
  dict_get (dict_set d P v) k
  = if (P =? k)%string then Some v else dict_get d k.
Proof.
  induction d as [|[k0 w] rest IH]; cbn; [reflexivity|].
  destruct (String.eqb_spec k0 P) as [->|Hne]; cbn.
  - now destruct (P =? k)%string.
  - rewrite IH. destruct (String.eqb_spec k0 k) as [->|Hk]; [|reflexivity].
    destruct (String.eqb_spec P k) as [->|_]; congruence.
Qed.

Lemma keys_set {A} (d : Dict A) (P : string) (v w : A) :
  dict_get d P = Some w -> keys (dict_set d P v) = keys d.
Proof.
  induction d as [|[k0 u] rest IH]; cbn; [discriminate|].
  destruct (k0 =? P)%string; cbn; [reflexivity|].
  intros H. unfold keys in IH. now rewrite IH.
Qed.

Lemma dict_get_in_keys {A} (d : Dict A) (k : string) (v : A) :
  dict_get d k = Some v -> In k (keys d).
Proof.
  induction d as [|[k0 u] rest IH]; cbn; [discriminate|].
  destruct (String.eqb_spec k0 k) as [->|_]; auto.
Qed.

Lemma dict_get_in {A} (d : Dict A) (k : string) (v : A) :
  dict_get d k = Some v -> In (k, v) d.
Proof.
  induction d as [|[k0 u] rest IH]; cbn; [discriminate|].
  destruct (String.eqb_spec k0 k) as [->|_]; [intros [= ->]|]; auto.
Qed.

Lemma defined_set (d : Dict Value) (P : string) (v : Value) (k : string) :
  defined d k = true -> defined (dict_set d P v) k = true.
Proof.
  unfold defined. rewrite dict_get_set. now destruct (P =? k)%string.
Qed.

(** The two checks on a document give what the theorem asks of it. *)
Lemma plain_document_plain (d : Dict Value) :
  plain_document d = true -> closed_document d = true -> plain d.
Proof.
  intros Hp Hc key v Hget. apply dict_get_in in Hget.
  unfold plain_document in Hp. rewrite forallb_forall in Hp.
  unfold closed_document in Hc. rewrite forallb_forall in Hc.
  specialize (Hp _ Hget). specialize (Hc _ Hget). cbn [snd] in *.
  destruct v; try discriminate. exists s. repeat split; auto.
  intros r Hr. rewrite forallb_forall in Hc. now apply Hc.
Qed.

(** ** One property under the loop *)

Section OneProperty.

Variable d : Dict Value.
Variable P : string.
Variable s : string.
Hypothesis d_plain : plain d.
Hypothesis at_P : dict_get d P = Some (VStr s).

Local Abbreviation s' := (expanded_string d s).
Local Abbreviation d' := (assign_expanded d P s).

Lemma value_facts :
  clean s = true /\ forall r, In r (refs s) -> defined d r = true.
Proof.
  destruct (d_plain P _ at_P) as (s0 & [= <-] & Hc & Hr). auto.
Qed.

Lemma text_clean (r : string) :
  In r (refs s) -> clean (text_at d r) = true.
Proof.
  intros Hr. destruct value_facts as [_ Hdef].
  destruct (plain_text d r d_plain (Hdef r Hr)) as (sr & _ & -> & Hc & _).
  exact Hc.
Qed.


Lemma expand_other_references (c : bool) :
  ~ In P (refs s) ->
  expandVariablesInObject (VStr s) (loop_expander d P) c
  = Ok (VStr s') (match refs s with [] => c | _ => false end).
Proof.
  intros Hin. cbn [expandVariablesInObject]. unfold expandVariables.
  rewrite replace_expand; auto. apply value_facts.
Qed.

Lemma scan_new_text : scan Outside s' = expand_scan d (scan Outside s).
Proof.
  apply scan_expand_text.
  - apply clean_rescans, value_facts.
  - apply text_clean.
Qed.

Lemma refs_new_text :
  refs s' = flat_map (fun key => refs (text_at d key)) (refs s).
Proof. unfold refs. now rewrite scan_new_text, refs_expand_scan. Qed.

Lemma clean_new_text : clean s' = true.
Proof.
  unfold clean. rewrite scan_new_text.
  apply clean_expand_scan; [apply value_facts | apply text_clean].
Qed.

Lemma get_new (k : string) :
  dict_get d' k = if (P =? k)%string then Some (VStr s') else dict_get d k.
Proof. apply dict_get_set. Qed.

Lemma plain_new : plain d'.
Proof.
  intros key v. rewrite get_new.
  destruct (P =? key)%string.
  - intros [= <-]. exists s'. repeat split; [apply clean_new_text|].
    intros r. rewrite refs_new_text, in_flat_map.
    intros (k & Hk & Hr). apply defined_set.
    destruct value_facts as [_ Hdef].
    destruct (plain_text d k d_plain (Hdef k Hk)) as (sk & _ & Ht & _ & Hrk).
    rewrite Ht in Hr. now apply Hrk.
  - intros Hget. destruct (d_plain key v Hget) as (s0 & -> & Hc & Hr).
    exists s0. repeat split; auto.
    intros r Hin. apply defined_set. now apply Hr.
Qed.

(** *** References before and after *)



Lemma references_kept_back (a b : string) :
  a <> P -> references d' a b -> references d a b.
Proof.
  intros Ha (v & Hget & Hin). exists v. split; [|exact Hin].
  rewrite get_new in Hget. destruct (String.eqb_spec P a); congruence.
Qed.


(** *** Chains before and after *)







End OneProperty.

(** ** A pass, and the loop *)



Lemma keys_defined (d : Dict Value) (p : string) :
  In p (keys d) -> defined d p = true.
Proof.
  intros H. unfold defined. now destruct (dict_get_key d p H) as [v ->].
Qed.




End ExpandFacts.

Section ExpandExamples.
Import JS Expand.

Lemma expandDbgConfig_resolved_unchanged_witness :
  let debugConfig :=
    VObj [("program", VStr "/bin/app");
          ("args", VArr [VStr "-v"; VNum "3"; VNull]);
          ("cost", VStr "5$ {x} ${}")] in
  let dbgconfig :=
    [("root", VStr "/home/user"); ("opts", VObj [("verbose", VBool true)])] in
  pass dbgconfig = Ok dbgconfig true /\
  expandDbgConfig 1 debugConfig dbgconfig = Returned debugConfig.
Proof.
  intros debugConfig dbgconfig.
  destruct (expandDbgConfig_resolved_unchanged 0 debugConfig dbgconfig)
    as (H1 & _ & _ & H2 & _).
  - vm_compute. reflexivity.
  - vm_compute. reflexivity.
  - split; [exact H1 | exact H2].
Defined.




(** Why the theorem asks for clean strings and defined names: beside a
    [${] left open the references of a cycle stop being tokens and the
    loop converges; beside an undefined name the other error comes
    first. *)
Example open_brace_cycle_converges :
  fixed_point 2 open_brace_document =
  Converged [("a", VStr "${x${dbgconfig:a}"); ("b", VStr "${x${dbgconfig:a}");
             ("c", VStr "${x")].
Proof. vm_compute. reflexivity. Qed.

Example undefined_name_comes_first :
  fixed_point 1 undefined_name_document
  = Thrown (undefined_message "zz").
Proof. vm_compute. reflexivity. Qed.


End ExpandExamples.


Section ExpandMoreFacts.
Import JS Expand ExpandMore.

Lemma replace_decline (segs : list Segment) (converged : bool) :
  replace_segments segs decline converged
  = Ok (segments_text segs) converged.
Proof.
  induction segs as [|[text|all type key] rest IH]; cbn; [reflexivity| |];
    fold (segments_text rest); now rewrite IH.
Qed.

(** X1.  When the expander returns [null] for every match,
    [expandVariables] gives back the string it was given, whatever the
    string: each match is replaced by its own text. *)
Theorem expandVariables_declined_is_identity :
  forall (str : string) (converged : bool),
    expandVariables str decline converged = Ok str converged.
Proof.
  intros str converged. unfold expandVariables.
  rewrite replace_decline. now rewrite scan_text.
Qed.

(** X2.  Whatever the expander does, a value [expandVariablesInObject]
    returns has the shape of the value it was given: strings stay strings,
    other scalars are untouched, arrays keep their length and objects
    their property names, in order. *)
Theorem expandVariablesInObject_keeps_shape :
  forall (obj : Value) (expander : Expander) (converged : bool)
         (obj' : Value) (converged' : bool),
    expandVariablesInObject obj expander converged = Ok obj' converged' ->
    same_shape obj obj' = true.
Proof.
  induction obj as [| |b|r|s|items IH|props IH] using Value_nested_ind;
    intros expander converged obj' converged' H.
  1-4: cbn in H; injection H as <- _; cbn;
       auto using Bool.eqb_reflx, String.eqb_refl.
  - cbn [expandVariablesInObject] in H.
    destruct (expandVariables s expander converged); [|discriminate].
    now injection H as <- _.
  - cbn [expandVariablesInObject] in H.
    destruct ((fix each (l : list Value) (converged0 : bool) {struct l} :
                 Result (list Value) := _) items converged)
      as [items' c|e] eqn:E; [|discriminate].
    injection H as <- _. cbn [same_shape].
    clear converged'. revert converged items' c E.
    induction IH as [|x rest Hx Hrest IHrest]; intros converged items' c E.
    + now injection E as <- _.
    + destruct (expandVariablesInObject x expander converged)
        as [x' c1|e] eqn:Ex; [|discriminate].
      destruct ((fix each (l : list Value) (converged0 : bool) {struct l} :
                   Result (list Value) := _) rest c1)
        as [rest' c2|e] eqn:Er; [|discriminate].
      injection E as <- _.
      rewrite (Hx _ _ _ _ Ex). cbn [andb]. eapply IHrest; eauto.
  - cbn [expandVariablesInObject] in H.
    destruct ((fix each (l : list (string * Value)) (converged0 : bool)
                 {struct l} : Result (list (string * Value)) := _)
                props converged)
      as [props' c|e] eqn:E; [|discriminate].
    injection H as <- _. cbn [same_shape].
    clear converged'. revert converged props' c E.
    induction IH as [|[k x] rest Hx Hrest IHrest]; intros converged props' c E.
    + now injection E as <- _.
    + cbn [snd] in Hx.
      destruct (expandVariablesInObject x expander converged)
        as [x' c1|e] eqn:Ex; [|discriminate].
      destruct ((fix each (l : list (string * Value)) (converged0 : bool)
                   {struct l} : Result (list (string * Value)) := _)
                  rest c1)
        as [rest' c2|e] eqn:Er; [|discriminate].
      injection E as <- _.
      rewrite String.eqb_refl, (Hx _ _ _ _ Ex). cbn [andb].
      eapply IHrest; eauto.
Qed.

Lemma expandVariablesInObject_keeps_shape_witness :
  let obj :=
    VObj [("name", VStr "${env:USER}");
          ("args", VArr [VStr "-u"; VStr "${env:NONE}"; VNum "3"]);
          ("stop", VBool true)] in
  let obj' :=
    VObj [("name", VStr "me");
          ("args", VArr [VStr "-u"; VStr "${env:NONE}"; VNum "3"]);
          ("stop", VBool true)] in
  same_shape obj obj' = true.
Proof.
  intros obj obj'.
  apply (expandVariablesInObject_keeps_shape
           obj (Spawn.env_expander [("USER", "me")]) true obj' true).
  reflexivity.
Defined.

End ExpandMoreFacts.

Section PropsFacts.
Import JS Props.

Lemma dict_get_app_absent {A} (d : Dict A) (key : string) (v : A) (k : string) :
  dict_get d key = None ->
  dict_get (d ++ [(key, v)])%list k
  = if (key =? k)%string then Some v else dict_get d k.
Proof.
  induction d as [|[k0 w] rest IH]; cbn; [reflexivity|].
  destruct (String.eqb_spec k0 key) as [->|Hne]; [discriminate|].
  intros H. rewrite (IH H).
  destruct (String.eqb_spec k0 k) as [->|_]; [|reflexivity].
  destruct (String.eqb_spec key k); congruence.
Qed.

Lemma dict_get_insert_index {A} (d : Dict A) (key : string) (i : Z) (v : A)
  (k : string) :
  dict_get d key = None ->
  dict_get (insert_index d key i v) k
  = if (key =? k)%string then Some v else dict_get d k.
Proof.
  induction d as [|[k0 w] rest IH]; cbn; [reflexivity|].
  destruct (String.eqb_spec k0 key) as [->|Hne]; [discriminate|].
  intros H.
  destruct (array_index k0) as [j|]; [destruct (i <? j)|]; cbn;
    try reflexivity.
  rewrite (IH H).
  destruct (String.eqb_spec k0 k) as [->|_]; [|reflexivity].
  destruct (String.eqb_spec key k); congruence.
Qed.

(** Reading after writing. *)
Lemma dict_get_prop_set {A} (d : Dict A) (key : string) (v : A) (k : string) :
  dict_get (prop_set d key v) k
  = if (key =? k)%string then Some v else dict_get d k.
Proof.
  unfold prop_set. destruct (dict_get d key) as [w|] eqn:E.
  - apply dict_get_set.
  - destruct (array_index key) as [i|].
    + now apply dict_get_insert_index.
    + now apply dict_get_app_absent.
Qed.

Lemma dict_get_not_key {A} (d : Dict A) (k : string) :
  ~ In k (keys d) -> dict_get d k = None.
Proof.
  induction d as [|[k0 w] rest IH]; cbn; [reflexivity|].
  intros H. destruct (String.eqb_spec k0 k) as [->|_].
  - exfalso. apply H. now left.
  - apply IH. intros Hin. apply H. now right.
Qed.

Lemma dict_get_assign_props {A} (source : Dict A) :
  forall (target : Dict A) (k : string),
    NoDup (keys source) ->
    dict_get (assign_props target source) k
    = match dict_get source k with
      | Some v => Some v
      | None => dict_get target k
      end.
Proof.
  induction source as [|[k0 v0] rest IH]; intros target k Hnd;
    [reflexivity|].
  cbn in Hnd. inversion Hnd as [|x l Hnotin Hnd']; subst.
  cbn [assign_props fold_left fst snd dict_get].
  fold (assign_props (prop_set target k0 v0) rest).
  rewrite (IH _ _ Hnd'), dict_get_prop_set.
  destruct (String.eqb_spec k0 k) as [->|_]; [|reflexivity].
  now rewrite (dict_get_not_key rest k Hnotin).
Qed.

End PropsFacts.

Section SpawnFacts.
Import JS Expand Props Text Spawn.

Variable process_env : Dict string.



Lemma replace_unset (segs : list Segment) (c : bool) :
  forallb (fun seg =>
             match seg with
             | Lit _ => true
             | Tok _ (Some t) key =>
                 String.eqb t "env" && env_undefined process_env key
             | Tok _ None _ => false
             end) segs = true ->
  replace_segments segs (env_expander process_env) c
  = Ok (segments_text segs) c.
Proof.
  induction segs as [|[text|all [t|] key] rest IH]; cbn [forallb];
    intros H; try reflexivity.
  - cbn. fold (segments_text rest). now rewrite IH.
  - apply andb_true_iff in H. destruct H as [H1 H2].
    apply andb_true_iff in H1. destruct H1 as [Ht Hk].
    cbn [replace_segments env_expander]. rewrite Ht.
    unfold env_undefined in Hk.
    destruct (dict_get process_env key); [discriminate|].
    rewrite (IH H2). reflexivity.
  - discriminate.
Qed.

(** X4.  A reference [${env:NAME}] for which [process.env[NAME]] is
    [undefined] (the variable is not set, and NAME is not the name of a
    member of [Object.prototype], which [process.env] would inherit) is
    left as it is written: a value all of whose tokens are such references
    comes out of the expansion unchanged. *)
Theorem unset_variable_left_as_written :
  forall (value : string) (converged : bool),
    only_unset_variables process_env value = true ->
    expandVariables value (env_expander process_env) converged
    = Ok value converged.
Proof.
  intros value converged H. unfold expandVariables.
  rewrite replace_unset by exact H. now rewrite scan_text.
Qed.

Lemma replace_foreign (segs : list Segment) (t : option string) (c : bool) :
  first_foreign segs = Some t ->
  replace_segments segs (env_expander process_env) c
  = Throw (unknown_type_message t).
Proof.
  induction segs as [|[text|all [ty|] key] rest IH]; cbn [first_foreign];
    intros H; try discriminate.
  - cbn [foreign_type] in H. cbn [replace_segments]. now rewrite IH.
  - cbn [foreign_type] in H. cbn [replace_segments env_expander].
    destruct (ty =? "env")%string.
    + now rewrite IH.
    + now injection H as <-.
  - cbn [foreign_type] in H. injection H as <-. reflexivity.
Qed.

Lemma replace_env_throws (segs : list Segment) :
  forall (c : bool) (e : string),
    replace_segments segs (env_expander process_env) c = Throw e ->
    exists t, e = unknown_type_message t.
Proof.
  induction segs as [|[text|all ty k] segs IH]; cbn [replace_segments];
    intros c e E; [discriminate| |].
  - destruct (replace_segments segs (env_expander process_env) c) eqn:R;
      [discriminate|]. injection E as <-. eapply IH; eauto.
  - destruct (env_expander process_env ty k c) as [r c0|e0] eqn:X.
    + destruct (replace_segments segs (env_expander process_env) c0) eqn:R;
        [discriminate|]. injection E as <-. eapply IH; eauto.
    + injection E as <-. unfold env_expander in X.
      destruct ty as [t|]; [destruct (t =? "env")%string|];
        try discriminate; injection X as <-; eauto.
Qed.

Lemma expand_env_foreign (adapterEnv : list (string * string)) :
  forall (env0 : Dict string) (key value : string) (t : option string),
    In (key, value) adapterEnv ->
    first_foreign (scan Outside value) = Some t ->
    exists t', expand_env process_env adapterEnv env0
               = Throw (unknown_type_message t').
Proof.
  induction adapterEnv as [|[k0 v0] rest IH]; intros env0 key value t Hin Hf;
    [contradiction|].
  cbn [expand_env].
  destruct (expandVariables v0 (env_expander process_env) true)
    as [r c|e] eqn:E.
  - destruct Hin as [[= -> ->]|Hin].
    + unfold expandVariables in E.
      rewrite (replace_foreign _ t) in E by exact Hf. discriminate.
    + eapply IH; eauto.
  - destruct (replace_env_throws _ _ _ E) as [t' ->]. eauto.
Qed.

(** X5.  If a value of [adapterEnv] holds a token whose type is not [env]
    (or that has no type at all), [spawnDebugger] throws 'Unknown variable
    type ...' and nothing is spawned; in the string holding it, the type
    named is that of the first such token. *)
Theorem spawnDebugger_unknown_type :
  forall (platform : string) (rootPath : option string)
         (args : list string) (adapterPath : string)
         (adapterEnv : Dict string)
         (key value : string) (t : option string) (converged : bool),
    In (key, value) adapterEnv ->
    first_foreign (scan Outside value) = Some t ->
    expandVariables value (env_expander process_env) converged
    = Throw (unknown_type_message t) /\
    exists t',
      spawnDebugger platform process_env rootPath args adapterPath adapterEnv
      = SpawnThrew (unknown_type_message t').
Proof.
  intros platform rootPath args adapterPath adapterEnv key value t converged
         Hin Hf.
  split.
  - unfold expandVariables. now apply replace_foreign.
  - destruct (expand_env_foreign adapterEnv (assign_props [] process_env)
                key value t Hin Hf) as [t' Ht'].
    exists t'. unfold spawnDebugger. now rewrite Ht'.
Qed.

End SpawnFacts.

Section SpawnExamples.
Import JS Expand Props Text Spawn.


Lemma unset_variable_left_as_written_witness :
  expandVariables "${env:HOME}/bin:${env:EXTRA}"
    (env_expander [("PATH", "/bin")]) true
  = Ok "${env:HOME}/bin:${env:EXTRA}" true.
Proof.
  apply (unset_variable_left_as_written [("PATH", "/bin")]).
  reflexivity.
Defined.

Lemma spawnDebugger_unknown_type_witness :
  let adapterEnv :=
    [("HOME", "${env:HOME}/x"); ("LOG", "${env:TMP}/${config:log}/${y}")] in
  expandVariables "${env:TMP}/${config:log}/${y}"
    (env_expander [("TMP", "/tmp")]) true
  = Throw "Unknown variable type config" /\
  exists t',
    spawnDebugger "linux" [("TMP", "/tmp")] None ["--port"] "/bin/adapter"
      adapterEnv
    = SpawnThrew (unknown_type_message t').
Proof.
  intros adapterEnv.
  apply (spawnDebugger_unknown_type [("TMP", "/tmp")] "linux" None
           ["--port"] "/bin/adapter" adapterEnv "LOG"
           "${env:TMP}/${config:log}/${y}" (Some "config") true).
  - right. left. reflexivity.
  - reflexivity.
Defined.

End SpawnExamples.

Section AcyclicFacts.
Import JS Expand ExpandMore.

(** ** References after a property is expanded *)

Section OnePropertyBack.

Variable d : Dict Value.
Variable P : string.
Variable s : string.
Hypothesis d_plain : plain d.
Hypothesis at_P : dict_get d P = Some (VStr s).

Local Abbreviation d' := (assign_expanded d P s).

(** What [P] refers to afterwards was two references away. *)
Lemma references_back_P (Y : string) :
  references d' P Y ->
  exists Q, references d P Q /\ references d Q Y.
Proof.
  intros (v & Hget & Hin).
  rewrite (get_new d P s) in Hget. rewrite String.eqb_refl in Hget.
  injection Hget as <-. cbn [value_refs] in Hin.
  rewrite (refs_new_text d P s d_plain at_P), in_flat_map in Hin.
  destruct Hin as (Q & HQ & HY). exists Q. split.
  - exists (VStr s). auto.
  - destruct (value_facts d P s d_plain at_P) as [_ Hdef].
    destruct (plain_text d Q d_plain (Hdef Q HQ)) as (sq & Hq & Ht & _).
    exists (VStr sq). split; [exact Hq|]. cbn [value_refs]. now rewrite <- Ht.
Qed.

(** A chain afterwards comes from a chain that was at least as long, and
    longer when it starts at [P]. *)
Lemma chain_back (a b : string) (n : nat) :
  chain d' a n b ->
  exists n', chain d a n' b /\ (n <= n')%nat /\
             (a = P -> (1 <= n)%nat -> (S n <= n')%nat).
Proof.
  induction 1 as [a|a x b n Hax Hxb (n1 & Hc & Hle & _)].
  - exists 0%nat. repeat split; [constructor | lia | lia].
  - destruct (string_dec a P) as [->|Ha].
    + destruct (references_back_P x Hax) as (Q & HPQ & HQx).
      exists (S (S n1)). repeat split; [|lia|lia].
      eapply chain_cons; [exact HPQ|]. eapply chain_cons; eauto.
    + exists (S n1). repeat split; [|lia|congruence].
      eapply chain_cons; [|exact Hc].
      eapply references_kept_back; eauto.
Qed.

End OnePropertyBack.

(** A property that refers to itself heads chains of every length. *)
Lemma self_reference_chain (d : Dict Value) (a : string) (n : nat) :
  references d a a -> chain d a n a.
Proof.
  intros H. induction n as [|n IH]; [constructor|].
  eapply chain_cons; eauto.
Qed.

Lemma references_defined (d : Dict Value) (a b : string) :
  references d a b -> In a (keys d).
Proof. intros (v & Hget & _). eapply dict_get_in_keys; eauto. Qed.

(** ** A pass over a document whose chains are bounded *)

(** The chains that start at a property the pass has been over are
    shorter by one; [converged] is still set only if nothing the pass has
    been over refers to anything. *)
Lemma pass_descends (M : nat) (todo : list string) :
  forall (d : Dict Value) (c : bool) (seen : list string),
    plain d ->
    (forall p, In p todo -> defined d p = true) ->
    bounded d M ->
    (forall a n b, In a seen -> chain d a n b -> (n <= M - 1)%nat) ->
    (c = true -> forall a b, In a seen -> ~ references d a b) ->
    (M = 0%nat -> c = true) ->
    exists d' c',
      expand_props todo d c = Ok d' c' /\ plain d' /\ keys d' = keys d /\
      bounded d' M /\
      (forall a n b, In a (seen ++ todo) -> chain d' a n b ->
                     (n <= M - 1)%nat) /\
      (c' = true -> forall a b, In a (seen ++ todo) -> ~ references d' a b) /\
      (M = 0%nat -> c' = true).
Proof.
  induction todo as [|P rest IH]; intros d c seen Hd Hdef Hb Hseen Hc HM.
  - exists d, c. rewrite app_nil_r. repeat split; auto.
  - destruct (plain_text d P Hd (Hdef P (or_introl eq_refl)))
      as (s & Hget & _ & _ & _).
    assert (Hself : ~ In P (refs s)).
    { intros Hin.
      assert (Hr : references d P P) by (exists (VStr s); auto).
      pose proof (Hb P (S M) P (self_reference_chain d P (S M) Hr)). lia. }
    cbn [expand_props]. rewrite Hget.
    rewrite (expand_other_references d P s Hd Hget c Hself).
    fold (expanded_string d s). fold (assign_expanded d P s).
    set (c1 := match refs s with [] => c | _ => false end).
    assert (Hc1 : c1 = true -> c = true /\ refs s = []).
    { subst c1. destruct (refs s); [auto | discriminate]. }
    destruct (IH (assign_expanded d P s) c1 (seen ++ [P])%list)
      as (d2 & c2 & Hok & Hd2 & Hkeys & Hb2 & Hseen2 & Hc2 & HM2).
    + now apply plain_new.
    + intros p Hp. apply defined_set, Hdef. now right.
    + intros a n b Hch.
      destruct (chain_back d P s Hd Hget a b n Hch) as (n' & Hch' & Hle & _).
      pose proof (Hb a n' b Hch'). lia.
    + intros a n b Hin Hch.
      destruct (chain_back d P s Hd Hget a b n Hch) as (n' & Hch' & Hle & HP).
      apply in_app_or in Hin. destruct Hin as [Hin|[<-|[]]].
      * pose proof (Hseen a n' b Hin Hch'). lia.
      * destruct n as [|n]; [lia|].
        pose proof (Hb P n' b Hch'). specialize (HP eq_refl). lia.
    + intros E a b Hin Hr. destruct (Hc1 E) as [Ec Es].
      destruct (string_dec a P) as [->|Ha].
      * destruct (references_back_P d P s Hd Hget b Hr)
          as (Q & (v & Hv & HQ) & _).
        rewrite Hget in Hv. injection Hv as <-. cbn [value_refs] in HQ.
        now rewrite Es in HQ.
      * apply in_app_or in Hin. destruct Hin as [Hin|[E'|[]]]; [|congruence].
        apply (Hc Ec a b Hin).
        eapply references_kept_back; eauto.
    + intros E. subst c1. rewrite (HM E).
      destruct (refs s) as [|Q l] eqn:Es; [reflexivity|].
      assert (Hr : references d P Q).
      { exists (VStr s). split; [exact Hget|]. cbn [value_refs].
        rewrite Es. now left. }
      pose proof (Hb P 1%nat Q
                    (chain_cons d P Q Q 0%nat Hr (chain_nil d Q))). lia.
    + exists d2, c2. rewrite <- app_assoc in Hseen2, Hc2. cbn [app] in *.
      repeat split; auto.
      rewrite Hkeys. eapply keys_set; eauto.
Qed.

(** ** The loop *)

Lemma fixed_point_converges (M : nat) :
  forall d : Dict Value,
    plain d -> bounded d M ->
    exists d',
      keys d' = keys d /\ plain d' /\
      (forall a b, ~ references d' a b) /\
      forall more, fixed_point (S M + more) d = Converged d'.
Proof.
  induction M as [|M IH]; intros d Hd Hb.
  - destruct (pass_descends 0 (keys d) d true [] Hd (keys_defined d) Hb)
      as (d1 & c1 & Hok & Hd1 & Hkeys & Hb1 & _ & Hc1 & HM1);
      [contradiction | contradiction | reflexivity |].
    rewrite (HM1 eq_refl) in *.
    exists d1. repeat split; auto.
    + intros a b Hr. apply (Hc1 eq_refl a b); [|exact Hr].
      cbn [app]. rewrite <- Hkeys. eapply references_defined; eauto.
    + intros more. cbn [fixed_point Nat.add]. unfold pass. now rewrite Hok.
  - destruct (pass_descends (S M) (keys d) d true [] Hd (keys_defined d) Hb)
      as (d1 & c1 & Hok & Hd1 & Hkeys & Hb1 & Hseen1 & Hc1 & _);
      [contradiction | contradiction | discriminate |].
    cbn [app] in *. destruct c1.
    + exists d1. repeat split; auto.
      * intros a b Hr. apply (Hc1 eq_refl a b); [|exact Hr].
        rewrite <- Hkeys. eapply references_defined; eauto.
      * intros more. cbn [fixed_point Nat.add]. unfold pass.
        now rewrite Hok.
    + destruct (IH d1 Hd1) as (d2 & Hkeys2 & Hd2 & Hfree & Hfix).
      * intros a n b Hch. destruct n as [|n]; [lia|].
        assert (Hin : In a (keys d)).
        { rewrite <- Hkeys. inversion Hch; subst.
          eapply references_defined; eauto. }
        pose proof (Hseen1 a (S n) b Hin Hch). lia.
      * exists d2. repeat split; auto; [congruence|].
        intros more. specialize (Hfix more).
        cbn [fixed_point Nat.add] in *. unfold pass in *. now rewrite Hok.
Qed.

Lemma ranked_references (rank : string -> nat) (d : Dict Value)
  (a b : string) :
  ranked rank d = true -> references d a b -> (rank b < rank a)%nat.
Proof.
  intros H (v & Hget & Hin). apply dict_get_in in Hget.
  unfold ranked in H. rewrite forallb_forall in H.
  specialize (H _ Hget). cbn [fst snd] in H.
  rewrite forallb_forall in H. specialize (H b Hin).
  now apply Nat.ltb_lt in H.
Qed.

Lemma ranked_chain (rank : string -> nat) (d : Dict Value) :
  ranked rank d = true ->
  forall a n b, chain d a n b -> (n + rank b <= rank a)%nat.
Proof.
  intros H a n b Hch. induction Hch as [a|a x b n Hax Hxb IH]; [lia|].
  pose proof (ranked_references rank d a x H Hax). lia.
Qed.

Lemma rank_below_max (rank : string -> nat) (d : Dict Value) (a : string) :
  In a (keys d) -> (rank a <= max_rank rank d)%nat.
Proof.
  induction d as [|[k v] rest IH]; cbn; [contradiction|].
  intros [->|H]; [lia|]. specialize (IH H). unfold max_rank in IH. lia.
Qed.

Lemma ranked_bounded (rank : string -> nat) (d : Dict Value) :
  ranked rank d = true -> bounded d (max_rank rank d).
Proof.
  intros H a n b Hch. destruct n as [|n]; [lia|].
  pose proof (ranked_chain rank d H a (S n) b Hch).
  assert (Hin : In a (keys d)).
  { inversion Hch; subst. eapply references_defined; eauto. }
  pose proof (rank_below_max rank d a Hin). lia.
Qed.

(** X6.  Let every property of the dbgconfig document be a string in which
    each dollar outside a token opens a token, and let every referenced
    name be a property.  If the properties can be ranked so that every
    reference goes to a property of lower rank (so there is no reference
    cycle), the loop throws nothing and ends: after at most one pass more
    than the highest rank it has converged, whatever number of passes it
    is allowed beyond those, on a document with the same property names
    in which no property refers to another any more. *)
Theorem expandDbgConfig_converges_without_cycle :
  forall (rank : string -> nat) (debugConfig : Value) (d : Dict Value),
    plain_document d = true ->
    closed_document d = true ->
    ranked rank d = true ->
    exists d',
      keys d' = keys d /\
      (forall key v, dict_get d' key = Some v -> value_refs v = []) /\
      forall more,
        fixed_point (S (max_rank rank d) + more) d = Converged d' /\
        expandDbgConfig (S (max_rank rank d) + more) debugConfig d
        = match expandVariablesInObject debugConfig (final_expander d') true
          with
          | Ok v _ => Returned v
          | Throw e => Threw e
          end.
Proof.
  intros rank debugConfig d Hp Hc Hr.
  destruct (fixed_point_converges (max_rank rank d) d
              (plain_document_plain d Hp Hc) (ranked_bounded rank d Hr))
    as (d' & Hkeys & _ & Hfree & Hfix).
  exists d'. split; [exact Hkeys|]. split.
  - intros key v Hget. destruct (value_refs v) as [|b l] eqn:E; [reflexivity|].
    exfalso. apply (Hfree key b). exists v. split; [exact Hget|].
    rewrite E. now left.
  - intros more. split; [apply Hfix|].
    unfold expandDbgConfig. now rewrite Hfix.
Qed.

End AcyclicFacts.

Section LastExpansionFacts.
Import JS Expand ExpandMore.

Lemma find_app {A} (f : A -> bool) (l1 l2 : list A) :
  find f (l1 ++ l2)
  = match find f l1 with
    | Some x => Some x
    | None => find f l2
    end.
Proof.
  induction l1 as [|x l1 IH]; [reflexivity|].
  cbn. now destruct (f x).
Qed.

(** ** Names [dbgconfig] has no value for *)

Lemma replace_final (d : Dict Value) (segs : list Segment) (c : bool) :
  match find (fun key => negb (usable d key)) (segment_refs segs) with
  | Some key =>
      replace_segments segs (final_expander d) c
      = Throw (undefined_message key)
  | None => exists r, replace_segments segs (final_expander d) c = Ok r c
  end.
Proof.
  induction segs as [|[text|all [t|] key] rest IH].
  - cbn. eauto.
  - cbn [segment_refs dbgconfig_key replace_segments].
    destruct (find _ (segment_refs rest)) as [k|].
    + now rewrite IH.
    + destruct IH as [r ->]. eauto.
  - cbn [segment_refs dbgconfig_key replace_segments final_expander].
    destruct (t =? "dbgconfig")%string.
    + cbn [find]. unfold usable.
      destruct (dict_get d key) as [[| |b|n|s|items|props]|];
        cbn [negb]; try reflexivity;
        (destruct (find _ (segment_refs rest)) as [k|];
         [now rewrite IH | destruct IH as [r ->]; eauto]).
    + destruct (find _ (segment_refs rest)) as [k|].
      * now rewrite IH.
      * destruct IH as [r ->]. eauto.
  - cbn [segment_refs dbgconfig_key replace_segments final_expander].
    destruct (find _ (segment_refs rest)) as [k|].
    + now rewrite IH.
    + destruct IH as [r ->]. eauto.
Qed.

Lemma expandVariablesInObject_final (d : Dict Value) (v : Value) :
  forall c : bool,
    match first_unusable d v with
    | Some key =>
        expandVariablesInObject v (final_expander d) c
        = Throw (undefined_message key)
    | None =>
        exists v', expandVariablesInObject v (final_expander d) c = Ok v' c
    end.
Proof.
  unfold first_unusable.
  induction v as [| |b|r|s|items IH|props IH] using Value_nested_ind;
    intros c; try (cbn; eauto; fail).
  - cbn [value_refs expandVariablesInObject]. unfold expandVariables, refs.
    pose proof (replace_final d (scan Outside s) c) as H.
    destruct (find _ (segment_refs (scan Outside s))) as [k|].
    + now rewrite H.
    + destruct H as [r ->]. eauto.
  - cbn [value_refs expandVariablesInObject].
    assert (H : match find (fun key => negb (usable d key))
                           ((fix all (l : list Value) : list string :=
                               match l with
                               | [] => []
                               | x :: rest => (value_refs x ++ all rest)%list
                               end) items) with
                | Some key =>
                    (fix each (l : list Value) (converged : bool)
                       : Result (list Value) :=
                       match l with
                       | [] => Ok [] converged
                       | v :: rest =>
                           match expandVariablesInObject v (final_expander d)
                                                         converged with
                           | Throw e => Throw e
                           | Ok v' c =>
                               match each rest c with
                               | Ok rest' c' => Ok (v' :: rest') c'
                               | Throw e => Throw e
                               end
                           end
                       end) items c = Throw (undefined_message key)
                | None =>
                    exists items',
                    (fix each (l : list Value) (converged : bool)
                       : Result (list Value) :=
                       match l with
                       | [] => Ok [] converged
                       | v :: rest =>
                           match expandVariablesInObject v (final_expander d)
                                                         converged with
                           | Throw e => Throw e
                           | Ok v' c =>
                               match each rest c with
                               | Ok rest' c' => Ok (v' :: rest') c'
                               | Throw e => Throw e
                               end
                           end
                       end) items c = Ok items' c
                end).
    { induction IH as [|x rest Hx Hrest IHrest]; [cbn; eauto|].
      rewrite find_app. specialize (Hx c).
      destruct (find _ (value_refs x)) as [k|].
      - now rewrite Hx.
      - destruct Hx as [x' ->].
        destruct (find _ _) as [k|].
        + now rewrite IHrest.
        + destruct IHrest as [rest' ->]. eauto. }
    destruct (find _ _) as [k|].
    + now rewrite H.
    + destruct H as [items' ->]. eauto.
  - cbn [value_refs expandVariablesInObject].
    assert (H : match find (fun key => negb (usable d key))
                           ((fix all (l : list (string * Value))
                               : list string :=
                               match l with
                               | [] => []
                               | (_, x) :: rest =>
                                   (value_refs x ++ all rest)%list
                               end) props) with
                | Some key =>
                    (fix each (l : list (string * Value)) (converged : bool)
                       : Result (list (string * Value)) :=
                       match l with
                       | [] => Ok [] converged
                       | (prop, v) :: rest =>
                           match expandVariablesInObject v (final_expander d)
                                                         converged with
                           | Throw e => Throw e
                           | Ok v' c =>
                               match each rest c with
                               | Ok rest' c' => Ok ((prop, v') :: rest') c'
                               | Throw e => Throw e
                               end
                           end
                       end) props c = Throw (undefined_message key)
                | None =>
                    exists props',
                    (fix each (l : list (string * Value)) (converged : bool)
                       : Result (list (string * Value)) :=
                       match l with
                       | [] => Ok [] converged
                       | (prop, v) :: rest =>
                           match expandVariablesInObject v (final_expander d)
                                                         converged with
                           | Throw e => Throw e
                           | Ok v' c =>
                               match each rest c with
                               | Ok rest' c' => Ok ((prop, v') :: rest') c'
                               | Throw e => Throw e
                               end
                           end
                       end) props c = Ok props' c
                end).
    { induction IH as [|[p x] rest Hx Hrest IHrest]; [cbn; eauto|].
      cbn [snd] in Hx.
      rewrite find_app. specialize (Hx c).
      destruct (find _ (value_refs x)) as [k|].
      - now rewrite Hx.
      - destruct Hx as [x' ->].
        destruct (find _ _) as [k|].
        + now rewrite IHrest.
        + destruct IHrest as [rest' ->]. eauto. }
    destruct (find _ _) as [k|].
    + now rewrite H.
    + destruct H as [props' ->]. eauto.
Qed.

(** X7.  Once the loop has converged, take the first [${dbgconfig:NAME}]
    of the launch configuration, in the order of its properties and of
    the text, whose NAME the document has no property for, or has [null]
    for.  If NAME is not the name of a member of [Object.prototype] (which
    the document would inherit, and the code would then find),
    [expandDbgConfig] throws 'dbgconfig:NAME is not defined'.  When every
    reference has a value in the document itself, it returns. *)
Theorem expandDbgConfig_first_undefined_name :
  forall (fuel : nat) (debugConfig : Value)
         (dbgconfigConfig dbgconfig : Dict Value),
    fixed_point fuel dbgconfigConfig = Converged dbgconfig ->
    match first_unusable dbgconfig debugConfig with
    | Some key =>
        prototype_name key = false ->
        expandDbgConfig fuel debugConfig dbgconfigConfig
        = Threw (undefined_message key)
    | None =>
        exists v,
          expandDbgConfig fuel debugConfig dbgconfigConfig = Returned v
    end.
Proof.
  intros fuel debugConfig dbgconfigConfig dbgconfig H.
  unfold expandDbgConfig. rewrite H.
  pose proof (expandVariablesInObject_final dbgconfig debugConfig true) as E.
  destruct (first_unusable dbgconfig debugConfig) as [key|].
  - intros _. now rewrite E.
  - destruct E as [v ->]. eauto.
Qed.

(** ** Tokens of other kinds *)

(** The callback answers [null] to every token that is no
    [${dbgconfig:...}]. *)
Lemma replace_other_tokens (expander : Expander) (segs : list Segment)
  (c : bool) :
  (forall all type key c,
      dbgconfig_key (Tok all type key) = None ->
      expander type key c = Ok None c) ->
  segment_refs segs = [] ->
  replace_segments segs expander c = Ok (segments_text segs) c.
Proof.
  intros He. induction segs as [|[text|all type key] rest IH]; intros H.
  - reflexivity.
  - cbn in *. fold (segments_text rest). now rewrite IH.
  - cbn [segment_refs] in H.
    destruct (dbgconfig_key (Tok all type key)) eqn:E; [discriminate|].
    cbn [replace_segments]. rewrite (He all type key c E), (IH H).
    reflexivity.
Qed.

Lemma expandVariablesInObject_other_tokens (expander : Expander) (v : Value) :
  (forall all type key c,
      dbgconfig_key (Tok all type key) = None ->
      expander type key c = Ok None c) ->
  forall c : bool,
    value_refs v = [] -> expandVariablesInObject v expander c = Ok v c.
Proof.
  intros He.
  induction v as [| |b|r|s|items IH|props IH] using Value_nested_ind;
    intros c H; try reflexivity.
  - cbn [expandVariablesInObject value_refs] in *. unfold expandVariables.
    rewrite replace_other_tokens by assumption. now rewrite scan_text.
  - cbn [expandVariablesInObject value_refs] in *.
    induction IH as [|x rest Hx Hrest IHrest]; [reflexivity|].
    apply app_eq_nil in H. destruct H as [H1 H2].
    rewrite Hx by exact H1. specialize (IHrest H2).
    destruct ((fix each (l : list Value) (converged0 : bool) {struct l} :
                 Result (list Value) := _) rest c)
      as [rest' c'|e]; [|discriminate].
    now injection IHrest as -> ->.
  - cbn [expandVariablesInObject value_refs] in *.
    induction IH as [|[k x] rest Hx Hrest IHrest]; [reflexivity|].
    apply app_eq_nil in H. destruct H as [H1 H2]. cbn [snd] in Hx.
    rewrite Hx by exact H1. specialize (IHrest H2).
    destruct ((fix each (l : list (string * Value)) (converged0 : bool)
                 {struct l} : Result (list (string * Value)) := _) rest c)
      as [rest' c'|e]; [|discriminate].
    now injection IHrest as -> ->.
Qed.

Lemma loop_expander_only (d : Dict Value) (P : string) :
  forall all type key c,
    dbgconfig_key (Tok all type key) = None ->
    loop_expander d P type key c = Ok None c.
Proof.
  intros all type key c H. eapply loop_expander_other; eauto.
Qed.

Lemma final_expander_only (d : Dict Value) :
  forall all type key c,
    dbgconfig_key (Tok all type key) = None ->
    final_expander d type key c = Ok None c.
Proof.
  intros all [t|] key c H; [|reflexivity]. cbn in *.
  destruct (t =? "dbgconfig")%string; [discriminate | reflexivity].
Qed.

Lemma dict_get_reference_free (d : Dict Value) (key : string) (v : Value) :
  reference_free d = true -> dict_get d key = Some v -> value_refs v = [].
Proof.
  intros H Hget. apply dict_get_in in Hget.
  unfold reference_free in H. rewrite forallb_forall in H.
  specialize (H _ Hget). cbn [snd] in H.
  now destruct (value_refs v).
Qed.

Lemma expand_props_reference_free (props : list string) (d : Dict Value)
  (c : bool) :
  reference_free d = true ->
  (forall prop, In prop props -> In prop (keys d)) ->
  expand_props props d c = Ok d c.
Proof.
  intros Hd. induction props as [|prop rest IH]; intros Hin; [reflexivity|].
  cbn [expand_props].
  destruct (dict_get_key d prop (Hin prop (or_introl eq_refl))) as [v Hv].
  rewrite Hv.
  rewrite (expandVariablesInObject_other_tokens _ v (loop_expander_only d prop))
    by (eapply dict_get_reference_free; eassumption).
  rewrite dict_set_same by exact Hv.
  apply IH. intros p Hp. apply Hin. now right.
Qed.

(** X8.  [expandDbgConfig] expands [${dbgconfig:...}] and nothing else:
    when neither the document nor the launch configuration holds such a
    token, the loop stops after one pass on the document as it was and the
    launch configuration is returned as it was, whatever other tokens
    ([${env:HOME}], [${workspaceFolder}], ...) its strings hold. *)
Theorem expandDbgConfig_leaves_other_tokens :
  forall (fuel : nat) (debugConfig : Value) (dbgconfigConfig : Dict Value),
    value_refs debugConfig = [] ->
    reference_free dbgconfigConfig = true ->
    fixed_point (S fuel) dbgconfigConfig = Converged dbgconfigConfig /\
    expandDbgConfig (S fuel) debugConfig dbgconfigConfig
    = Returned debugConfig.
Proof.
  intros fuel debugConfig d Hc Hd.
  assert (Hfix : fixed_point (S fuel) d = Converged d).
  { cbn [fixed_point]. unfold pass.
    now rewrite expand_props_reference_free. }
  split; [exact Hfix|].
  unfold expandDbgConfig. rewrite Hfix.
  now rewrite (expandVariablesInObject_other_tokens _ debugConfig
                 (final_expander_only d)).
Qed.

End LastExpansionFacts.

Section ExpandMoreExamples.
Import JS Expand ExpandMore.

Lemma expandDbgConfig_converges_without_cycle_witness :
  let d :=
    [("bin", VStr "${dbgconfig:build}/bin:${dbgconfig:root}/${env:X}");
     ("build", VStr "${dbgconfig:root}/build");
     ("root", VStr "/home/me")] in
  let rank := fun key : string =>
    if (key =? "bin")%string then 2%nat
    else if (key =? "build")%string then 1%nat else 0%nat in
  let debugConfig := VObj [("program", VStr "${dbgconfig:bin}/app")] in
  exists d',
    keys d' = keys d /\
    (forall key v, dict_get d' key = Some v -> value_refs v = []) /\
    forall more,
      fixed_point (S (max_rank rank d) + more) d = Converged d' /\
      expandDbgConfig (S (max_rank rank d) + more) debugConfig d
      = match expandVariablesInObject debugConfig (final_expander d') true
        with
        | Ok v _ => Returned v
        | Throw e => Threw e
        end.
Proof.
  intros d rank debugConfig.
  apply (expandDbgConfig_converges_without_cycle rank debugConfig d);
    reflexivity.
Defined.

Lemma expandDbgConfig_first_undefined_name_witness :
  let dbgconfig := [("root", VStr "/home/me"); ("sdk", VNull)] in
  let debugConfig :=
    VObj [("cwd", VStr "${dbgconfig:root}");
          ("args", VArr [VStr "${env:X}"; VStr "${dbgconfig:nowhere}/bin"]);
          ("program", VStr "${dbgconfig:sdk}")] in
  expandDbgConfig 1 debugConfig dbgconfig
  = Threw "dbgconfig:nowhere is not defined".
Proof.
  intros dbgconfig debugConfig.
  apply (expandDbgConfig_first_undefined_name 1 debugConfig dbgconfig
           dbgconfig eq_refl).
  reflexivity.
Defined.

Lemma expandDbgConfig_leaves_other_tokens_witness :
  let dbgconfig := [("root", VStr "${env:HOME}/src"); ("n", VNum "3")] in
  let debugConfig :=
    VObj [("program", VStr "${workspaceFolder}/a.out");
          ("args", VArr [VStr "${config:lldb.x}"; VStr "${dbgconfig}"])] in
  fixed_point 4 dbgconfig = Converged dbgconfig /\
  expandDbgConfig 4 debugConfig dbgconfig = Returned debugConfig.
Proof.
  intros dbgconfig debugConfig.
  apply (expandDbgConfig_leaves_other_tokens 3 debugConfig dbgconfig);
    reflexivity.
Defined.

End ExpandMoreExamples.

Section HelpersFacts.
Import JS Text Helpers.

(** ** Searching a text line by line *)

Lemma index_of_includes (s sub : string) :
  (0 <=? index_of s sub) = includes s sub.
Proof.
  induction s as [|c s IH]; cbn [index_of includes].
  - destruct (starts_with "" sub); reflexivity.
  - destruct (starts_with (String c s) sub); [reflexivity|].
    cbn [orb]. rewrite <- IH.
    destruct (index_of s sub <? 0) eqn:E.
    + apply Z.ltb_lt in E. symmetry. apply Z.leb_gt. exact E.
    + apply Z.ltb_ge in E.
      transitivity true; [apply Z.leb_le; lia | symmetry; now apply Z.leb_le].
Qed.

Lemma split_lines_cons (data : string) :
  exists line lines, split_lines data = line :: lines.
Proof.
  destruct data as [|c rest]; cbn; [eauto|].
  destruct (Ascii.eqb c newline); [eauto|].
  destruct (split_lines rest); eauto.
Qed.

Lemma search_from (lines : list string) (marker : string) :
  forall i : Z,
    match search lines marker i with
    | Line n =>
        exists before line after,
          lines = (before ++ line :: after)%list /\
          n = i + Z.of_nat (List.length before) + 1 /\
          includes line marker = true /\
          forallb (fun l => negb (includes l marker)) before = true
    | MarkerNotFound =>
        forallb (fun l => negb (includes l marker)) lines = true
    end.
Proof.
  induction lines as [|line rest IH]; intros i; cbn [search]; [reflexivity|].
  rewrite index_of_includes.
  destruct (includes line marker) eqn:E.
  - exists [], line, rest. cbn. repeat split; [lia | exact E].
  - specialize (IH (i + 1)).
    destruct (search rest marker (i + 1)) as [n|].
    + destruct IH as (before & l & after & -> & Hn & Hl & Hb).
      exists (line :: before), l, after. cbn [app List.length forallb].
      rewrite E, Hb. repeat split; [lia | exact Hl].
    + cbn [forallb]. now rewrite E, IH.
Qed.

(** X9.  [findMarker] returns the number, counted from 1, of the first
    line of the file that contains the marker, and throws 'Marker not
    found' exactly when no line contains it. *)
Theorem findMarker_first_line :
  forall (data marker : string),
    match findMarker data marker with
    | Line n =>
        exists before line after,
          split_lines data = (before ++ line :: after)%list /\
          n = Z.of_nat (List.length before) + 1 /\
          includes line marker = true /\
          forallb (fun l => negb (includes l marker)) before = true
    | MarkerNotFound =>
        forallb (fun l => negb (includes l marker)) (split_lines data) = true
    end.
Proof.
  intros data marker. unfold findMarker.
  pose proof (search_from (split_lines data) marker 0) as H.
  destruct (search (split_lines data) marker 0) as [n|]; [|exact H].
  destruct H as (before & line & after & H1 & H2 & H3 & H4).
  exists before, line, after. repeat split; auto.
Qed.

(** A marker without a newline starts a text where it starts the first
    line of it. *)
Lemma starts_with_first_line (marker : string) :
  forall (data line : string) (lines : list string),
    has_newline marker = false ->
    split_lines data = line :: lines ->
    starts_with data marker = starts_with line marker.
Proof.
  induction marker as [|a marker IH]; intros data line lines Hm Hs;
    [now destruct data, line|].
  cbn in Hm. apply orb_false_iff in Hm. destruct Hm as [Ha Hm].
  destruct data as [|c rest].
  - cbn in Hs. now injection Hs as <- <-.
  - cbn [split_lines] in Hs. destruct (Ascii.eqb c newline) eqn:Ec.
    + injection Hs as <- <-. cbn [starts_with].
      apply Ascii.eqb_eq in Ec. subst c.
      unfold newline in *. now rewrite Ha.
    + destruct (split_lines_cons rest) as (l & ls & Hl).
      rewrite Hl in Hs. injection Hs as <- <-. cbn [starts_with].
      now rewrite (IH rest l ls Hm Hl).
Qed.

Lemma any_line_includes (marker : string) :
  has_newline marker = false ->
  forall data : string,
    existsb (fun l => includes l marker) (split_lines data)
    = includes data marker.
Proof.
  intros Hm. induction data as [|c rest IH]; [cbn; now rewrite orb_false_r|].
  destruct (split_lines_cons (String c rest)) as (line & lines & Hs).
  rewrite Hs. cbn [existsb includes].
  rewrite (starts_with_first_line marker _ line lines Hm Hs).
  cbn [split_lines] in Hs. rewrite <- IH.
  destruct (Ascii.eqb c newline) eqn:Ec.
  - injection Hs as <- <-. cbn [includes]. now rewrite !orb_false_r.
  - destruct (split_lines_cons rest) as (l & ls & Hl).
    rewrite Hl in *. injection Hs as <- <-.
    cbn [existsb includes].
    now rewrite orb_assoc.
Qed.

Lemma search_found (lines : list string) (marker : string) :
  forall i : Z,
    search lines marker i <> MarkerNotFound <->
    existsb (fun l => includes l marker) lines = true.
Proof.
  induction lines as [|line rest IH]; intros i; cbn [search existsb].
  - split; [congruence | discriminate].
  - rewrite index_of_includes. destruct (includes line marker); cbn [orb].
    + split; [reflexivity | discriminate].
    + apply IH.
Qed.

Lemma line_has_no_newline (data : string) :
  Forall (fun l => has_newline l = false) (split_lines data).
Proof.
  induction data as [|c rest IH]; [repeat constructor|].
  cbn [split_lines]. destruct (Ascii.eqb c newline) eqn:Ec.
  - constructor; [reflexivity | exact IH].
  - destruct (split_lines rest) as [|l ls].
    + repeat constructor. unfold has_newline. cbn [Expand.has_char].
      now rewrite Ec.
    + inversion IH as [|x xs Hl Hls]; subst. constructor; [|assumption].
      unfold has_newline in *. cbn [Expand.has_char]. now rewrite Ec, Hl.
Qed.

Lemma starts_with_has_newline (marker line : string) :
  has_newline marker = true -> has_newline line = false ->
  starts_with line marker = false.
Proof.
  revert line. induction marker as [|a marker IH]; intros line Hm Hl;
    [discriminate|].
  destruct line as [|c line]; [reflexivity|].
  cbn in *. apply orb_false_iff in Hl. destruct Hl as [Hc Hl].
  destruct (Ascii.eqb a c) eqn:E; [|reflexivity].
  apply Ascii.eqb_eq in E. subst c. rewrite Hc in Hm. cbn in *. auto.
Qed.

Lemma includes_has_newline (marker line : string) :
  has_newline marker = true -> has_newline line = false ->
  includes line marker = false.
Proof.
  intros Hm. induction line as [|c line IH]; intros Hl; cbn [includes].
  - rewrite starts_with_has_newline by assumption. reflexivity.
  - rewrite starts_with_has_newline by assumption.
    cbn in Hl. apply orb_false_iff in Hl. now apply IH.
Qed.

(** X10.  A marker in which there is no newline is found exactly when the
    text of the file contains it; a marker in which there is one is never
    found, wherever it stands in the file. *)
Theorem findMarker_found_iff_contained :
  forall (data marker : string),
    (has_newline marker = false ->
     (findMarker data marker <> MarkerNotFound <->
      includes data marker = true)) /\
    (has_newline marker = true -> findMarker data marker = MarkerNotFound).
Proof.
  intros data marker. split; intros Hm.
  - unfold findMarker. rewrite search_found. now rewrite any_line_includes.
  - unfold findMarker.
    destruct (search (split_lines data) marker 0) eqn:E; [|reflexivity].
    exfalso.
    assert (H : search (split_lines data) marker 0 <> MarkerNotFound)
      by congruence.
    apply search_found in H. apply existsb_exists in H.
    destruct H as (l & Hin & Hl).
    pose proof (line_has_no_newline data) as HF.
    rewrite Forall_forall in HF.
    rewrite (includes_has_newline marker l Hm (HF l Hin)) in Hl.
    discriminate.
Qed.

End HelpersFacts.

Section PaddingFacts.
Import JS Text Helpers.

Lemma length_append (a b : string) :
  String.length (a ++ b) = (String.length a + String.length b)%nat.
Proof. induction a as [|c a IH]; cbn; [reflexivity | now rewrite IH]. Qed.

Lemma length_repeat (p : string) (k : nat) :
  String.length (repeat p k) = (k * String.length p)%nat.
Proof.
  induction k as [|k IH]; cbn [repeat]; [reflexivity|].
  rewrite length_append, IH. cbn. lia.
Qed.

Lemma repeat_empty (k : nat) : repeat "" k = "".
Proof. induction k as [|k IH]; cbn [repeat]; [reflexivity | now rewrite IH]. Qed.

Lemma leftPad_prefix (s p : string) (n : Z) :
  exists k, leftPad s p n = repeat p k ++ s.
Proof.
  unfold leftPad. destruct (_ <? n); [eauto | now exists 0%nat].
Qed.

Lemma leftPad_length (s p : string) (n : Z) :
  String.length p = 1%nat ->
  Z.of_nat (String.length (leftPad s p n))
  = Z.max (Z.of_nat (String.length s)) n.
Proof.
  intros Hp. unfold leftPad.
  destruct (Z.of_nat (String.length s) <? n) eqn:E.
  - apply Z.ltb_lt in E. rewrite length_append, length_repeat, Hp. lia.
  - apply Z.ltb_ge in E. lia.
Qed.

Lemma leftPad_long (s p : string) (n : Z) :
  n <= Z.of_nat (String.length s) -> leftPad s p n = s.
Proof.
  intros H. unfold leftPad.
  destruct (Z.of_nat (String.length s) <? n) eqn:E; [|reflexivity].
  apply Z.ltb_lt in E. lia.
Qed.

Lemma leftPad_empty (s : string) (n : Z) : leftPad s "" n = s.
Proof.
  unfold leftPad. destruct (_ <? n); [|reflexivity].
  now rewrite repeat_empty.
Qed.

(** X11.  [leftPad] puts copies of the padding in front of the string and
    nothing else; padding what is already padded changes nothing; with a
    padding of one character the result is as long as the longer of the
    string and the width asked for. *)
Theorem leftPad_pads_once :
  forall (s p : string) (n : Z),
    (exists k, leftPad s p n = repeat p k ++ s) /\
    leftPad (leftPad s p n) p n = leftPad s p n /\
    (String.length p = 1%nat ->
     Z.of_nat (String.length (leftPad s p n))
     = Z.max (Z.of_nat (String.length s)) n).
Proof.
  intros s p n. split; [apply leftPad_prefix|].
  split; [|apply leftPad_length].
  destruct p as [|c p]; [now rewrite !leftPad_empty|].
  apply leftPad_long. unfold leftPad.
  destruct (Z.of_nat (String.length s) <? n) eqn:E.
  - apply Z.ltb_lt in E. rewrite length_append, length_repeat.
    cbn [String.length]. nia.
  - apply Z.ltb_ge in E. exact E.
Qed.

Lemma two_digits (z : Z) :
  0 <= z < 100 ->
  exists a b,
    leftPad (string_of_Z z) "0" 2 = String a (String b "") /\
    is_digit a = true /\ is_digit b = true /\
    10 * digit_value a + digit_value b = z.
Proof.
  intros H.
  set (check := fun k : nat =>
         let a := ascii_of_nat (48 + k / 10) in
         let b := ascii_of_nat (48 + k mod 10) in
         (leftPad (string_of_Z (Z.of_nat k)) "0" 2 =? String a (String b ""))%string
         && is_digit a && is_digit b
         && (10 * digit_value a + digit_value b =? Z.of_nat k)).
  assert (Hall : forallb check (seq 0 100) = true) by (vm_compute; reflexivity).
  rewrite forallb_forall in Hall.
  specialize (Hall (Z.to_nat z)).
  rewrite in_seq in Hall. specialize (Hall ltac:(lia)).
  subst check. cbv beta zeta in Hall. rewrite Z2Nat.id in Hall by lia.
  repeat (apply andb_true_iff in Hall; destruct Hall as [Hall ?]).
  apply String.eqb_eq in Hall. apply Z.eqb_eq in H0.
  eauto 10.
Qed.

(** X12.  For a time of day, the line [log] writes starts with the time
    stamp in the fixed layout [[hh:mm:ss] ]: two decimal digits for each
    of the hours, the minutes and the seconds, which read back as those
    numbers, followed by the message. *)
Theorem log_time_stamp :
  forall (hours minutes seconds : Z) (message : string),
    0 <= hours < 24 -> 0 <= minutes < 60 -> 0 <= seconds < 60 ->
    exists h1 h2 m1 m2 s1 s2,
      log_line hours minutes seconds message
      = String "[" (String h1 (String h2 (String ":" (String m1 (String m2
          (String ":" (String s1 (String s2 (String "]" (String " "
             message)))))))))) /\
      forallb is_digit [h1; h2; m1; m2; s1; s2] = true /\
      10 * digit_value h1 + digit_value h2 = hours /\
      10 * digit_value m1 + digit_value m2 = minutes /\
      10 * digit_value s1 + digit_value s2 = seconds.
Proof.
  intros hours minutes seconds message Hh Hm Hs.
  destruct (two_digits hours) as (h1 & h2 & Eh & Dh1 & Dh2 & Vh); [lia|].
  destruct (two_digits minutes) as (m1 & m2 & Em & Dm1 & Dm2 & Vm); [lia|].
  destruct (two_digits seconds) as (s1 & s2 & Es & Ds1 & Ds2 & Vs); [lia|].
  exists h1, h2, m1, m2, s1, s2. unfold log_line.
  rewrite Eh, Em, Es. cbn [append forallb].
  rewrite Dh1, Dh2, Dm1, Dm2, Ds1, Ds2. repeat split; auto.
Qed.

End PaddingFacts.

Section WithTimeoutFacts.
Import JS Helpers.

Variable T : Type.

Lemma timeout_step_inv (st : State T) (e : Event T) :
  timeout_inv st -> timeout_inv (step st e).
Proof.
  intros H. pose proof H as (Ht & Hr & Hl).
  destruct e as [result|reason|]; cbn [step].
  - destruct (inner_pending st); [|exact H].
    unfold on_fulfilled, timeout_inv. cbn.
    destruct (promise st) as [|v|r] eqn:E; cbn.
    + split; [split; discriminate|]. split; [discriminate | exact Hl].
    + split; [split; discriminate|]. split; [discriminate | exact Hl].
    + split; [split; discriminate|]. split; [exact Hr | exact Hl].
  - exact H.
  - destruct (timer st) eqn:E; [|exact H].
    assert (Hp : promise st = Pending) by now apply Ht.
    unfold on_timeout, timeout_inv. cbn. rewrite Hp in *. cbn.
    rewrite Hl. split; [split; discriminate|].
    split; [now intros r [= <-] | reflexivity].
Qed.

Lemma timeout_run_inv (es : list (Event T)) :
  forall st, timeout_inv st -> timeout_inv (run es st).
Proof.
  induction es as [|e es IH]; intros st H; [exact H|].
  cbn. apply IH. now apply timeout_step_inv.
Qed.

Lemma timeout_init_inv : timeout_inv (@init T).
Proof. unfold timeout_inv. cbn. repeat split; auto; discriminate. Qed.

Lemma timeout_resolved_from (es : list (Event T)) :
  forall st v,
    promise (run es st) = Resolved v ->
    promise st = Resolved v \/ In (Fulfilled v) es.
Proof.
  induction es as [|e es IH]; intros st v H; [now left|].
  cbn [run fold_left] in H. fold (run es (step st e)) in H.
  destruct (IH _ _ H) as [Hs|Hin]; [|right; now right].
  destruct e as [result|reason|]; cbn [step] in Hs.
  - destruct (inner_pending st); [|now left].
    cbn in Hs. destruct (promise st); cbn in Hs; try discriminate.
    + injection Hs as <-. right. now left.
    + now left.
  - now left.
  - destruct (timer st); [|now left].
    cbn in Hs. destruct (promise st); cbn in Hs; try discriminate.
    now left.
Qed.

Lemma timeout_rejected_from (es : list (Event T)) :
  forall st r,
    promise (run es st) = Rejected r ->
    promise st = Rejected r \/ In TimerDue es.
Proof.
  induction es as [|e es IH]; intros st r H; [now left|].
  cbn [run fold_left] in H. fold (run es (step st e)) in H.
  destruct (IH _ _ H) as [Hs|Hin]; [|right; now right].
  destruct e as [result|reason|]; cbn [step] in Hs.
  - destruct (inner_pending st); [|now left].
    cbn in Hs. destruct (promise st); cbn in Hs; try discriminate.
    now left.
  - now left.
  - right. now left.
Qed.

Lemma timeout_step_settled (st : State T) (e : Event T) :
  promise st <> Pending -> promise (step st e) = promise st.
Proof.
  intros H. destruct e as [result|reason|]; cbn [step].
  - destruct (inner_pending st); [|reflexivity].
    cbn. now destruct (promise st).
  - reflexivity.
  - destruct (timer st); [|reflexivity]. cbn. now destruct (promise st).
Qed.

Lemma timeout_run_settled (es : list (Event T)) :
  forall st, promise st <> Pending -> promise (run es st) = promise st.
Proof.
  induction es as [|e es IH]; intros st H; [reflexivity|].
  cbn [run fold_left]. fold (run es (step st e)).
  rewrite IH; rewrite timeout_step_settled; auto.
Qed.

(** Once the inner promise is rejected, only the timer matters. *)
Lemma timeout_after_inner (es : list (Event T)) :
  forall st,
    inner_pending st = false -> timer st = true -> promise st = Pending ->
    (~ In TimerDue es -> promise (run es st) = Pending) /\
    (In TimerDue es -> promise (run es st) = Rejected timed_out).
Proof.
  induction es as [|e es IH]; intros st Hi Ht Hp.
  - split; [now intros _ | contradiction].
  - cbn [run fold_left]. fold (run es (step st e)).
    destruct e as [result|reason|]; cbn [step].
    + rewrite Hi. destruct (IH st Hi Ht Hp) as [H1 H2]. split.
      * intros Hn. apply H1. intros H. apply Hn. now right.
      * intros [E|Hin]; [discriminate | now apply H2].
    + destruct (IH {| timer := timer st; inner_pending := false;
                      promise := promise st; logged := logged st |}
                   eq_refl Ht Hp) as [H1 H2]. split.
      * intros Hn. apply H1. intros H. apply Hn. now right.
      * intros [E|Hin]; [discriminate | now apply H2].
    + rewrite Ht. split; [intros Hn; exfalso; apply Hn; now left|].
      intros _. rewrite timeout_run_settled; cbn; rewrite Hp; cbn;
        [reflexivity | discriminate].
Qed.

(** X13.  The promise [withTimeout] returns is rejected only by the timer,
    with the error 'Timed out' (code 'Timeout'), and resolved only with
    the result of the inner promise.  A rejection of the inner promise is
    never passed on: after it the promise stays pending until the timer
    fires, and is then rejected with 'Timed out'.  The message
    'withTimeout: timed out' is logged once, exactly when the promise is
    rejected. *)
Theorem withTimeout_outcome :
  forall es : list (Event T),
    (forall r, promise (run es init) = Rejected r ->
               r = timed_out /\ In TimerDue es) /\
    (forall v, promise (run es init) = Resolved v -> In (Fulfilled v) es) /\
    (forall reason rest,
        es = InnerRejected reason :: rest ->
        (~ In TimerDue rest -> promise (run es init) = Pending) /\
        (In TimerDue rest -> promise (run es init) = Rejected timed_out)) /\
    logged (run es init)
    = match promise (run es init) with
      | Rejected _ => ["withTimeout: timed out"]
      | _ => []
      end.
Proof.
  intros es.
  pose proof (timeout_run_inv es init timeout_init_inv) as (_ & Hr & Hl).
  split; [|split; [|split; [|exact Hl]]].
  - intros r H. split; [now apply Hr|].
    destruct (timeout_rejected_from es init r H) as [E|E];
      [discriminate | exact E].
  - intros v H.
    destruct (timeout_resolved_from es init v H) as [E|E];
      [discriminate | exact E].
  - intros reason rest ->. cbn [run fold_left step].
    apply (timeout_after_inner rest); reflexivity.
Qed.

End WithTimeoutFacts.

Section HelpersExamples.
Import JS Text Helpers.

Lemma log_time_stamp_witness :
  exists h1 h2 m1 m2 s1 s2,
    log_line 9 5 42 "Stopping adapter."
    = String "[" (String h1 (String h2 (String ":" (String m1 (String m2
        (String ":" (String s1 (String s2 (String "]" (String " "
           "Stopping adapter.")))))))))) /\
    forallb is_digit [h1; h2; m1; m2; s1; s2] = true /\
    10 * digit_value h1 + digit_value h2 = 9 /\
    10 * digit_value m1 + digit_value m2 = 5 /\
    10 * digit_value s1 + digit_value s2 = 42.
Proof.
  apply (log_time_stamp 9 5 42 "Stopping adapter."); lia.
Defined.

End HelpersExamples.

Section DictContainsFacts.
Import JS CompareVariables DictContains.

Variable variablesRequest : Z -> option (list VariableNode).

(** The two dictionaries built from a response have the same names, and
    [readVariables] keeps the value of each variable. *)
Lemma read_vars_of (variables : list VariableNode) :
  forall (vars : Dict VariableNode) (dict : Dict string),
    (forall k, dict_get dict k = option_map value (dict_get vars k)) ->
    forall k,
      dict_get (fold_left (fun d v => dict_set d (name v) (value v))
                          variables dict) k
      = option_map value
          (dict_get (fold_left (fun d v => dict_set d (name v) v)
                               variables vars) k).
Proof.
  induction variables as [|v rest IH]; intros vars dict H k; [apply H|].
  cbn [fold_left]. apply IH. intros k'. rewrite !dict_get_set.
  destruct (name v =? k')%string; [reflexivity | apply H].
Qed.

(** X14.  For a variables reference other than 0 and an expectation that
    is a flat object of strings (no [$] key), [compareVariables] and
    [assertDictContains] on what [readVariables] returns agree: if the
    request is rejected both fail; otherwise one passes exactly when the
    other does, and when they fail, they fail at the same key.
    [compareVariables] issues the one request [readVariables] issues. *)
Theorem compareVariables_agrees_with_assertDictContains :
  forall (varRef : Z) (expected : list (string * Expected)),
    varRef <> 0 ->
    flat_strings expected = true ->
    match readVariables variablesRequest varRef with
    | None =>
        compareVariables variablesRequest varRef (EObj expected) "" []
        = (Threw (RequestFailed varRef), [varRef])
    | Some dict =>
        match assertDictContains dict expected with
        | Contained =>
            compareVariables variablesRequest varRef (EObj expected) "" []
            = (Passed, [varRef])
        | Differs key =>
            exists failure,
              compareVariables variablesRequest varRef (EObj expected) "" []
              = (Threw failure, [varRef]) /\
              failure_path failure = Some key
        end
    end.
Proof.
  intros varRef expected Hne Hflat.
  unfold readVariables. cbn [compareVariables].
  apply Z.eqb_neq in Hne. rewrite Hne. cbn [app].
  destruct (variablesRequest varRef) as [variables|]; [|reflexivity].
  pose proof (read_vars_of variables [] [] (fun k => eq_refl)) as Hget.
  fold (vars_of variables) in Hget.
  match type of Hget with
  | forall k, dict_get ?D k = _ => set (dict := D) in *
  end.
  set (vars := vars_of variables) in *.
  clearbody dict vars. clear Hne.
  induction expected as [|[key e] rest IH]; [reflexivity|].
  cbn [flat_strings forallb fst snd] in Hflat.
  apply andb_true_iff in Hflat. destruct Hflat as [Hkv Hrest].
  apply andb_true_iff in Hkv. destruct Hkv as [Hkey He].
  apply negb_true_iff in Hkey.
  destruct e as [| | |s|]; try discriminate.
  cbn [assertDictContains]. rewrite Hkey, Hget.
  unfold key_path. cbn [String.eqb].
  destruct (dict_get vars key) as [variable|]; cbn [option_map loose_eq].
  - cbn [loose_eq_string].
    destruct (value variable =? s)%string.
    + apply IH. exact Hrest.
    + eexists. split; reflexivity.
  - eexists. split; reflexivity.
Qed.

End DictContainsFacts.

Section LaunchAndWaitFacts.
Import JS LaunchAndWait.

Lemma launch_promise_stable (s : Launch.Session) (m : Launch.Message)
  (b : bool) :
  launch_promise s = Some b ->
  launch_promise (Launch.dispatch Launch.Launch s m) = Some b.
Proof.
  intros H.
  assert (Hpc : Launch.pc s <> Launch.AwaitInitializeResponse /\
                Launch.pc s <> Launch.AwaitInitialized).
  { unfold launch_promise in H.
    destruct (Launch.pc s); split; congruence. }
  destruct Hpc as [Hp1 Hp2].
  destruct m as [c ok|ev].
  - destruct c; cbn [Launch.dispatch Launch.request_of Launch.command_eqb
                     andb].
    + destruct (Launch.pc s) eqn:Epc; try congruence; exact H.
    + destruct (existsb (Launch.command_eqb Launch.launch) (Launch.sent s));
        [|exact H].
      unfold launch_promise in *.
      destruct (Launch.requestResp s) eqn:E; [now rewrite E|].
      cbn. destruct (Launch.pc s); congruence.
    + exact H.
    + exact H.
  - cbn [Launch.dispatch].
    destruct (ev =? "initialized")%string; [|exact H].
    unfold launch_promise in *.
    destruct (Launch.pc s) eqn:Epc; try congruence; cbn; rewrite ?Epc;
      exact H.
Qed.

Lemma stop_promise_stable (st : StopEvent.State)
  (event e : StopEvent.StoppedEvent) :
  StopEvent.promise st = Resolved e ->
  StopEvent.promise (StopEvent.emit st event) = Resolved e.
Proof.
  intros H. unfold StopEvent.emit, StopEvent.handler.
  destruct (StopEvent.listening st); [|exact H].
  destruct (negb _); cbn; [now rewrite H | exact H].
Qed.

Lemma resume_launching (s : Session) : launching (resume s) = launching s.
Proof.
  unfold resume. destruct (pc s); try reflexivity.
  - destruct (launch_promise (launching s)) as [[|]|]; reflexivity.
  - destruct (StopEvent.promise (stop s)); reflexivity.
Qed.

Lemma resume_stop (s : Session) :
  StopEvent.promise (stop (resume s)) = StopEvent.promise (stop s) /\
  StopEvent.listening (stop (resume s)) = StopEvent.listening (stop s).
Proof.
  unfold resume. destruct (pc s); [| |split; reflexivity|split; reflexivity].
  - destruct (launch_promise (launching s)) as [[|]|]; split; reflexivity.
  - destruct (StopEvent.promise (stop s)) eqn:E; split; cbn; congruence.
Qed.

Lemma emit_same (a b : StopEvent.State) (event : StopEvent.StoppedEvent) :
  StopEvent.promise a = StopEvent.promise b ->
  StopEvent.listening a = StopEvent.listening b ->
  StopEvent.promise (StopEvent.emit a event)
  = StopEvent.promise (StopEvent.emit b event) /\
  StopEvent.listening (StopEvent.emit a event)
  = StopEvent.listening (StopEvent.emit b event).
Proof.
  intros Hp Hl. unfold StopEvent.emit, StopEvent.handler.
  rewrite Hl. destruct (StopEvent.listening b) eqn:E; [|split; congruence].
  destruct (negb _); cbn; rewrite ?Hp; split; congruence.
Qed.

Lemma run_launching (inputs : list Incoming) :
  forall s,
    launching (run inputs s)
    = Launch.run Launch.Launch (adapter_messages inputs) (launching s).
Proof.
  induction inputs as [|[m|event] rest IH]; intros s; [reflexivity| |];
    cbn [run fold_left adapter_messages step];
    fold (run rest); rewrite IH, resume_launching; reflexivity.
Qed.

Lemma run_stop (inputs : list Incoming) :
  forall s (st : StopEvent.State),
    StopEvent.promise (stop s) = StopEvent.promise st ->
    StopEvent.listening (stop s) = StopEvent.listening st ->
    StopEvent.promise (stop (run inputs s))
    = StopEvent.promise (StopEvent.run (stopped_events inputs) st).
Proof.
  induction inputs as [|[m|event] rest IH]; intros s st Hp Hl; [exact Hp| |];
    cbn [run fold_left stopped_events step]; fold (run rest).
  - apply IH.
    + now rewrite (proj1 (resume_stop _)).
    + now rewrite (proj2 (resume_stop _)).
  - cbn [StopEvent.run fold_left].
    fold (StopEvent.run (stopped_events rest) (StopEvent.emit st event)).
    destruct (emit_same (stop s) st event Hp Hl) as [Hp' Hl'].
    apply IH.
    + now rewrite (proj1 (resume_stop _)).
    + now rewrite (proj2 (resume_stop _)).
Qed.

Lemma step_in_step (s : Session) (i : Incoming) :
  in_step s -> in_step (step s i).
Proof.
  unfold in_step. intros H. destruct i as [m|event]; cbn [step].
  - pose proof (launch_promise_stable (launching s) m) as Hst.
    unfold resume. cbn [pc launching stop]. rewrite H.
    destruct (launch_promise (launching s)) as [[|]|] eqn:E; cbn [standing].
    + specialize (Hst true eq_refl).
      destruct (StopEvent.promise (stop s)) eqn:Es;
        cbn [pc launching stop]; rewrite ?Es, Hst; cbn [standing];
        rewrite ?Es; reflexivity.
    + specialize (Hst false eq_refl). cbn [pc launching stop].
      now rewrite Hst.
    + clear Hst.
      destruct (launch_promise (Launch.dispatch Launch.Launch (launching s) m))
        as [[|]|] eqn:E'; cbn [pc launching stop log StopEvent.promise];
        rewrite E'; cbn [standing]; reflexivity.
  - unfold resume. cbn [pc launching stop]. rewrite H.
    destruct (launch_promise (launching s)) as [[|]|] eqn:E; cbn [standing].
    + destruct (StopEvent.promise (stop s)) as [|e|r] eqn:Es.
      * destruct (StopEvent.promise (StopEvent.emit (stop s) event)) eqn:Es';
          cbn [pc launching stop]; rewrite E, ?Es'; cbn [standing];
          rewrite ?Es'; reflexivity.
      * cbn [pc launching stop].
        now rewrite E, (stop_promise_stable _ event e Es).
      * destruct (StopEvent.promise (StopEvent.emit (stop s) event)) eqn:Es';
          cbn [pc launching stop]; rewrite E, ?Es'; cbn [standing];
          rewrite ?Es'; reflexivity.
    + cbn [pc launching stop]. now rewrite E.
    + cbn [pc launching stop]. now rewrite E.
Qed.

Lemma run_in_step (inputs : list Incoming) :
  forall s, in_step s -> in_step (run inputs s).
Proof.
  induction inputs as [|i rest IH]; intros s H; [exact H|].
  cbn [run fold_left]. apply IH. now apply step_in_step.
Qed.

(** X15.  [launchAndWaitForStop] adds its 'stopped' listener before it
    calls [launch], so where it ends depends on what the adapter answers
    to [launch] and on the 'stopped' events, each in the order received,
    but not on how the two are interleaved: it fails when [launch] fails,
    and once [launch] has succeeded it returns the first 'stopped' event
    of the whole run whose reason is not 'initial', also when that event
    came before [launch] was done. *)
Theorem launchAndWaitForStop_any_interleaving :
  forall inputs : list Incoming,
    launching (run inputs start)
    = Launch.run Launch.Launch (adapter_messages inputs) Launch.start /\
    StopEvent.promise (stop (run inputs start))
    = StopEvent.promise
        (StopEvent.run (stopped_events inputs) StopEvent.init) /\
    pc (run inputs start)
    = standing
        (launch_promise
           (Launch.run Launch.Launch (adapter_messages inputs) Launch.start))
        (StopEvent.promise
           (StopEvent.run (stopped_events inputs) StopEvent.init)).
Proof.
  intros inputs.
  pose proof (run_launching inputs start) as Hl.
  pose proof (run_stop inputs start StopEvent.init eq_refl eq_refl) as Hs.
  change (launching start) with Launch.start in Hl.
  split; [exact Hl|]. split; [exact Hs|].
  rewrite <- Hl, <- Hs. apply run_in_step. reflexivity.
Qed.

End LaunchAndWaitFacts.

Section DictContainsExamples.
Import JS CompareVariables DictContains.

Lemma compareVariables_agrees_with_assertDictContains_witness :
  exists failure,
    compareVariables example_adapter 7
      (EObj [("a", EStr "1"); ("b", EStr "z")]) "" []
    = (Threw failure, [7]) /\
    failure_path failure = Some "b".
Proof.
  exact (compareVariables_agrees_with_assertDictContains
           example_adapter 7 [("a", EStr "1"); ("b", EStr "z")]
           ltac:(intro H; discriminate H) eq_refl).
Defined.

End DictContainsExamples.

Section InstallFacts.
Import JS Text Install.

(** ** The redirects [download] follows *)

Lemma follow_requests (n : nat) :
  forall (srcUrl : string) (answers : list IncomingMessage)
         (response : option IncomingMessage),
    (List.length (fst (follow n srcUrl answers response)) <= n)%nat /\
    fst (follow n srcUrl answers response)
    = firstn (List.length (fst (follow n srcUrl answers response)))
             (srcUrl :: map location_of answers) /\
    (forall i,
        (S i < List.length (fst (follow n srcUrl answers response)))%nat ->
        exists r, nth_error answers i = Some r /\ is_redirect r = true).
Proof.
  induction n as [|n IH]; intros srcUrl answers response.
  - cbn. repeat split; [lia | intros i Hi; lia].
  - cbn [follow]. destruct answers as [|r rest].
    + cbn. repeat split; [lia | intros i Hi; lia].
    + destruct (is_redirect r) eqn:Er.
      * specialize (IH (location_of r) rest (Some r)).
        destruct (follow n (location_of r) rest (Some r)) as [urls fetched].
        cbn [fst] in *. destruct IH as (Hlen & Hurls & Hred).
        cbn [List.length map firstn]. repeat split.
        -- lia.
        -- now rewrite <- Hurls.
        -- intros [|i] Hi.
           ++ exists r. now split.
           ++ cbn [nth_error]. apply Hred. lia.
      * cbn. repeat split; [lia | intros i Hi; lia].
Qed.

Lemma follow_all_redirects (n : nat) :
  forall (srcUrl : string) (answers : list IncomingMessage)
         (response : option IncomingMessage) (last : IncomingMessage),
    (forall i r, (i < n)%nat -> nth_error answers i = Some r ->
                 is_redirect r = true) ->
    nth_error answers (Nat.pred n) = Some last ->
    (0 < n)%nat ->
    follow n srcUrl answers response
    = (firstn n (srcUrl :: map location_of answers), Answered (Some last)).
Proof.
  induction n as [|n IH]; intros srcUrl answers response last Hall Hlast Hn;
    [lia|].
  destruct answers as [|r rest].
  - destruct n; discriminate.
  - cbn [follow]. rewrite (Hall 0%nat r) by (cbn; (lia || reflexivity)).
    destruct n as [|n].
    + cbn in Hlast. injection Hlast as <-. reflexivity.
    + rewrite (IH (location_of r) rest (Some r) last).
      * reflexivity.
      * intros i r' Hi Hr'. apply (Hall (S i) r'); [lia | exact Hr'].
      * exact Hlast.
      * lia.
Qed.

(** X16.  [download] sends at most [MaxRedirects] requests: the first to
    the URL it was given, each later one to the [location] of the
    redirect that answered the one before.  When all ten requests are
    answered by redirects, the tenth redirect is not followed and nothing
    says that there were too many: that response is taken for the
    download, and the promise is rejected or the response is written to
    the file according to its content type alone. *)
Theorem download_follows_redirects :
  forall (srcUrl : string) (answers : list IncomingMessage),
    let urls := fst (download srcUrl answers) in
    (List.length urls <= MaxRedirects)%nat /\
    urls = firstn (List.length urls) (srcUrl :: map location_of answers) /\
    (forall i, (S i < List.length urls)%nat ->
               exists r, nth_error answers i = Some r /\
                         is_redirect r = true) /\
    (forall last,
        (forall i r, (i < MaxRedirects)%nat -> nth_error answers i = Some r ->
                     is_redirect r = true) ->
        nth_error answers 9 = Some last ->
        download srcUrl answers
        = (firstn MaxRedirects (srcUrl :: map location_of answers),
           judge last)).
Proof.
  intros srcUrl answers urls. subst urls. unfold download.
  pose proof (follow_requests MaxRedirects srcUrl answers None)
    as (Hlen & Hurls & Hred).
  split; [|split; [|split]].
  - destruct (follow MaxRedirects srcUrl answers None). exact Hlen.
  - destruct (follow MaxRedirects srcUrl answers None). exact Hurls.
  - destruct (follow MaxRedirects srcUrl answers None). exact Hred.
  - intros last Hall Hlast.
    rewrite (follow_all_redirects MaxRedirects srcUrl answers None last);
      auto.
    unfold MaxRedirects. lia.
Qed.

(** ** The destination of an entry *)

Lemma substr_prefix (p rest : string) :
  substr (p ++ rest) (String.length p) = rest.
Proof. induction p as [|c p IH]; [now destruct rest | exact IH]. Qed.

Lemma strip_prefix_app (p s rest : string) :
  strip_prefix p s = Some rest -> s = p ++ rest.
Proof.
  revert s. induction p as [|a p IH]; intros s; cbn.
  - now intros [= ->].
  - destruct s as [|b s]; [discriminate|].
    destruct (Ascii.eqb_spec a b) as [->|_]; [|discriminate].
    intros H. now rewrite (IH s H).
Qed.

Lemma starts_with_strip (p s : string) :
  starts_with s p = match strip_prefix p s with
                    | Some _ => true
                    | None => false
                    end.
Proof.
  revert s. induction p as [|a p IH]; intros s; [now destruct s|].
  destruct s as [|b s]; [reflexivity|].
  cbn. destruct (Ascii.eqb a b); [apply IH | reflexivity].
Qed.

(** X17.  The callback [installVsix] gives to [extractZip] keeps exactly
    the entries whose name starts with 'extension/' and joins to the
    destination directory what follows that prefix: the 10 characters
    [substr(10)] drops are the prefix. *)
Theorem installVsix_strips_prefix :
  forall (join : string -> string -> string) (destDir fileName : string),
    vsix_destination join destDir fileName
    = match strip_prefix "extension/" fileName with
      | Some rest => Some (join destDir rest)
      | None => None
      end.
Proof.
  intros join destDir fileName. unfold vsix_destination.
  rewrite starts_with_strip.
  destruct (strip_prefix "extension/" fileName) as [rest|] eqn:E;
    [|reflexivity].
  apply strip_prefix_app in E. subst fileName.
  do 2 f_equal. exact (substr_prefix "extension/" rest).
Qed.

(** ** The mode of an extracted file *)

Lemma to_int32_mod (x : Z) : to_int32 x mod 2 ^ 32 = x mod 2 ^ 32.
Proof.
  unfold to_int32. destruct (x mod 2 ^ 32 <? 2 ^ 31).
  - apply Z.mod_mod. lia.
  - replace (x mod 2 ^ 32 - 2 ^ 32) with (x mod 2 ^ 32 + (-1) * 2 ^ 32)
      by lia.
    rewrite Z.mod_add by lia. apply Z.mod_mod. lia.
Qed.

Lemma to_int32_small (x : Z) : 0 <= x < 2 ^ 31 -> to_int32 x = x.
Proof.
  intros H. unfold to_int32. rewrite Z.mod_small by lia.
  destruct (Z.ltb_spec x (2 ^ 31)); lia.
Qed.

Lemma to_int32_eq (x : Z) : exists k, to_int32 x = x + k * 2 ^ 32.
Proof.
  exists ((to_int32 x - x) / 2 ^ 32).
  pose proof (Z.div_mod (to_int32 x - x) (2 ^ 32) ltac:(lia)) as Hd.
  assert (Hz : (to_int32 x - x) mod 2 ^ 32 = 0).
  { rewrite Zminus_mod, to_int32_mod, Z.sub_diag. reflexivity. }
  lia.
Qed.

(** X18.  The mode [extractZip] gives to [fs.chmod] is made of the bits 16
    to 27 of the external file attributes, whatever the 32-bit value read
    from the archive: the signed shift of the code loses none of them,
    also when bit 31 is set, and the four bits above (the file type) are
    dropped. *)
Theorem extractZip_mode_bits :
  forall externalFileAttributes : Z,
    attrs externalFileAttributes
    = (externalFileAttributes / 2 ^ 16) mod 2 ^ 12 /\
    0 <= attrs externalFileAttributes < 4096 /\
    forall i, 0 <= i ->
      Z.testbit (attrs externalFileAttributes) i
      = (i <? 12) && Z.testbit externalFileAttributes (i + 16).
Proof.
  intros x.
  assert (H : attrs x = (x / 2 ^ 16) mod 2 ^ 12).
  { unfold attrs, bit_and, shift_right.
    change (16 mod 32) with 16. rewrite (to_int32_small 4095) by lia.
    change 4095 with (Z.ones 12). rewrite Z.land_ones by lia.
    rewrite Z.shiftr_div_pow2 by lia.
    destruct (to_int32_eq x) as [k Hk].
    destruct (to_int32_eq (to_int32 x / 2 ^ 16)) as [k' Hk'].
    rewrite Hk'.
    replace (k' * 2 ^ 32) with (k' * 2 ^ 20 * 2 ^ 12) by lia.
    rewrite Z.mod_add by lia.
    rewrite Hk. replace (k * 2 ^ 32) with (k * 2 ^ 16 * 2 ^ 16) by lia.
    rewrite Z.div_add by lia.
    replace (k * 2 ^ 16) with (k * 2 ^ 4 * 2 ^ 12) by lia.
    apply Z.mod_add. lia. }
  split; [exact H|]. split.
  - rewrite H. apply Z.mod_pos_bound. lia.
  - intros i Hi. rewrite H.
    destruct (Z.ltb_spec i 12).
    + rewrite Z.mod_pow2_bits_low by lia.
      rewrite Z.div_pow2_bits by lia. reflexivity.
    + rewrite Z.mod_pow2_bits_high by lia. reflexivity.
Qed.

End InstallFacts.

Section MergeFacts.
Import JS Expand Props Merge.

(** X19.  When [value1] is an array or a dictionary and [value2] is
    defined, [mergeValues] gives, unless both are arrays, a dictionary in
    which each name has the value [value2] has for it, and otherwise the
    one [value1] has: the merge is one level deep, an array counts as the
    dictionary of its indices, and a [value2] that is [null], a number or
    a boolean adds nothing. *)
Theorem mergeValues_lookup :
  forall value1 value2 : Value,
    isScalarValue value1 = false ->
    value2 <> VUndefined ->
    is_array value1 && is_array value2 = false ->
    NoDup (keys (own_props value1)) ->
    NoDup (keys (own_props value2)) ->
    exists merged,
      mergeValues value1 value2 = VObj merged /\
      forall key,
        dict_get merged key
        = match dict_get (own_props value2) key with
          | Some v => Some v
          | None => dict_get (own_props value1) key
          end.
Proof.
  intros value1 value2 Hs Hu Ha H1 H2.
  exists (assign_props (assign_props [] (own_props value1))
                       (own_props value2)).
  split.
  - unfold mergeValues. rewrite Hs.
    destruct value2; try congruence;
      destruct value1; try discriminate; reflexivity.
  - intros key. rewrite !dict_get_assign_props by assumption.
    destruct (dict_get (own_props value2) key); [reflexivity|].
    now destruct (dict_get (own_props value1) key).
Qed.

End MergeFacts.

Section MergeExamples.
Import JS Expand Props Merge.

Lemma mergeValues_lookup_witness :
  exists merged,
    mergeValues (VArr [VStr "-a"; VStr "-b"])
                (VObj [("1", VObj [("x", VNull)]); ("cwd", VStr "/")])
    = VObj merged /\
    forall key,
      dict_get merged key
      = match dict_get [("1", VObj [("x", VNull)]); ("cwd", VStr "/")] key
        with
        | Some v => Some v
        | None => dict_get [("0", VStr "-a"); ("1", VStr "-b")] key
        end.
Proof.
  apply (mergeValues_lookup
           (VArr [VStr "-a"; VStr "-b"])
           (VObj [("1", VObj [("x", VNull)]); ("cwd", VStr "/")])).
  - reflexivity.
  - discriminate.
  - reflexivity.
  - repeat constructor; cbn; intuition discriminate.
  - repeat constructor; cbn; intuition discriminate.
Defined.

End MergeExamples.

Section StartAdapterFacts.
Import JS WaitForPattern StartAdapter.

(** ** What a match of the handshake pattern is made of *)

Lemma span_digits_app (s : string) :
  forall ds r,
    span_digits s = (ds, r) ->
    s = ds ++ r /\ Props.all_digits ds = true.
Proof.
  induction s as [|c s IH]; intros ds r H; cbn in H.
  - injection H as <- <-. now split.
  - destruct (is_digit c) eqn:E.
    + destruct (span_digits s) as [ds' r'].
      injection H as <- <-. destruct (IH ds' r' eq_refl) as [-> Hd].
      cbn. now rewrite E.
    + injection H as <- <-. now split.
Qed.

Lemma match_here_sound (s : string) (m : list string) :
  Handshake.match_here s = Some m ->
  exists ds c post,
    s = "Listening on port " ++ ds ++ String c post /\
    ds <> "" /\ Props.all_digits ds = true /\ is_space c = true /\
    m = ["Listening on port " ++ ds ++ String c ""; ds].
Proof.
  unfold Handshake.match_here. intros H.
  destruct (strip_prefix "Listening on port " s) as [r|] eqn:Ep;
    [|discriminate].
  apply strip_prefix_app in Ep.
  destruct (span_digits r) as [ds rest] eqn:Es.
  destruct (span_digits_app r ds rest Es) as [Hr Hd].
  destruct ds as [|d ds]; [discriminate|].
  destruct rest as [|c post]; [discriminate|].
  destruct (is_space c) eqn:Ec; [|discriminate].
  injection H as <-. exists (String d ds), c, post.
  repeat split; auto; [|discriminate]. now rewrite Ep, Hr.
Qed.

Lemma exec_from_sound (s : string) :
  forall (b : bool) (m : list string),
    Handshake.exec_from b s = Some m ->
    exists pre ds c post,
      s = pre ++ "Listening on port " ++ ds ++ String c post /\
      (pre = "" /\ b = true \/
       exists p t, pre = p ++ String t "" /\ is_line_terminator t = true) /\
      ds <> "" /\ Props.all_digits ds = true /\ is_space c = true /\
      m = ["Listening on port " ++ ds ++ String c ""; ds].
Proof.
  induction s as [|a s IH]; intros b m H; [discriminate|].
  cbn [Handshake.exec_from] in H.
  destruct (if b then Handshake.match_here (String a s) else None)
    as [m0|] eqn:E.
  - injection H as <-. destruct b; [|discriminate].
    destruct (match_here_sound _ _ E) as (ds & c & post & Hs & H1 & H2 & H3 & H4).
    exists "", ds, c, post. repeat split; auto.
  - destruct (IH _ _ H) as (pre & ds & c & post & Hs & Hl & H1 & H2 & H3 & H4).
    exists (String a pre), ds, c, post.
    split; [cbn; now rewrite Hs|]. split; [|auto].
    right. destruct Hl as [[-> Hb]|(p & t & -> & Ht)].
    + exists "", a. now split.
    + exists (String a p), t. now split.
Qed.

(** ** The text the pattern is tried on *)

Lemma text_of_app (l1 l2 : list string) :
  text_of (l1 ++ l2) = text_of l1 ++ text_of l2.
Proof.
  induction l1 as [|c l1 IH]; cbn; [reflexivity|].
  fold (text_of (l1 ++ l2)). fold (text_of l1).
  now rewrite IH, append_assoc.
Qed.

Lemma data_chunks_app (es1 es2 : list Event) :
  data_chunks (es1 ++ es2) = (data_chunks es1 ++ data_chunks es2)%list.
Proof.
  induction es1 as [|[c|err| |code signal] es1 IH]; cbn; now rewrite ?IH.
Qed.

(** While the promise is pending, [processOutput] is what has been
    read. *)
Lemma pending_output (es : list Event) :
  promisePending (run (list string) Handshake.exec es init) = true ->
  processOutput (run (list string) Handshake.exec es init)
  = Some (text_of (data_chunks es)).
Proof.
  induction es as [|e es IH] using rev_ind; [reflexivity|].
  rewrite wfp_run_app. cbn [run fold_left].
  rewrite data_chunks_app, text_of_app.
  remember (run (list string) Handshake.exec es init) as st eqn:Est.
  clear Est. destruct st as [pp po tm pr k]. cbn in IH.
  destruct e as [c|err| |code signal]; cbn.
  - unfold on_data. cbn. destruct pp; [|discriminate].
    rewrite (IH eq_refl). cbn.
    destruct (Handshake.exec_from true _); cbn; [discriminate|].
    intros _. now rewrite append_nil_r.
  - discriminate.
  - destruct tm; cbn.
    + unfold on_timeout. cbn. destruct pp; cbn; discriminate.
    + intros H. rewrite (IH H). now rewrite append_nil_r.
  - unfold on_exit. cbn. destruct pp; cbn; discriminate.
Qed.

(** A match the promise is resolved with is one of the pattern on what
    had been read when some event came. *)
Lemma resolved_match (es : list Event) (m : list string) :
  promise (run (list string) Handshake.exec es init) = Resolved m ->
  exists j,
    (j <= List.length es)%nat /\
    Handshake.exec (text_of (data_chunks (firstn j es))) = Some m.
Proof.
  induction es as [|e es IH] using rev_ind; [discriminate|].
  rewrite wfp_run_app. cbn [run fold_left].
  pose proof (run_inv (list string) Handshake.exec es init
                (init_inv (list string))) as [Hp _].
  pose proof (pending_output es) as Ho.
  assert (Hold : promise (run (list string) Handshake.exec es init)
                 = Resolved m ->
                 exists j, (j <= List.length (es ++ [e]))%nat /\
                           Handshake.exec
                             (text_of (data_chunks (firstn j (es ++ [e]))))
                           = Some m).
  { intros Hr. destruct (IH Hr) as (j & Hj & Hm). exists j.
    rewrite length_app. split; [lia|].
    rewrite firstn_app. replace (j - List.length es)%nat with 0%nat by lia.
    cbn [firstn]. now rewrite app_nil_r. }
  clear IH.
  remember (run (list string) Handshake.exec es init) as st eqn:Est.
  clear Est. destruct st as [pp po tm pr k]. cbn in Hp, Ho, Hold.
  intros H.
  destruct e as [c|err| |code signal]; cbn in H.
  - unfold on_data in H. cbn in H. destruct pp; [|now apply Hold].
    destruct pr; try discriminate.
    destruct (Handshake.exec (append_output po c)) as [m'|] eqn:E;
      cbn in H; [|discriminate].
    injection H as <-.
    exists (List.length (es ++ [Data c])). split; [lia|].
    rewrite firstn_all, data_chunks_app, text_of_app.
    rewrite (Ho eq_refl) in E. cbn [append_output] in E.
    cbn. now rewrite append_nil_r.
  - destruct pr; cbn in H; try discriminate. now apply Hold.
  - destruct tm; [|now apply Hold]. unfold on_timeout in H. cbn in H.
    destruct pp; cbn in H; [|now apply Hold].
    destruct pr; cbn in H; try discriminate.
  - unfold on_exit in H. cbn in H.
    destruct pp; cbn in H; [|now apply Hold].
    destruct pr; cbn in H; try discriminate.
Qed.

(** ** Reading the digits *)

Lemma digit_not_space (c : ascii) : is_digit c = true -> is_space c = false.
Proof.
  unfold is_digit, is_space. intros H.
  apply andb_true_iff in H. destruct H as [H1 H2].
  apply Nat.leb_le in H1. apply Nat.leb_le in H2.
  repeat (apply orb_false_iff; split);
    try (apply andb_false_iff; right; apply Nat.leb_gt; lia);
    apply Nat.eqb_neq; lia.
Qed.

Lemma digit_value_digit (c : ascii) :
  is_digit c = true -> 0 <= digit_value c < 10.
Proof.
  intros H. unfold digit_value. rewrite H. unfold is_digit in H.
  apply andb_true_iff in H. destruct H as [H1 H2].
  apply Nat.leb_le in H1. apply Nat.leb_le in H2. lia.
Qed.

Lemma span_radix_digits (ds : string) :
  Props.all_digits ds = true -> span_radix 10 ds = (ds, "").
Proof.
  induction ds as [|c ds IH]; [reflexivity|].
  cbn. intros H. apply andb_true_iff in H. destruct H as [Hc Hd].
  pose proof (digit_value_digit c Hc) as Hv.
  destruct (Z.ltb_spec (digit_value c) 10); [|lia].
  now rewrite (IH Hd).
Qed.

Lemma digit_codes (c : ascii) :
  is_digit c = true ->
  c <> "-"%char /\ c <> "+"%char /\ c <> "x"%char /\ c <> "X"%char.
Proof.
  intros H. repeat split; intros ->; discriminate.
Qed.

Lemma parseInt_digits (ds : string) :
  ds <> "" -> Props.all_digits ds = true ->
  parseInt ds = binary64 false (digits_value 10 0 ds) 1.
Proof.
  intros Hne Hd. destruct ds as [|c ds]; [congruence|].
  pose proof Hd as Hd'. cbn in Hd'.
  apply andb_true_iff in Hd'. destruct Hd' as [Hc Hds].
  unfold parseInt. cbn [trim_start]. rewrite (digit_not_space c Hc).
  destruct (digit_codes c Hc) as (Hm & Hp & _).
  assert (Hs : sign_of (String c ds) = (false, String c ds)).
  { unfold sign_of.
    destruct (Ascii.ascii_dec c "-") as [->|_]; [congruence|].
    destruct (Ascii.ascii_dec c "+") as [->|_]; [congruence|].
    destruct c as [[] [] [] [] [] [] [] []]; try reflexivity; congruence. }
  rewrite Hs.
  assert (Hr : match String c ds with
               | String "0" (String c0 r') =>
                   if (Ascii.eqb c0 "x" || Ascii.eqb c0 "X")%bool
                   then (16, r') else (10, String c ds)
               | _ => (10, String c ds)
               end = (10, String c ds)).
  { destruct (Ascii.ascii_dec c "0") as [->|Hz].
    - destruct ds as [|c0 ds0]; [reflexivity|].
      cbn in Hds. apply andb_true_iff in Hds. destruct Hds as [Hc0 _].
      destruct (digit_codes c0 Hc0) as (_ & _ & Hx & HX).
      destruct (Ascii.eqb_spec c0 "x"); [congruence|].
      destruct (Ascii.eqb_spec c0 "X"); [congruence|]. reflexivity.
    - destruct c as [[] [] [] [] [] [] [] []]; try reflexivity; congruence. }
  rewrite Hr. now rewrite (span_radix_digits _ Hd).
Qed.

(** An integer below [2 ^ 53] is a Number. *)
Lemma binary64_integer (negative : bool) (n : Z) :
  0 <= n < 2 ^ 53 ->
  number_eq (binary64 negative n 1)
            (Finite (inject_Z ((if negative then -1 else 1) * n))) = true.
Proof.
  intros Hn. unfold binary64.
  destruct (Z.eqb_spec n 0) as [->|Hz].
  - cbn. now destruct negative.
  - assert (Hpos : 0 < n) by lia.
    pose proof (Z.log2_spec n Hpos) as [Hlo Hhi].
    pose proof (Z.log2_nonneg n) as Hl0.
    assert (Hl : Z.log2 n <= 52).
    { apply Z.lt_succ_r. apply (Z.pow_lt_mono_r_iff 2); lia. }
    change (Z.log2 1) with 0. rewrite Z.sub_0_r.
    rewrite (Z.max_l 0 (- Z.log2 n)) by lia.
    rewrite (Z.max_r 0 (Z.log2 n)) by lia.
    rewrite Z.pow_0_r, Z.mul_1_r, Z.mul_1_l.
    destruct (Z.ltb_spec n (2 ^ Z.log2 n)); [lia|].
    rewrite (Z.max_l (Z.log2 n) (-1022)) by lia.
    set (sign := if negative then -1 else 1).
    destruct (Z.leb_spec 0 (Z.log2 n - 52)) as [Hsh|Hsh].
    + replace (Z.log2 n - 52) with 0 by lia.
      rewrite Z.pow_0_r, Z.mul_1_r.
      assert (Hm : round_half_even n 1 = n).
      { unfold round_half_even. rewrite Z.mod_1_r, Z.div_1_r. reflexivity. }
      change (1 * 1) with 1. rewrite Hm, Z.mul_1_r.
      destruct (Z.leb_spec (2 ^ 1024) n).
      * exfalso. assert (2 ^ 53 < 2 ^ 1024)
          by (apply Z.pow_lt_mono_r; lia). lia.
      * cbn [number_eq]. apply Qeq_bool_iff. reflexivity.
    + set (k := - (Z.log2 n - 52)).
      assert (Hk : 0 < k) by (subst k; lia).
      assert (Hm : round_half_even (n * 2 ^ k) 1 = n * 2 ^ k).
      { unfold round_half_even. rewrite Z.mod_1_r, Z.div_1_r. reflexivity. }
      rewrite Hm. cbn [number_eq]. apply Qeq_bool_iff.
      unfold Qeq, inject_Z. cbn [Qnum Qden].
      rewrite Z2Pos.id by (apply Z.pow_pos_nonneg; lia). lia.
Qed.

(** X20.  When the promise of [startDebugAdapter] is resolved, the port of
    the process it returns is the number the adapter wrote: at some point
    of the run the output read so far held, at the start of a line,
    'Listening on port ', decimal digits and a white space character, and
    the port is [parseInt] of those digits, that is the Number nearest to
    their decimal value, and that value itself when it is below 2^53. *)
Theorem startDebugAdapter_port :
  forall (es : list Event) (port : Number),
    startDebugAdapter es = Resolved port ->
    exists (j : nat) (pre ds : string) (c : ascii) (post : string),
      (j <= List.length es)%nat /\
      text_of (data_chunks (firstn j es))
      = pre ++ "Listening on port " ++ ds ++ String c post /\
      line_start pre /\
      ds <> "" /\ Props.all_digits ds = true /\ is_space c = true /\
      port = parseInt ds /\
      port = binary64 false (digits_value 10 0 ds) 1 /\
      (digits_value 10 0 ds < 2 ^ 53 ->
       number_eq port (Finite (inject_Z (digits_value 10 0 ds))) = true).
Proof.
  intros es port H. unfold startDebugAdapter in H.
  destruct (promise (run (list string) Handshake.exec es init))
    as [|m|err] eqn:E; try discriminate.
  injection H as <-.
  destruct (resolved_match es m E) as (j & Hj & Hm).
  destruct (exec_from_sound _ _ _ Hm)
    as (pre & ds & c & post & Hs & Hl & Hne & Hd & Hc & ->).
  exists j, pre, ds, c, post.
  assert (Hp : port_of ["Listening on port " ++ ds ++ String c ""; ds]
               = parseInt ds) by reflexivity.
  rewrite Hp. repeat split; auto.
  - destruct Hl as [[-> _]|Hl]; [now left | now right].
  - now apply parseInt_digits.
  - intros Hlt. rewrite parseInt_digits by assumption.
    assert (H0 : 0 <= digits_value 10 0 ds).
    { clear - Hd. assert (G : forall acc, 0 <= acc ->
                                0 <= digits_value 10 acc ds).
      { induction ds as [|a ds IH]; intros acc Hacc; [exact Hacc|].
        cbn in Hd. apply andb_true_iff in Hd. destruct Hd as [Ha Hd].
        cbn [digits_value]. apply IH; [exact Hd|].
        pose proof (digit_value_digit a Ha). lia. }
      apply G. lia. }
    pose proof (binary64_integer false (digits_value 10 0 ds)
                  (conj H0 Hlt)) as Hb.
    now rewrite Z.mul_1_l in Hb.
Qed.

End StartAdapterFacts.

Section StartAdapterExamples.
Import JS WaitForPattern StartAdapter.

Lemma startDebugAdapter_port_witness :
  let port := parseInt "4711" in
  exists (j : nat) (pre ds : string) (c : ascii) (post : string),
    (j <= 3)%nat /\
    text_of (data_chunks (firstn j (map Data handshake_chunks)))
    = pre ++ "Listening on port " ++ ds ++ String c post /\
    line_start pre /\
    ds <> "" /\ Props.all_digits ds = true /\ is_space c = true /\
    port = parseInt ds /\
    port = binary64 false (digits_value 10 0 ds) 1 /\
    (digits_value 10 0 ds < 2 ^ 53 ->
     number_eq port (Finite (inject_Z (digits_value 10 0 ds))) = true).
Proof.
  intros port.
  apply (startDebugAdapter_port (map Data handshake_chunks) port).
  vm_compute. reflexivity.
Defined.

End StartAdapterExamples.

Section FullExpansionFacts.
Import JS Expand ExpandMore.

(** The last callback puts the text of the property in the place of each
    reference. *)
Lemma replace_final_expand (d : Dict Value) (segs : list Segment) :
  plain d ->
  (forall r, In r (segment_refs segs) -> defined d r = true) ->
  forall c, replace_segments segs (final_expander d) c
            = Ok (expand_text d segs) c.
Proof.
  intros Hd. induction segs as [|seg rest IH]; intros Hdef c; [reflexivity|].
  cbn [segment_refs expand_text fold_right] in *.
  fold (expand_text d rest). unfold expand_segment.
  destruct (dbgconfig_key seg) as [key|] eqn:Hk.
  - destruct (dbgconfig_key_elim seg key Hk) as (all & t & -> & Ht).
    cbn [replace_segments final_expander]. rewrite Ht.
    destruct (plain_text d key Hd (Hdef key (or_introl eq_refl)))
      as (s & Hget & Htext & _).
    rewrite Hget, Htext. rewrite IH; [reflexivity|].
    intros r Hr. apply Hdef. now right.
  - destruct seg as [text|all type key].
    + cbn [replace_segments segment_text]. now rewrite IH.
    + cbn [replace_segments segment_text].
      rewrite (final_expander_only d all type key c Hk).
      now rewrite IH.
Qed.

Lemma flat_map_nil {A B} (f : A -> list B) (l : list A) :
  (forall x, In x l -> f x = []) -> flat_map f l = [].
Proof.
  induction l as [|x l IH]; intros H; [reflexivity|].
  cbn. rewrite (H x (or_introl eq_refl)). cbn. apply IH.
  intros y Hy. apply H. now right.
Qed.

(** A clean string over a document without references comes out without
    references. *)
Lemma expandVariables_final_free (d : Dict Value) (s : string) (c : bool) :
  plain d ->
  (forall a b, ~ references d a b) ->
  clean s = true ->
  (forall r, In r (refs s) -> defined d r = true) ->
  exists s',
    expandVariables s (final_expander d) c = Ok s' c /\ refs s' = [].
Proof.
  intros Hd Hfree Hc Hdef.
  exists (expand_text d (scan Outside s)). split.
  - unfold expandVariables. now apply replace_final_expand.
  - unfold refs. rewrite scan_expand_text.
    + rewrite refs_expand_scan. apply flat_map_nil.
      intros r Hr.
      destruct (plain_text d r Hd (Hdef r Hr)) as (sr & Hget & -> & _).
      unfold refs.
      destruct (segment_refs (scan Outside sr)) as [|b l] eqn:E;
        [reflexivity|].
      exfalso. apply (Hfree r b). exists (VStr sr). split; [exact Hget|].
      cbn [value_refs]. unfold refs. rewrite E. now left.
    + now apply clean_rescans.
    + intros r Hr.
      destruct (plain_text d r Hd (Hdef r Hr)) as (sr & _ & -> & Hcr & _).
      exact Hcr.
Qed.

Lemma expandVariablesInObject_final_free (d : Dict Value) (v : Value) :
  plain d ->
  (forall a b, ~ references d a b) ->
  forall c : bool,
    clean_value v = true ->
    (forall r, In r (value_refs v) -> defined d r = true) ->
    exists v',
      expandVariablesInObject v (final_expander d) c = Ok v' c /\
      value_refs v' = [].
Proof.
  intros Hd Hfree.
  induction v as [| |b|r|s|items IH|props IH] using Value_nested_ind;
    intros c Hc Hdef; try (eexists; split; reflexivity).
  - cbn [clean_value value_refs expandVariablesInObject] in *.
    destruct (expandVariables_final_free d s c Hd Hfree Hc Hdef)
      as (s' & -> & Hs').
    exists (VStr s'). now split.
  - cbn [clean_value value_refs expandVariablesInObject] in *.
    assert (H : exists items',
               (fix each (l : list Value) (converged : bool)
                  : Result (list Value) :=
                  match l with
                  | [] => Ok [] converged
                  | v :: rest =>
                      match expandVariablesInObject v (final_expander d)
                                                    converged with
                      | Throw e => Throw e
                      | Ok v' c =>
                          match each rest c with
                          | Ok rest' c' => Ok (v' :: rest') c'
                          | Throw e => Throw e
                          end
                      end
                  end) items c = Ok items' c /\
               value_refs (VArr items') = []).
    { induction IH as [|x rest Hx Hrest IHrest]; [exists []; now split|].
      apply andb_true_iff in Hc. destruct Hc as [Hc1 Hc2].
      destruct (Hx c Hc1) as (x' & -> & Hx').
      { intros r Hr. apply Hdef. apply in_or_app. now left. }
      destruct (IHrest Hc2) as (rest' & -> & Hrest').
      { intros r Hr. apply Hdef. apply in_or_app. now right. }
      exists (x' :: rest'). split; [reflexivity|].
      cbn [value_refs] in *. now rewrite Hx', Hrest'. }
    destruct H as (items' & -> & H'). exists (VArr items'). now split.
  - cbn [clean_value value_refs expandVariablesInObject] in *.
    assert (H : exists props',
               (fix each (l : list (string * Value)) (converged : bool)
                  : Result (list (string * Value)) :=
                  match l with
                  | [] => Ok [] converged
                  | (prop, v) :: rest =>
                      match expandVariablesInObject v (final_expander d)
                                                    converged with
                      | Throw e => Throw e
                      | Ok v' c =>
                          match each rest c with
                          | Ok rest' c' => Ok ((prop, v') :: rest') c'
                          | Throw e => Throw e
                          end
                      end
                  end) props c = Ok props' c /\
               value_refs (VObj props') = []).
    { induction IH as [|[p x] rest Hx Hrest IHrest]; [exists []; now split|].
      cbn [snd] in Hx.
      apply andb_true_iff in Hc. destruct Hc as [Hc1 Hc2].
      destruct (Hx c Hc1) as (x' & -> & Hx').
      { intros r Hr. apply Hdef. apply in_or_app. now left. }
      destruct (IHrest Hc2) as (rest' & -> & Hrest').
      { intros r Hr. apply Hdef. apply in_or_app. now right. }
      exists ((p, x') :: rest'). split; [reflexivity|].
      cbn [value_refs] in *. now rewrite Hx', Hrest'. }
    destruct H as (props' & -> & H'). exists (VObj props'). now split.
Qed.

Lemma defined_same_keys (d d' : Dict Value) (r : string) :
  keys d' = keys d -> defined d r = true -> defined d' r = true.
Proof.
  intros Hk H. apply keys_defined. rewrite Hk.
  unfold defined in H. destruct (dict_get d r) eqn:E; [|discriminate].
  eapply dict_get_in_keys; eauto.
Qed.

(** X21.  Let the dbgconfig document be as before: clean strings, every
    referenced name a property, and a ranking that every reference
    descends.  If every string of the launch configuration is clean and
    refers to properties of the document only, [expandDbgConfig] returns,
    within one pass more than the highest rank, a launch configuration in
    which no [${dbgconfig:...}] is left. *)
Theorem expandDbgConfig_expands_fully :
  forall (rank : string -> nat) (debugConfig : Value) (d : Dict Value)
         (more : nat),
    plain_document d = true ->
    closed_document d = true ->
    ranked rank d = true ->
    clean_value debugConfig = true ->
    all_defined d debugConfig = true ->
    exists v,
      expandDbgConfig (S (max_rank rank d) + more) debugConfig d
      = Returned v /\
      value_refs v = [].
Proof.
  intros rank debugConfig d more Hp Hc Hr Hclean Hdef.
  destruct (fixed_point_converges (max_rank rank d) d
              (plain_document_plain d Hp Hc) (ranked_bounded rank d Hr))
    as (d' & Hkeys & Hd' & Hfree & Hfix).
  unfold all_defined in Hdef. rewrite forallb_forall in Hdef.
  destruct (expandVariablesInObject_final_free d' debugConfig Hd' Hfree true
              Hclean) as (v & Hv & Hrefs).
  { intros r Hin. apply (defined_same_keys d d' r Hkeys). now apply Hdef. }
  exists v. split; [|exact Hrefs].
  unfold expandDbgConfig. now rewrite Hfix, Hv.
Qed.

End FullExpansionFacts.

Section FullExpansionExamples.
Import JS Expand ExpandMore.

Lemma expandDbgConfig_expands_fully_witness :
  let d :=
    [("bin", VStr "${dbgconfig:build}/bin:${dbgconfig:root}/${env:X}");
     ("build", VStr "${dbgconfig:root}/build");
     ("root", VStr "/home/me")] in
  let rank := fun key : string =>
    if (key =? "bin")%string then 2%nat
    else if (key =? "build")%string then 1%nat else 0%nat in
  let debugConfig :=
    VObj [("program", VStr "${dbgconfig:bin}/app");
          ("args", VArr [VStr "--root"; VStr "${dbgconfig:root}"])] in
  exists v,
    expandDbgConfig 3 debugConfig d = Returned v /\ value_refs v = [].
Proof.
  intros d rank debugConfig.
  apply (expandDbgConfig_expands_fully rank debugConfig d 0); reflexivity.
Defined.

End FullExpansionExamples.

Section EmptinessFacts.
Import JS Expand Props Merge.

Lemma prop_set_not_nil {A} (d : Dict A) (key : string) (v : A) :
  prop_set d key v <> [].
Proof.
  unfold prop_set. destruct (dict_get d key) eqn:E.
  - destruct d as [|[k w] rest]; [discriminate|].
    cbn. destruct (k =? key)%string; discriminate.
  - destruct (array_index key).
    + destruct d as [|[k w] rest]; cbn; [discriminate|].
      destruct (array_index k); [destruct (_ <? _)|]; discriminate.
    + destruct d; discriminate.
Qed.

Lemma assign_props_not_nil {A} (source : Dict A) :
  forall target : Dict A,
    target <> [] \/ source <> [] -> assign_props target source <> [].
Proof.
  induction source as [|[k v] rest IH]; intros target H.
  - destruct H as [H|H]; [exact H | congruence].
  - cbn [assign_props fold_left].
    apply (IH (prop_set target k v)). left. apply prop_set_not_nil.
Qed.

Lemma own_props_empty (v : Value) :
  isScalarValue v = false ->
  isEmpty v = match own_props v with [] => true | _ => false end.
Proof.
  destruct v as [| |b|r|s|items|props]; try discriminate; intros _; cbn.
  - now destruct items.
  - now destruct props.
Qed.

(** X22.  Merging two containers (arrays or dictionaries) gives an empty
    value exactly when both are empty. *)
Theorem mergeValues_empty :
  forall value1 value2 : Value,
    isScalarValue value1 = false ->
    isScalarValue value2 = false ->
    isEmpty (mergeValues value1 value2) = isEmpty value1 && isEmpty value2.
Proof.
  intros value1 value2 H1 H2.
  rewrite (own_props_empty value1 H1), (own_props_empty value2 H2).
  assert (Hobj : isEmpty (VObj (assign_props
                                  (assign_props [] (own_props value1))
                                  (own_props value2)))
                 = match own_props value1 with [] => true | _ => false end
                   && match own_props value2 with [] => true | _ => false end).
  { cbn [isEmpty].
    destruct (own_props value1) as [|kv1 l1] eqn:E1;
      destruct (own_props value2) as [|kv2 l2] eqn:E2; cbn [andb];
      try reflexivity.
    - assert (Hs : kv2 :: l2 <> []) by discriminate.
      pose proof (assign_props_not_nil (kv2 :: l2) (assign_props [] [])
                    (or_intror Hs)) as Hn.
      destruct (assign_props _ (kv2 :: l2)); [congruence | reflexivity].
    - assert (Hs : kv1 :: l1 <> []) by discriminate.
      pose proof (assign_props_not_nil (kv1 :: l1) [] (or_intror Hs)) as Hn.
      change (assign_props (assign_props [] (kv1 :: l1)) [])
        with (assign_props [] (kv1 :: l1)).
      destruct (assign_props [] (kv1 :: l1)); [congruence | reflexivity].
    - assert (Hs : kv2 :: l2 <> []) by discriminate.
      pose proof (assign_props_not_nil (kv2 :: l2)
                    (assign_props [] (kv1 :: l1)) (or_intror Hs)) as Hn.
      destruct (assign_props _ (kv2 :: l2)); [congruence | reflexivity]. }
  destruct value1 as [| |b1|r1|s1|items1|props1]; try discriminate;
    destruct value2 as [| |b2|r2|s2|items2|props2]; try discriminate;
    try exact Hobj.
  cbn. rewrite length_app.
  destruct items1, items2; reflexivity.
Qed.

End EmptinessFacts.

Section DirectoriesFacts.
Import JS Directories.

Variable dirname : string -> string.
Variable mkdir_error : string -> option Error.

Lemma ancestor_dirname (n : nat) (dir : string) :
  ancestor dirname n (dirname dir) = ancestor dirname (S n) dir.
Proof.
  induction n as [|n IH]; [reflexivity|].
  cbn [ancestor] in *. now rewrite IH.
Qed.

Lemma ensureDirectory_step (depth : nat) (fs made : list string)
  (dir : string) :
  ensureDirectory dirname mkdir_error (S depth) fs made dir
  = if exists_dir fs dir then Returns fs made
    else match ensureDirectory dirname mkdir_error depth fs made
                 (dirname dir) with
         | Returns fs' made' =>
             match mkdir_error dir with
             | Some err => Rejects err fs' made'
             | None => Returns (dir :: fs') (made' ++ [dir])
             end
         | other => other
         end.
Proof. reflexivity. Qed.

Lemma ensureDirectory_chain (n : nat) :
  forall (fs made : list string) (dir : string) (extra : nat),
    (forall k, (k < n)%nat ->
               exists_dir fs (ancestor dirname k dir) = false /\
               mkdir_error (ancestor dirname k dir) = None) ->
    exists_dir fs (ancestor dirname n dir) = true ->
    ensureDirectory dirname mkdir_error (S n + extra) fs made dir
    = Returns (rev (chain_down dirname n dir) ++ fs)
              (made ++ chain_down dirname n dir).
Proof.
  induction n as [|n IH]; intros fs made dir extra Hk Hn.
  - change (1 + extra)%nat with (S extra). rewrite ensureDirectory_step.
    cbn in *. rewrite Hn. now rewrite app_nil_r.
  - change (S (S n) + extra)%nat with (S (S n + extra)).
    rewrite ensureDirectory_step.
    destruct (Hk 0%nat ltac:(lia)) as [He Hm]. cbn [ancestor] in He, Hm.
    rewrite He.
    rewrite (IH fs made (dirname dir) extra).
    + rewrite Hm. cbn [chain_down]. rewrite rev_app_distr. cbn [rev app].
      now rewrite app_assoc.
    + intros k Hlt. rewrite ancestor_dirname. apply Hk. lia.
    + now rewrite ancestor_dirname.
Qed.

(** X23.  When the directory [n] levels above [dir] exists, none below it
    does and [mkdir] succeeds on each of those, [ensureDirectory] returns
    after creating exactly the [n] directories that were missing, each
    after the one above it, and no other. *)
Theorem ensureDirectory_creates_missing_ancestors :
  forall (n : nat) (fs : list string) (dir : string) (extra : nat),
    (forall k, (k < n)%nat ->
               exists_dir fs (ancestor dirname k dir) = false /\
               mkdir_error (ancestor dirname k dir) = None) ->
    exists_dir fs (ancestor dirname n dir) = true ->
    ensureDirectory dirname mkdir_error (S n + extra) fs [] dir
    = Returns (rev (chain_down dirname n dir) ++ fs)
              (chain_down dirname n dir) /\
    List.length (chain_down dirname n dir) = n /\
    forall k, (k < n)%nat ->
              nth_error (chain_down dirname n dir) k
              = Some (ancestor dirname (n - 1 - k) dir).
Proof.
  intros n fs dir extra Hk Hn. split; [|split].
  - now rewrite (ensureDirectory_chain n fs [] dir extra Hk Hn).
  - clear. revert dir. induction n as [|n IH]; intros dir; [reflexivity|].
    cbn [chain_down]. rewrite length_app, IH. cbn. lia.
  - clear. revert dir. induction n as [|n IH]; intros dir k Hlt; [lia|].
    cbn [chain_down].
    assert (Hlen : forall m d, List.length (chain_down dirname m d) = m).
    { clear. induction m as [|m IHm]; intros d; [reflexivity|].
      cbn [chain_down]. rewrite length_app, IHm. cbn. lia. }
    destruct (Nat.eq_dec k n) as [->|Hne].
    + rewrite nth_error_app2 by (rewrite Hlen; lia).
      rewrite Hlen, Nat.sub_diag.
      replace (S n - 1 - n)%nat with 0%nat by lia. reflexivity.
    + rewrite nth_error_app1 by (rewrite Hlen; lia).
      rewrite IH by lia. rewrite ancestor_dirname.
      f_equal. f_equal. lia.
Qed.

(** X24.  When neither [dir] nor any directory above it exists, as for a
    path whose root is not there, [ensureDirectory] never returns and
    creates nothing: each call awaits the call for the directory above. *)
Theorem ensureDirectory_needs_an_ancestor :
  forall (fs made : list string) (dir : string),
    (forall k, exists_dir fs (ancestor dirname k dir) = false) ->
    forall depth,
      ensureDirectory dirname mkdir_error depth fs made dir = StillRunning.
Proof.
  intros fs made dir H depth. revert dir H.
  induction depth as [|depth IH]; intros dir H; [reflexivity|].
  rewrite ensureDirectory_step.
  pose proof (H 0%nat) as H0. cbn [ancestor] in H0. rewrite H0.
  rewrite IH; [reflexivity|].
  intros k. rewrite ancestor_dirname. apply H.
Qed.

End DirectoriesFacts.

Section DirectoriesExamples.
Import JS Directories.

Lemma ensureDirectory_creates_missing_ancestors_witness :
  ensureDirectory parent (fun _ => None) 3 ["/"] [] "/a/b"
  = Returns ["/a/b"; "/a"; "/"] ["/a"; "/a/b"] /\
  List.length (chain_down parent 2 "/a/b") = 2%nat /\
  forall k, (k < 2)%nat ->
            nth_error (chain_down parent 2 "/a/b") k
            = Some (ancestor parent (2 - 1 - k) "/a/b").
Proof.
  apply (ensureDirectory_creates_missing_ancestors
           parent (fun _ => None) 2 ["/"] "/a/b" 0).
  - intros k Hk. destruct k as [|[|k]]; [now split | now split | lia].
  - reflexivity.
Defined.

Lemma ensureDirectory_needs_an_ancestor_witness :
  ensureDirectory parent (fun _ => None) 1000 [] [] "/a/b" = StillRunning.
Proof.
  apply (ensureDirectory_needs_an_ancestor parent (fun _ => None) [] []
           "/a/b").
  intros k. reflexivity.
Defined.

End DirectoriesExamples.

Section RegistryFacts.
Import JS Registry.

(** Whether the pattern matches at the head of a string depends on its
    first seven characters only. *)
Lemma matches_here_app (a b : string) :
  (7 <= String.length a)%nat -> matches_here (a ++ b) = matches_here a.
Proof.
  intros H.
  destruct a as [|c1 [|c2 [|c3 [|c4 [|c5 [|c6 [|c7 a]]]]]]];
    cbn in H; try lia.
  unfold matches_here, match_here. cbn [append strip_prefix].
  repeat match goal with
         | |- context [Ascii.eqb ?x ?y] => destruct (Ascii.eqb x y)
         end; try reflexivity.
  now destruct (is_space c7).
Qed.

Lemma exec_none_head (s : string) :
  exec s = None -> matches_here s = false.
Proof.
  unfold matches_here. destruct s; cbn [exec];
    destruct (match_here _); congruence.
Qed.

Lemma exec_skip (pre tail : string) :
  exec (pre ++ "REG_SZ") = None ->
  exec (pre ++ "REG_SZ" ++ tail) = exec ("REG_SZ" ++ tail).
Proof.
  induction pre as [|c pre IH]; intros H; [reflexivity|].
  pose proof (exec_none_head _ H) as Hh.
  assert (Hlen : (7 <= String.length (String c pre ++ "REG_SZ"))%nat).
  { cbn. rewrite length_append. cbn. lia. }
  pose proof (matches_here_app (String c pre ++ "REG_SZ") tail Hlen) as Ha.
  rewrite Hh in Ha. rewrite append_assoc in Ha.
  change (String c pre ++ "REG_SZ" ++ tail)
    with (String c (pre ++ "REG_SZ" ++ tail)) in *.
  cbn [exec]. unfold matches_here in Ha.
  destruct (match_here (String c (pre ++ "REG_SZ" ++ tail)));
    [discriminate|].
  apply IH.
  change (String c pre ++ "REG_SZ") with (String c (pre ++ "REG_SZ")) in H.
  cbn [exec] in H. destruct (match_here _); [discriminate | exact H].
Qed.

Lemma trim_start_spaces (ws s : string) :
  all_space ws = true -> starts_black s = true ->
  trim_start (ws ++ s) = s.
Proof.
  intros Hw Hs. induction ws as [|c ws IH].
  - destruct s as [|c s]; [discriminate|]. cbn in *.
    apply negb_true_iff in Hs. now rewrite Hs.
  - cbn in *. apply andb_true_iff in Hw. destruct Hw as [Hc Hw].
    rewrite Hc. now apply IH.
Qed.

Lemma take_line_value (value rest : string) :
  one_line value = true -> line_ends rest = true ->
  take_line (value ++ rest) = value.
Proof.
  intros Hv Hr. induction value as [|c value IH].
  - destruct rest as [|c rest]; [reflexivity|]. cbn in *. now rewrite Hr.
  - cbn in *. apply andb_true_iff in Hv. destruct Hv as [Hc Hv].
    apply negb_true_iff in Hc. rewrite Hc. now rewrite IH.
Qed.

Lemma registry_run_data (chunks : list string) :
  forall st,
    run (map Data chunks) st
    = {| stdout := Registry.stdout st ++ WaitForPattern.text_of chunks;
         promise := promise st |}.
Proof.
  induction chunks as [|c chunks IH]; intros st.
  - cbn. rewrite append_nil_r. now destruct st.
  - cbn [map run fold_left]. fold (run (map Data chunks)).
    rewrite IH. cbn. now rewrite append_assoc.
Qed.

Lemma registry_settled (es : list Event) :
  forall st v,
    promise st = Resolved v -> promise (run es st) = Resolved v.
Proof.
  induction es as [|e es IH]; intros st v H; [exact H|].
  cbn [run fold_left]. apply IH.
  destruct st as [out p]. cbn in H. subst p.
  destruct e as [err|c|code]; cbn [step]; try reflexivity.
  unfold on_exit. cbn [Registry.stdout promise].
  destruct (negb _); [reflexivity|].
  destruct (exec out); reflexivity.
Qed.

(** X25.  Let what [reg.exe] writes before it exits be, in whatever
    pieces it is read: a text without a match of the pattern, [REG_SZ],
    white space, a value that holds no line terminator and starts with no
    white space, and then the end of the line or of the output.  If the
    process exits with code 0, [readRegistry] resolves with that value,
    and nothing that comes after the exit changes it. *)
Theorem readRegistry_reads_value :
  forall (chunks : list string) (pre ws value rest : string)
         (later : list Event),
    WaitForPattern.text_of chunks = pre ++ "REG_SZ" ++ ws ++ value ++ rest ->
    exec (pre ++ "REG_SZ") = None ->
    ws <> "" -> all_space ws = true ->
    starts_black value = true -> one_line value = true ->
    line_ends rest = true ->
    promise (run (map Data chunks ++ Exit (Some 0) :: later) init)
    = Resolved value.
Proof.
  intros chunks pre ws value rest later Ht Hpre Hne Hws Hb Hv Hr.
  unfold run. rewrite fold_left_app. fold (run (map Data chunks) init).
  rewrite registry_run_data. cbn [Registry.stdout promise init append].
  rewrite Ht. cbn [fold_left]. fold (run later).
  apply registry_settled. cbn [step]. unfold on_exit. cbn [negb Z.eqb].
  cbn [Registry.stdout]. rewrite (exec_skip pre _ Hpre).
  destruct ws as [|c ws]; [congruence|].
  cbn in Hws. apply andb_true_iff in Hws. destruct Hws as [Hc Hws].
  assert (Hm : match_here ("REG_SZ" ++ String c ws ++ value ++ rest)
               = Some value).
  { unfold match_here. cbn [append strip_prefix Ascii.eqb Bool.eqb].
    rewrite Hc. f_equal.
    rewrite (trim_start_spaces ws (value ++ rest) Hws).
    - now apply take_line_value.
    - destruct value; [discriminate | exact Hb]. }
  change ("REG_SZ" ++ String c ws ++ value ++ rest)
    with (String "R" ("EG_SZ" ++ String c ws ++ value ++ rest)) in *.
  cbn [exec]. rewrite Hm. reflexivity.
Qed.

End RegistryFacts.

Section RegistryExamples.
Import JS Registry.

Lemma readRegistry_reads_value_witness :
  let cr := String "013" (String "010" "") in
  let chunks :=
    [cr ++ "HKEY_LOCAL_MACHINE\Software\Python\PythonCore\3.6\InstallPath"
        ++ cr ++ "    (Default)    REG_";
     "SZ    C:\Python36\" ++ cr ++ cr] in
  promise (run (map Data chunks ++ [Exit (Some 0); Data "REG_SZ x"]) init)
  = Resolved "C:\Python36\".
Proof.
  intros cr chunks.
  apply (readRegistry_reads_value chunks
           (cr ++ "HKEY_LOCAL_MACHINE\Software\Python\PythonCore\3.6\InstallPath"
               ++ cr ++ "    (Default)    ")
           "    " "C:\Python36\" (cr ++ cr) [Data "REG_SZ x"]).
  - reflexivity.
  - reflexivity.
  - discriminate.
  - reflexivity.
  - reflexivity.
  - reflexivity.
  - reflexivity.
Defined.

End RegistryExamples.

Section ProcessListFacts.
Import JS Helpers StartAdapter ProcessList.

Variable number_to_string : Number -> string.

Lemma each_line_rev (exec : string -> option (list string))
  (idx : nat * nat * nat) (lines : list string) :
  forall items,
    each_line exec idx number_to_string lines items
    = (rev (flat_map (item_of_line exec idx number_to_string) lines)
       ++ items)%list.
Proof.
  induction lines as [|line rest IH]; intros items; [reflexivity|].
  assert (Hstep : each_line exec idx number_to_string (line :: rest) items
                  = each_line exec idx number_to_string rest
                      (item_of_line exec idx number_to_string line
                       ++ items)%list).
  { cbn [each_line]. unfold item_of_line.
    now destruct (exec line). }
  rewrite Hstep, IH. cbn [flat_map].
  rewrite rev_app_distr, <- app_assoc. f_equal.
  unfold item_of_line. now destruct (exec line).
Qed.

(** X26.  Whatever the expression, [getProcessList] never makes an item of
    the first line of the command's output, makes one of every later line
    that matches, and returns them in the reverse order of the lines: the
    process listed last comes first. *)
Theorem getProcessList_reverses_lines :
  forall (exec : string -> option (list string)) (idx : nat * nat * nat)
         (stdout : string),
    getProcessList exec idx number_to_string stdout
    = rev (flat_map (item_of_line exec idx number_to_string)
                    (tl (split_lines stdout))).
Proof.
  intros exec idx stdout. unfold getProcessList.
  rewrite each_line_rev. apply app_nil_r.
Qed.

(** ** A line of [tasklist] *)

Lemma until_quote_field (field rest : string) :
  Expand.has_char quote field = false ->
  until_quote (field ++ String quote rest) = Some (field, rest).
Proof.
  induction field as [|c field IH]; intros H.
  - reflexivity.
  - cbn in H. apply orb_false_iff in H. destruct H as [Hc Hf].
    cbn [append until_quote]. rewrite Hc. now rewrite (IH Hf).
Qed.

Lemma quoted_field (field rest : string) :
  Expand.has_char quote field = false ->
  quoted (in_quotes field ++ rest) = Some (field, rest).
Proof.
  intros H. unfold in_quotes. cbn [append quoted].
  change (Ascii.eqb quote quote) with true. cbv iota.
  rewrite append_assoc. cbn [append].
  now apply until_quote_field.
Qed.

Lemma substring_prefix (a b : string) :
  String.substring 0 (String.length (a ++ b) - String.length b) (a ++ b) = a.
Proof.
  rewrite length_append.
  replace (String.length a + String.length b - String.length b)%nat
    with (String.length a) by lia.
  induction a as [|c a IH]; cbn.
  - now destruct b.
  - now rewrite IH.
Qed.

(** X27.  On Windows a line of [tasklist] with nine quoted fields, none of
    which holds a quote, gives the item whose name is the first field,
    whose pid is [parseInt] of the second and whose description is the
    ninth: the six fields between are skipped, and what follows the ninth
    is ignored. *)
Theorem getProcessList_reads_tasklist_line :
  forall (name pidText f3 f4 f5 f6 f7 f8 title tail : string),
    quote_free [name; pidText; f3; f4; f5; f6; f7; f8; title] = true ->
    let line := csv_line [name; pidText; f3; f4; f5; f6; f7; f8; title] in
    tasklist_exec (line ++ tail) = Some [line; name; pidText; title] /\
    item_of_line tasklist_exec tasklist_idx number_to_string (line ++ tail)
    = [{| label := number_to_string (parseInt pidText) ++ ": " ++ name;
          description := Some title;
          pid := parseInt pidText |}].
Proof.
  intros name pidText f3 f4 f5 f6 f7 f8 title tail H line.
  cbn [quote_free forallb] in H.
  repeat (apply andb_true_iff in H; destruct H as [?H H]).
  repeat match goal with
         | Hq : negb _ = true |- _ => apply negb_true_iff in Hq
         end.
  assert (Hexec : tasklist_exec (line ++ tail)
                  = Some [line; name; pidText; title]).
  { unfold tasklist_exec.
    assert (Hl : line ++ tail
                 = in_quotes name ++ "," ++ in_quotes pidText ++ "," ++
                   in_quotes f3 ++ "," ++ in_quotes f4 ++ "," ++
                   in_quotes f5 ++ "," ++ in_quotes f6 ++ "," ++
                   in_quotes f7 ++ "," ++ in_quotes f8 ++ "," ++
                   in_quotes title ++ tail).
    { subst line. cbn [csv_line]. now rewrite !append_assoc. }
    rewrite Hl at 1.
    rewrite quoted_field by assumption. cbn [comma append].
    rewrite quoted_field by assumption. cbn [comma append skip_fields].
    do 6 (rewrite quoted_field by assumption; cbn [comma append]).
    rewrite quoted_field by assumption.
    now rewrite substring_prefix. }
  split; [exact Hexec|].
  unfold item_of_line. rewrite Hexec. reflexivity.
Qed.

End ProcessListFacts.

Section ProcessListExamples.
Import JS Helpers StartAdapter ProcessList.

Lemma getProcessList_reads_tasklist_line_witness :
  let line :=
    csv_line ["code.exe"; "4711"; "Console"; "1"; "90,000 K"; "Running";
              "PC\me"; "0:00:01"; "N/A"] in
  let cr := String "013" "" in
  tasklist_exec (line ++ cr)
  = Some [line; "code.exe"; "4711"; "N/A"] /\
  item_of_line tasklist_exec tasklist_idx (fun _ => "4711") (line ++ cr)
  = [{| label := "4711: code.exe";
        description := Some "N/A";
        pid := parseInt "4711" |}].
Proof.
  intros line cr.
  apply (getProcessList_reads_tasklist_line (fun _ => "4711")
           "code.exe" "4711" "Console" "1" "90,000 K" "Running" "PC\me"
           "0:00:01" "N/A" cr).
  reflexivity.
Defined.

End ProcessListExamples.

Section EmptinessExamples.
Import JS Expand Props Merge.

Lemma mergeValues_empty_witness :
  isEmpty (mergeValues (VObj []) (VArr [VStr "-v"]))
  = isEmpty (VObj []) && isEmpty (VArr [VStr "-v"]).
Proof.
  apply (mergeValues_empty (VObj []) (VArr [VStr "-v"])); reflexivity.
Defined.

End EmptinessExamples.
